(** * Exponential-series solver (qutip/essolve.py): model and properties

    The development embeds [ode2es] and [essolve] of [qutip/essolve.py].
    Floating-point complex numbers are idealised as pairs of real numbers,
    numpy 2-D arrays as a shape together with an element accessor, and the
    numerical routines the file calls but does not define (the eigen-solver,
    [la.solve], [liouvillian], [estidy]) are parameters with the contracts
    their callers rely on. *)

From Stdlib Require Import String Reals Lra Lia List Bool Arith.
Import ListNotations.

Local Open Scope R_scope.

(** ** Complex scalars *)

Definition C : Type := (R * R)%type.

Definition Re (z : C) : R := fst z.
Definition Im (z : C) : R := snd z.

Definition RtoC (x : R) : C := (x, 0).
Definition C0 : C := (0, 0).
Definition C1 : C := (1, 0).
(** The imaginary unit, Python's [1j]. *)
Definition Ci : C := (0, 1).

Definition Cadd (a b : C) : C := (fst a + fst b, snd a + snd b).
Definition Copp (a : C) : C := (- fst a, - snd a).
Definition Csub (a b : C) : C := Cadd a (Copp b).
Definition Cmul (a b : C) : C :=
  (fst a * fst b - snd a * snd b, fst a * snd b + snd a * fst b).
Definition Cinv (a : C) : C :=
  (fst a / (fst a * fst a + snd a * snd a),
   - snd a / (fst a * fst a + snd a * snd a)).
Definition Cdiv (a b : C) : C := Cmul a (Cinv b).
Definition Cconj (a : C) : C := (fst a, - snd a).

(** [np.exp] on a complex argument. *)
Definition Cexp (z : C) : C :=
  (exp (fst z) * cos (snd z), exp (fst z) * sin (snd z)).

Declare Scope C_scope.
Delimit Scope C_scope with C.
Bind Scope C_scope with C.
Infix "+" := Cadd : C_scope.
Infix "-" := Csub : C_scope.
Infix "*" := Cmul : C_scope.
Infix "/" := Cdiv : C_scope.
Notation "- x" := (Copp x) : C_scope.

Lemma C_eq (a b : C) : fst a = fst b -> snd a = snd b -> a = b.
Proof. destruct a, b; simpl; intros; subst; reflexivity. Qed.

Ltac cdestruct :=
  repeat match goal with
         | z : C |- _ => destruct z
         end.

Ltac csimpl :=
  unfold Cdiv, Csub, Cadd, Cmul, Copp, Cinv, Cconj, RtoC, C0, C1, Ci, Re, Im in *;
  simpl in *.

Ltac cring := intros; cdestruct; csimpl; apply C_eq; simpl; ring.

Lemma Cadd_0_l (a : C) : (C0 + a)%C = a.
Proof. cring. Qed.

Lemma Cadd_0_r (a : C) : (a + C0)%C = a.
Proof. cring. Qed.

Lemma Cadd_comm (a b : C) : (a + b)%C = (b + a)%C.
Proof. cring. Qed.

Lemma Cadd_assoc (a b c : C) : (a + (b + c))%C = ((a + b) + c)%C.
Proof. cring. Qed.

Lemma Cmul_1_l (a : C) : (C1 * a)%C = a.
Proof. cring. Qed.

Lemma Cmul_1_r (a : C) : (a * C1)%C = a.
Proof. cring. Qed.

Lemma Cmul_0_l (a : C) : (C0 * a)%C = C0.
Proof. cring. Qed.

Lemma Cmul_0_r (a : C) : (a * C0)%C = C0.
Proof. cring. Qed.

Lemma Cmul_comm (a b : C) : (a * b)%C = (b * a)%C.
Proof. cring. Qed.

Lemma Cmul_assoc (a b c : C) : (a * (b * c))%C = ((a * b) * c)%C.
Proof. cring. Qed.

Lemma Cmul_add_distr_r (a b c : C) : ((a + b) * c)%C = (a * c + b * c)%C.
Proof. cring. Qed.

Lemma Cmul_add_distr_l (a b c : C) : (a * (b + c))%C = (a * b + a * c)%C.
Proof. cring. Qed.

Lemma Cadd_opp_r (a : C) : (a + - a)%C = C0.
Proof. cring. Qed.

Lemma C_ring_theory : ring_theory C0 C1 Cadd Cmul Csub Copp (@eq C).
Proof.
  constructor; cring.
Qed.

Lemma C1_neq_C0 : C1 <> C0.
Proof. unfold C1, C0; intros H; inversion H; lra. Qed.

Lemma Cnorm2_pos (a : C) : a <> C0 -> 0 < fst a * fst a + snd a * snd a.
Proof.
  destruct a as [x y]; unfold C0; simpl; intros H.
  destruct (Req_dec x 0) as [Hx | Hx]; destruct (Req_dec y 0) as [Hy | Hy].
  - subst; contradiction H; reflexivity.
  - nra.
  - nra.
  - nra.
Qed.

Lemma Cinv_l (a : C) : a <> C0 -> (Cinv a * a)%C = C1.
Proof.
  intros H; pose proof (Cnorm2_pos a H) as Hn.
  destruct a as [x y]; csimpl; apply C_eq; simpl; field; lra.
Qed.

Lemma C_field_theory :
  field_theory C0 C1 Cadd Cmul Csub Copp Cdiv Cinv (@eq C).
Proof.
  constructor.
  - exact C_ring_theory.
  - exact C1_neq_C0.
  - reflexivity.
  - exact Cinv_l.
Qed.

Add Field C_field : C_field_theory.

Lemma C_eq_dec (a b : C) : {a = b} + {a <> b}.
Proof.
  destruct a as [x y], b as [x' y'].
  destruct (Req_dec_T x x') as [Hx | Hx]; [| right; congruence].
  destruct (Req_dec_T y y') as [Hy | Hy]; [| right; congruence].
  left; congruence.
Qed.

Definition Ceqb (a b : C) : bool := if C_eq_dec a b then true else false.

Lemma Ceqb_refl (a : C) : Ceqb a a = true.
Proof. unfold Ceqb. destruct (C_eq_dec a a); [reflexivity | contradiction]. Qed.

Lemma Ceqb_eq (a b : C) : Ceqb a b = true <-> a = b.
Proof.
  unfold Ceqb. destruct (C_eq_dec a b); split; intros; try discriminate;
    try reflexivity; try assumption; contradiction.
Qed.

Lemma Cmul_integral (a b : C) : (a * b)%C = C0 -> a = C0 \/ b = C0.
Proof.
  intros H.
  destruct (C_eq_dec a C0) as [Ha | Ha]; [left; exact Ha | right].
  assert (E : b = (Cinv a * (a * b))%C).
  { rewrite Cmul_assoc, Cinv_l by exact Ha. ring. }
  rewrite E, H. ring.
Qed.

Lemma Cexp_0 : Cexp C0 = C1.
Proof.
  unfold Cexp, C0, C1; simpl.
  rewrite exp_0, cos_0, sin_0. apply C_eq; simpl; ring.
Qed.

Lemma Cexp_add (a b : C) : Cexp (a + b) = (Cexp a * Cexp b)%C.
Proof.
  destruct a as [x y], b as [x' y']; unfold Cexp; csimpl.
  rewrite exp_plus, cos_plus, sin_plus. apply C_eq; simpl; ring.
Qed.

Lemma Cexp_conj (a : C) : Cconj (Cexp a) = Cexp (Cconj a).
Proof.
  destruct a as [x y]; unfold Cexp; csimpl.
  rewrite cos_neg, sin_neg. apply C_eq; simpl; ring.
Qed.

Lemma Cconj_mul (a b : C) : Cconj (a * b) = (Cconj a * Cconj b)%C.
Proof. cring. Qed.

Lemma Cconj_add (a b : C) : Cconj (a + b) = (Cconj a + Cconj b)%C.
Proof. cring. Qed.

Lemma Cconj_invol (a : C) : Cconj (Cconj a) = a.
Proof. cring. Qed.

Lemma Cconj_RtoC (x : R) : Cconj (RtoC x) = RtoC x.
Proof. unfold Cconj, RtoC; simpl. apply C_eq; simpl; ring. Qed.

Lemma Cconj_0 : Cconj C0 = C0.
Proof. unfold Cconj, C0; simpl. apply C_eq; simpl; ring. Qed.

(** ** Finite sums of scalars *)

Fixpoint csum (n : nat) (f : nat -> C) : C :=
  match n with
  | O => C0
  | S k => (csum k f + f k)%C
  end.

Lemma csum_ext (n : nat) (f g : nat -> C) :
  (forall k, (k < n)%nat -> f k = g k) -> csum n f = csum n g.
Proof.
  induction n as [| n IH]; intros H; simpl; [reflexivity |].
  rewrite IH, H by (intros; try apply H; lia). reflexivity.
Qed.

Lemma csum_zero (n : nat) (f : nat -> C) :
  (forall k, (k < n)%nat -> f k = C0) -> csum n f = C0.
Proof.
  induction n as [| n IH]; intros H; simpl; [reflexivity |].
  rewrite IH, H by (intros; try apply H; lia). ring.
Qed.

Lemma csum_add (n : nat) (f g : nat -> C) :
  csum n (fun k => (f k + g k)%C) = (csum n f + csum n g)%C.
Proof.
  induction n as [| n IH]; simpl; [ring |]. rewrite IH. ring.
Qed.

Lemma csum_scale_l (n : nat) (c : C) (f : nat -> C) :
  csum n (fun k => (c * f k)%C) = (c * csum n f)%C.
Proof.
  induction n as [| n IH]; simpl; [ring |]. rewrite IH. ring.
Qed.

Lemma csum_scale_r (n : nat) (c : C) (f : nat -> C) :
  csum n (fun k => (f k * c)%C) = (csum n f * c)%C.
Proof.
  induction n as [| n IH]; simpl; [ring |]. rewrite IH. ring.
Qed.

Lemma csum_conj (n : nat) (f : nat -> C) :
  Cconj (csum n f) = csum n (fun k => Cconj (f k)).
Proof.
  induction n as [| n IH]; simpl; [apply Cconj_0 |].
  rewrite Cconj_add, IH. reflexivity.
Qed.

(** Only the [k]-th summand survives when the others vanish. *)
Lemma csum_single (n k : nat) (f : nat -> C) :
  (k < n)%nat -> (forall j, (j < n)%nat -> j <> k -> f j = C0) ->
  csum n f = f k.
Proof.
  induction n as [| n IH]; intros Hk H; [lia |].
  simpl. destruct (Nat.eq_dec k n) as [-> | Hne].
  - rewrite csum_zero; [ring |]. intros j Hj; apply H; lia.
  - rewrite IH by (try lia; intros; apply H; lia).
    rewrite (H n) by lia. ring.
Qed.

(** ** numpy arrays

    A 2-D array is its shape and an element accessor; the accessor is only
    meaningful inside the shape, and two arrays are the same array when the
    shapes agree and the elements inside the shape agree. *)

Record ndarray : Type := mkArr {
  nrows : nat;
  ncols : nat;
  item : nat -> nat -> C
}.

(** A 1-D array, as returned by the slice [vv[:, i]]. *)
Record array1 : Type := mkArr1 {
  alen : nat;
  aitem : nat -> C
}.

Definition arr_eq (A B : ndarray) : Prop :=
  nrows A = nrows B /\ ncols A = ncols B /\
  forall i j, (i < nrows A)%nat -> (j < ncols A)%nat -> item A i j = item B i j.

Lemma arr_eq_refl (A : ndarray) : arr_eq A A.
Proof. repeat split. Qed.

Lemma arr_eq_sym (A B : ndarray) : arr_eq A B -> arr_eq B A.
Proof.
  intros (Hr & Hc & H); repeat split; try congruence.
  intros i j Hi Hj; symmetry; apply H; congruence.
Qed.

Lemma arr_eq_trans (A B D : ndarray) : arr_eq A B -> arr_eq B D -> arr_eq A D.
Proof.
  intros (Hr & Hc & H) (Hr' & Hc' & H'); repeat split; try congruence.
  intros i j Hi Hj; rewrite H by assumption; apply H'; congruence.
Qed.

(** Python exceptions raised by the solver or by the routines it calls. *)
Inductive exn : Type :=
| TypeError (msg : string)
| ValueError
| IndexError
| LinAlgError
| AttributeError.

Inductive result (A : Type) : Type :=
| Ok (a : A)
| Raise (e : exn).

Arguments Ok {A} a.
Arguments Raise {A} e.

Definition bind {A B : Type} (r : result A) (k : A -> result B) : result B :=
  match r with
  | Ok a => k a
  | Raise e => Raise e
  end.

Notation "x <- e ;; k" := (bind e (fun x => k))
  (at level 61, e at next level, right associativity).

Lemma bind_Ok_inv {A B : Type} (r : result A) (k : A -> result B) (b : B) :
  bind r k = Ok b -> exists a, r = Ok a /\ k a = Ok b.
Proof. destruct r as [a | e]; simpl; intros H; [eauto | discriminate]. Qed.

(** Dense matrix product [A * B]; numpy raises when the inner dimensions
    differ. *)
Definition matmul (A B : ndarray) : ndarray :=
  mkArr (nrows A) (ncols B)
        (fun i j => csum (ncols A) (fun k => (item A i k * item B k j)%C)).

Definition matmul_checked (A B : ndarray) : result ndarray :=
  if (ncols A =? nrows B)%nat then Ok (matmul A B) else Raise ValueError.

(** [A.T] *)
Definition transpose (A : ndarray) : ndarray :=
  mkArr (ncols A) (nrows A) (fun i j => item A j i).

(** Conjugate transpose, the data of [q.dag()]. *)
Definition ctranspose (A : ndarray) : ndarray :=
  mkArr (ncols A) (nrows A) (fun i j => Cconj (item A j i)).

(** [np.hstack] of two blocks, and of a list of blocks: the blocks must
    have the same number of rows, and the list must not be empty. *)
Definition hstack2 (A B : ndarray) : ndarray :=
  mkArr (nrows A) (ncols A + ncols B)
        (fun i j => if (j <? ncols A)%nat then item A i j
                    else item B i (j - ncols A)).

Fixpoint hstack_from (A : ndarray) (l : list ndarray) : result ndarray :=
  match l with
  | [] => Ok A
  | B :: rest =>
      if (nrows A =? nrows B)%nat then hstack_from (hstack2 A B) rest
      else Raise ValueError
  end.

Definition hstack (l : list ndarray) : result ndarray :=
  match l with
  | [] => Raise ValueError
  | A :: rest => hstack_from A rest
  end.

(** [sp.spdiags(d, 0, m, n)]: the [m] by [n] matrix whose main diagonal is
    the single row of [d]; scipy refuses a [d] with another number of rows
    than the number of diagonals asked for. *)
Definition spdiags (d : ndarray) (m n : nat) : result ndarray :=
  if (nrows d =? 1)%nat then
    Ok (mkArr m n (fun i j =>
                     if (i =? j)%nat then
                       if (j <? ncols d)%nat then item d 0%nat j else C0
                     else C0))
  else Raise ValueError.

(** The slice [A[:, i]]. *)
Definition column (A : ndarray) (i : nat) : result array1 :=
  if (i <? ncols A)%nat then Ok (mkArr1 (nrows A) (fun k => item A k i))
  else Raise IndexError.

(** [np.matrix(x).T] for a 1-D array [x]: the column with the items of
    [x]. *)
Definition as_column (x : array1) : ndarray :=
  mkArr (alen x) 1 (fun k _ => aitem x k).

(** Indexing [w[i]] into the array of eigenvalues. *)
Definition getitem (w : list C) (i : nat) : result C :=
  match nth_error w i with
  | Some x => Ok x
  | None => Raise IndexError
  end.

(** Modelled from the spec: the vectorization of a state matrix, missing
    from the sources ([mat2vec] of qutip.superoperator); the columns of the
    matrix are stacked into one column. *)
Definition mat2vec (A : ndarray) : ndarray :=
  mkArr (nrows A * ncols A) 1
        (fun k _ => item A (k mod nrows A) (k / nrows A)).

(** Modelled from the spec: the reshape of a flattened vector back into a
    square state matrix, missing from the sources ([vec2mat] of
    qutip.superoperator); the inverse of [mat2vec], defined when the length
    is a perfect square. *)
Definition vec2mat (x : array1) : result ndarray :=
  let n := Nat.sqrt (alen x) in
  if (n * n =? alen x)%nat then
    Ok (mkArr n n (fun i j => aitem x (j * n + i)))
  else Raise ValueError.

(** ** Quantum objects

    Modelled from the spec: the operator/state data type ([Qobj] of
    qutip.qobj) is missing from the sources; it carries the matrix storage
    and the shape and dimension metadata. *)

Unset Elimination Schemes.
(** Python's nested lists of integers, as used for [dims]. *)
Inductive dimspec : Type :=
| DInt (n : nat)
| DList (l : list dimspec).
Set Elimination Schemes.

Record Qobj : Type := mkQobj {
  data : ndarray;
  dims : dimspec * dimspec;
  shape : nat * nat
}.

(** [q.full()] *)
Definition full (q : Qobj) : ndarray := data q.

(** [prod(q.shape)] *)
Definition prod_shape (q : Qobj) : nat := (fst (shape q) * snd (shape q))%nat.

(** Modelled from the spec: the promotion [rho0 * rho0.dag()] of a ket to a
    density matrix, the outer product of the state with its own conjugate
    transpose. The metadata of the product is the row metadata of the left
    factor and the column metadata of the right factor. *)
Definition Qobj_outer (q : Qobj) : Qobj :=
  mkQobj (matmul (data q) (ctranspose (data q)))
         (fst (dims q), fst (dims q))
         (fst (shape q), fst (shape q)).

Definition qobj_eq (a b : Qobj) : Prop :=
  arr_eq (data a) (data b) /\ dims a = dims b /\ shape a = shape b.

(** The dims of a ket, of an operator and of a superoperator on a space
    of dimension [n]. *)
Definition ket_of_dim (n : nat) : dimspec * dimspec := (DList [DInt n], DList [DInt 1]).
Definition oper_of_dim (n : nat) : dimspec * dimspec := (DList [DInt n], DList [DInt n]).
Definition super_of_dim (n : nat) : dimspec * dimspec :=
  (DList [DList [DInt n]; DList [DInt n]], DList [DList [DInt n]; DList [DInt n]]).

(** Kronecker's delta. *)
Definition delta (i j : nat) : C := if (i =? j)%nat then C1 else C0.

(** The two-level scenario: the generator and observable [diag(1, -1)]
    and the ket [(1, 0)]. *)
Definition sigmaz : Qobj :=
  mkQobj (mkArr 2 2 (fun i j => if (i =? j)%nat then
                                  if (i =? 0)%nat then C1 else (- C1)%C
                                else C0))
         (oper_of_dim 2) (2%nat, 2%nat).

Definition ket0 : Qobj :=
  mkQobj (mkArr 2 1 (fun i _ => delta i 0)) (ket_of_dim 2) (2%nat, 1%nat).

(** ** Exponential series

    Modelled from the spec: the exponential-series container ([eseries],
    [esval] of qutip.eseries) is missing from the sources; a series is a
    collection of terms (coefficient matrix, rate), two series are combined
    by putting their terms together, and the series stands for the function
    [t |-> sum_i coefficient_i * exp(rate_i * t)]. *)

Definition eseries : Type := list (Qobj * C).

(** [eseries(q, s)] *)
Definition eseries_new (q : Qobj) (s : C) : eseries := [(q, s)].

(** [a + b] on series. *)
Definition eseries_add (a b : eseries) : eseries := a ++ b.

(** The statement [if out: out += term else: out = term] of the two
    loops; [None] is false and a series object is true. *)
Definition accumulate (out : option eseries) (term : eseries) : option eseries :=
  match out with
  | Some o => Some (eseries_add o term)
  | None => Some term
  end.

Definition esval_item (es : eseries) (t : R) (i j : nat) : C :=
  fold_right
    (fun term acc => (Cexp (snd term * RtoC t) * item (data (fst term)) i j + acc)%C)
    C0 es.

(** The value of the series at one time; the metadata is that of the
    coefficients, and a series without terms has the value [empty]. *)
Definition esval1 (empty : Qobj) (es : eseries) (t : R) : Qobj :=
  match es with
  | [] => empty
  | (q, _) :: _ =>
      mkQobj (mkArr (nrows (data q)) (ncols (data q)) (esval_item es t))
             (dims q) (shape q)
  end.

(** ** Results *)

(** One expectation-value sequence: [np.real] yields a real array, the
    untouched row of [result_list] is a complex array. *)
Inductive expect_seq : Type :=
| RealSeq (l : list R)
| ComplexSeq (l : list C).

(** Modelled from the spec: the result container ([Odedata] of
    qutip.odedata) is missing from the sources; it holds the solver
    identifier, the time grid and the expectation sequences. *)
Record Odedata : Type := mkOdedata {
  od_solver : string;
  od_times : list R;
  od_expect : list expect_seq
}.

(** The two states of [result_list] in [essolve]: a Python list of
    placeholder objects, or a 2-D complex array given by its rows. *)
Inductive result_buffer : Type :=
| Placeholders (l : list Qobj)
| Rows (rows : list (list C)).

(** [np.zeros([n, m], dtype=complex)] *)
Definition zeros (n m : nat) : result_buffer := Rows (repeat (repeat C0 m) n).

Fixpoint set_nth {A : Type} (n : nat) (x : A) (l : list A) : option (list A) :=
  match l, n with
  | [], _ => None
  | _ :: tl, O => Some (x :: tl)
  | y :: tl, S k =>
      match set_nth k x tl with
      | Some tl' => Some (y :: tl')
      | None => None
      end
  end.

(** The assignment [result_list[n, :] = row]: a Python list refuses the
    tuple index, an array refuses a row out of range or a row of another
    length. *)
Definition set_row (buf : result_buffer) (n : nat) (row : list C) : result result_buffer :=
  match buf with
  | Placeholders _ => Raise (TypeError "list indices must be integers")
  | Rows rows =>
      match nth_error rows n with
      | None => Raise IndexError
      | Some old =>
          if (length old =? length row)%nat then
            match set_nth n row rows with
            | Some rows' => Ok (Rows rows')
            | None => Raise IndexError
            end
          else Raise ValueError
      end
  end.

(** The read [result_list[n, :]]. *)
Definition get_row (buf : result_buffer) (n : nat) : result (list C) :=
  match buf with
  | Placeholders _ => Raise (TypeError "list indices must be integers")
  | Rows rows =>
      match nth_error rows n with
      | Some r => Ok r
      | None => Raise IndexError
      end
  end.

(** Sequencing over a list, for Python's [for] loops and comprehensions. *)
Fixpoint for_each {A S : Type} (body : A -> S -> result S) (l : list A) (s : S) : result S :=
  match l with
  | [] => Ok s
  | x :: tl => s' <- body x s ;; for_each body tl s'
  end.

Fixpoint map_result {A B : Type} (f : A -> result B) (l : list A) : result (list B) :=
  match l with
  | [] => Ok []
  | x :: tl => y <- f x ;; ys <- map_result f tl ;; Ok (y :: ys)
  end.

(** [enumerate(l)] *)
Definition enumerate {A : Type} (l : list A) : list (nat * A) :=
  combine (seq 0 (length l)) l.

(** ** Loops and comprehensions *)

Lemma map_result_length {A B : Type} (f : A -> result B) (l : list A) (ys : list B) :
  map_result f l = Ok ys -> length ys = length l.
Proof.
  revert ys; induction l as [| x tl IH]; simpl; intros ys H.
  - inversion H; reflexivity.
  - apply bind_Ok_inv in H as (y & _ & H).
    apply bind_Ok_inv in H as (ys' & Hys & H).
    inversion H; subst; simpl. f_equal; apply IH; exact Hys.
Qed.

Lemma map_result_nth {A B : Type} (f : A -> result B) (l : list A) (ys : list B) :
  map_result f l = Ok ys ->
  forall i y, nth_error ys i = Some y ->
  exists x, nth_error l i = Some x /\ f x = Ok y.
Proof.
  revert ys; induction l as [| x tl IH]; simpl; intros ys H i y Hy.
  - inversion H; subst. destruct i; discriminate.
  - apply bind_Ok_inv in H as (y0 & Hy0 & H).
    apply bind_Ok_inv in H as (ys' & Hys & H).
    inversion H; subst. destruct i as [| i]; simpl in *.
    + inversion Hy; subst. eauto.
    + eapply IH; eassumption.
Qed.

(** The terms held by [out]. *)
Definition series_of (out : option eseries) : eseries :=
  match out with
  | Some es => es
  | None => []
  end.

(** A loop that adds one term per index collects the terms in order. *)
Lemma for_each_accumulate (term : nat -> result (Qobj * C)) (l : list nat)
      (out out' : option eseries) :
  for_each (fun i o => t <- term i ;; Ok (accumulate o [t])) l out = Ok out' ->
  exists ts, map_result term l = Ok ts /\
             series_of out' = series_of out ++ ts /\
             (out' = None <-> out = None /\ ts = []).
Proof.
  revert out; induction l as [| i tl IH]; simpl; intros out H.
  - inversion H; subst. exists []. rewrite app_nil_r. tauto.
  - apply bind_Ok_inv in H as (o1 & Ho1 & H).
    apply bind_Ok_inv in Ho1 as (t & Ht & Ho1). inversion Ho1; subst; clear Ho1.
    apply IH in H as (ts & Hts & Hs & Hn).
    exists (t :: ts). rewrite Ht, Hts; simpl. split; [reflexivity |]. split.
    + rewrite Hs. destruct out; simpl; unfold eseries_add;
        [rewrite <- app_assoc |]; reflexivity.
    + split; [| intros [_ ?]; discriminate].
      intros E. apply Hn in E as [E _]. destruct out; discriminate.
Qed.

Lemma for_each_ext {A S : Type} (f g : A -> S -> result S) (l : list A) (s : S) :
  (forall x s, f x s = g x s) -> for_each f l s = for_each g l s.
Proof.
  intros E; revert s; induction l as [| x tl IH]; intros s; simpl; [reflexivity |].
  rewrite E. destruct (g x s); simpl; auto.
Qed.

(** ** Spectral decompositions

    Two decompositions of one vector into eigenvectors of one matrix give
    the same vector back when every eigenvector is weighted by a function
    of its eigenvalue; vectors are functions on the indices below [N]. *)

(** The sum of a quantity over a list of (eigenvalue, vector) pairs. *)
Definition lsum {A : Type} (g : A -> C) (l : list A) : C :=
  fold_right (fun e acc => (g e + acc)%C) C0 l.

Lemma lsum_cons {A : Type} (g : A -> C) (e : A) (l : list A) :
  lsum g (e :: l) = (g e + lsum g l)%C.
Proof. reflexivity. Qed.

Lemma lsum_app {A : Type} (g : A -> C) (l1 l2 : list A) :
  lsum g (l1 ++ l2) = (lsum g l1 + lsum g l2)%C.
Proof.
  induction l1 as [| e l1 IH]; simpl; [ring |].
  fold (lsum g (l1 ++ l2)) (lsum g l1). rewrite IH. ring.
Qed.

Lemma lsum_ext {A : Type} (g h : A -> C) (l : list A) :
  (forall e, In e l -> g e = h e) -> lsum g l = lsum h l.
Proof.
  induction l as [| e l IH]; intros H; [reflexivity |].
  rewrite !lsum_cons, H, IH; [reflexivity | | left; reflexivity].
  intros; apply H; right; assumption.
Qed.

Lemma lsum_map {A B : Type} (g : B -> C) (h : A -> B) (l : list A) :
  lsum g (map h l) = lsum (fun e => g (h e)) l.
Proof.
  induction l as [| e l IH]; [reflexivity |].
  simpl map. rewrite !lsum_cons, IH. reflexivity.
Qed.

Lemma lsum_filter {A : Type} (g : A -> C) (P : A -> bool) (l : list A) :
  lsum g (filter P l) = lsum (fun e => if P e then g e else C0) l.
Proof.
  induction l as [| e l IH]; [reflexivity |].
  simpl filter. rewrite lsum_cons. destruct (P e).
  - rewrite lsum_cons, IH. reflexivity.
  - rewrite IH. ring.
Qed.

Lemma lsum_add {A : Type} (g h : A -> C) (l : list A) :
  lsum (fun e => (g e + h e)%C) l = (lsum g l + lsum h l)%C.
Proof.
  induction l as [| e l IH]; [simpl; ring |].
  rewrite !lsum_cons, IH. ring.
Qed.

Lemma lsum_scale {A : Type} (c : C) (g : A -> C) (l : list A) :
  lsum (fun e => (c * g e)%C) l = (c * lsum g l)%C.
Proof.
  induction l as [| e l IH]; [simpl; ring |].
  rewrite !lsum_cons, IH. ring.
Qed.

Lemma lsum_csum {A : Type} (n : nat) (g : A -> nat -> C) (l : list A) :
  lsum (fun e => csum n (g e)) l = csum n (fun q => lsum (fun e => g e q) l).
Proof.
  induction l as [| e l IH].
  - simpl. symmetry. apply csum_zero. reflexivity.
  - rewrite lsum_cons, IH, <- csum_add. apply csum_ext. intros q _.
    rewrite lsum_cons. reflexivity.
Qed.

Lemma lsum_map_seq {A : Type} (g : A -> C) (h : nat -> A) (n : nat) :
  lsum g (map h (seq 0 n)) = csum n (fun k => g (h k)).
Proof.
  induction n as [| n IH]; [reflexivity |].
  rewrite seq_S, map_app, lsum_app, IH. simpl. ring.
Qed.

(** [x] is an eigenvector of the [N] by [N] block of [A] for [lam]. *)
Definition eigvec (A : nat -> nat -> C) (N : nat) (lam : C) (x : nat -> C) : Prop :=
  forall p, (p < N)%nat -> csum N (fun q => (A p q * x q)%C) = (lam * x p)%C.

Lemma eigvec_scale (A : nat -> nat -> C) (N : nat) (lam c : C) (x : nat -> C) :
  eigvec A N lam x -> eigvec A N lam (fun p => (c * x p)%C).
Proof.
  intros H p Hp.
  rewrite (csum_ext _ _ (fun q => (c * (A p q * x q))%C)) by (intros; ring).
  rewrite csum_scale_l, H by exact Hp. ring.
Qed.

(** Eigenvectors that add up to zero still add up to zero when each is
    weighted by a function of its eigenvalue. *)
Lemma spectral_zero (A : nat -> nat -> C) (N : nat) :
  forall (n : nat) (zs : list (C * (nat -> C))),
    (length zs <= n)%nat ->
    (forall e, In e zs -> eigvec A N (fst e) (snd e)) ->
    (forall p, (p < N)%nat -> lsum (fun e => snd e p) zs = C0) ->
    forall (f : C -> C) (p : nat), (p < N)%nat ->
      lsum (fun e => (f (fst e) * snd e p)%C) zs = C0.
Proof.
  induction n as [| n IH]; intros zs Hlen Heig Hsum f p Hp.
  - destruct zs; [reflexivity | simpl in Hlen; lia].
  - destruct zs as [| [lam0 z0] rest]; [reflexivity |].
    set (zs := (lam0, z0) :: rest) in *.
    (* the other eigenvalues, each vector scaled by the eigenvalue gap *)
    set (keep := fun e : C * (nat -> C) => negb (Ceqb (fst e) lam0)).
    set (gap := fun e : C * (nat -> C) =>
                  (fst e, fun q => ((fst e - lam0) * snd e q)%C)).
    assert (Hgap : forall q, (q < N)%nat ->
               lsum (fun e => ((fst e - lam0) * snd e q)%C) zs = C0).
    { intros q Hq.
      rewrite (lsum_ext _ (fun e => (csum N (fun r => (A q r * snd e r)%C)
                                     + (- lam0) * snd e q)%C)).
      - rewrite lsum_add, lsum_scale, (Hsum q Hq), lsum_csum.
        rewrite csum_zero; [ring |].
        intros r Hr. rewrite lsum_scale, (Hsum r Hr). ring.
      - intros e He. rewrite (Heig e He q Hq). ring. }
    assert (Hkeep : forall (G : C * (nat -> C) -> C),
               (forall e, fst e = lam0 -> G e = C0) ->
               lsum G (filter keep zs) = lsum G zs).
    { intros G HG. rewrite lsum_filter. apply lsum_ext. intros e _.
      unfold keep. destruct (Ceqb (fst e) lam0) eqn:E; simpl; [| reflexivity].
      apply Ceqb_eq in E. symmetry. apply HG. exact E. }
    assert (Hshort : (length (map gap (filter keep zs)) <= n)%nat).
    { rewrite length_map. unfold zs. simpl filter.
      unfold keep at 1. simpl. rewrite Ceqb_refl. simpl.
      pose proof (filter_length_le keep rest). simpl in Hlen. lia. }
    pose proof (IH (map gap (filter keep zs)) Hshort) as IHz.
    assert (Hdiff : lsum (fun e => ((f (fst e) - f lam0) * snd e p)%C) zs = C0).
    { rewrite <- (Hkeep (fun e => ((f (fst e) - f lam0) * snd e p)%C))
        by (intros e ->; ring).
      rewrite <- (IHz) with (f := fun lam => ((f lam - f lam0) / (lam - lam0))%C)
                            (p := p); [| | | exact Hp].
      - rewrite lsum_map. apply lsum_ext. intros e He.
        apply filter_In in He as (_ & He). unfold keep in He.
        apply negb_true_iff in He.
        assert (Hne : (fst e - lam0)%C <> C0).
        { intros E. assert (E' : Ceqb (fst e) lam0 = true).
          { apply Ceqb_eq. replace (fst e) with ((fst e - lam0) + lam0)%C by ring.
            rewrite E. ring. }
          congruence. }
        unfold gap. cbn [fst snd]. field. exact Hne.
      - intros e He. apply in_map_iff in He as (e0 & <- & He0).
        apply filter_In in He0 as (He0 & _). unfold gap. cbn [fst snd].
        apply eigvec_scale, Heig, He0.
      - intros q Hq. rewrite lsum_map. unfold gap. cbn [fst snd].
        rewrite (Hkeep (fun e => ((fst e - lam0) * snd e q)%C))
          by (intros e ->; ring).
        apply Hgap, Hq. }
    rewrite (lsum_ext _ (fun e => ((f (fst e) - f lam0) * snd e p
                                   + f lam0 * snd e p)%C))
      by (intros; ring).
    rewrite lsum_add, Hdiff, lsum_scale, (Hsum p Hp). ring.
Qed.

Lemma div_mod_index (n i j : nat) :
  (i < n)%nat -> ((j * n + i) mod n = i /\ (j * n + i) / n = j)%nat.
Proof.
  intros Hi. split.
  - symmetry. apply (Nat.mod_unique _ _ j); lia.
  - symmetry. apply (Nat.div_unique _ _ _ i); lia.
Qed.

Lemma index_div_mod (n p : nat) :
  (p < n * n)%nat -> (p mod n < n /\ p / n < n /\ p / n * n + p mod n = p)%nat.
Proof.
  intros Hp. assert (Hn : n <> 0%nat) by lia.
  pose proof (Nat.mod_upper_bound p n Hn).
  pose proof (Nat.div_mod p n Hn).
  assert (p / n < n)%nat by (apply Nat.Div0.div_lt_upper_bound; lia).
  lia.
Qed.

Local Open Scope nat_scope.

(** Two decompositions of one vector, indexed by ranges. *)
Lemma csum_opp (n : nat) (g : nat -> C) :
  csum n (fun k => (- g k)%C) = (- csum n g)%C.
Proof.
  induction n as [| n IH]; simpl; [ring |]. rewrite IH. ring.
Qed.

Lemma spectral_unique (A : nat -> nat -> C) (N n1 n2 : nat)
      (lam : nat -> C) (x : nat -> nat -> C)
      (mu : nat -> C) (y : nat -> nat -> C) :
  (forall k, (k < n1)%nat -> eigvec A N (lam k) (x k)) ->
  (forall m, (m < n2)%nat -> eigvec A N (mu m) (y m)) ->
  (forall p, (p < N)%nat ->
             csum n1 (fun k => x k p) = csum n2 (fun m => y m p)) ->
  forall (f : C -> C) (p : nat), (p < N)%nat ->
    csum n1 (fun k => (f (lam k) * x k p)%C) =
    csum n2 (fun m => (f (mu m) * y m p)%C).
Proof.
  intros Hx Hy Hsum f p Hp.
  set (zs := map (fun k => (lam k, x k)) (seq 0 n1) ++
             map (fun m => (mu m, fun q => (- y m q)%C)) (seq 0 n2)).
  assert (Hz : lsum (fun e => (f (fst e) * snd e p)%C) zs = C0).
  { apply (spectral_zero A N (length zs) zs (le_n _)); [| | exact Hp].
    - intros e He. unfold zs in He. apply in_app_or in He as [He | He];
        apply in_map_iff in He as (k & <- & Hk); apply in_seq in Hk; simpl.
      + apply Hx. lia.
      + intros q Hq.
        rewrite (csum_ext _ _ (fun r => (- C1 * (A q r * y k r))%C))
          by (intros; ring).
        rewrite csum_scale_l, (Hy k) by (try exact Hq; lia). ring.
    - intros q Hq. unfold zs. rewrite lsum_app, !lsum_map_seq. simpl.
      rewrite csum_opp, (Hsum q Hq). ring. }
  unfold zs in Hz. rewrite lsum_app, !lsum_map_seq in Hz. simpl in Hz.
  rewrite (csum_ext n2 (fun k => (f (mu k) * - y k p)%C)
                    (fun k => (- (f (mu k) * y k p))%C)) in Hz
    by (intros; ring).
  rewrite csum_opp in Hz.
  match goal with
  | |- ?a = ?b => replace a with ((a + - b) + b)%C by ring
  end.
  rewrite Hz. ring.
Qed.

Lemma csum_plus (a b : nat) (f : nat -> C) :
  csum (a + b) f = (csum a f + csum b (fun k => f (a + k)%nat))%C.
Proof.
  induction b as [| b IH]; simpl.
  - rewrite Nat.add_0_r. ring.
  - rewrite Nat.add_succ_r. simpl. rewrite IH. ring.
Qed.

(** A sum over the entries of a vectorized matrix is a double sum. *)
Lemma csum_square (n d : nat) (F : nat -> nat -> C) :
  csum (n * d) (fun m => F (m mod d) (m / d)%nat) =
  csum n (fun b => csum d (fun a => F a b)).
Proof.
  induction n as [| n IH]; [reflexivity |].
  rewrite Nat.mul_succ_l, csum_plus, IH. simpl. f_equal.
  apply csum_ext. intros a Ha.
  destruct (div_mod_index d a n Ha) as (-> & ->). reflexivity.
Qed.

(** *** The density matrix of an evolved ket

    [Hm] is a Hermitian matrix of dimension [d] and [Lm] acts on a
    vectorized matrix [M] as [-i (Hm M - M Hm)]. A decomposition of the ket
    [psi0] into eigenvectors of [Hm] and a decomposition of the vectorized
    [psi0 psi0^dagger] into eigenvectors of [Lm] evolve to the same
    state. *)
Section Two_paths.

Variable d : nat.
Variable Hm Lm : nat -> nat -> C.
Variable psi0 : nat -> C.
Variable U : nat -> nat -> C.
Variable c e : nat -> C.
Variable V : nat -> nat -> C.
Variable c' lam : nat -> C.

Hypothesis Hm_hermitian :
  forall i j, (i < d)%nat -> (j < d)%nat -> Hm i j = Cconj (Hm j i).
Hypothesis Lm_action :
  forall (M : nat -> nat -> C) (p : nat), (p < d * d)%nat ->
    csum (d * d) (fun q => (Lm p q * M (q mod d) (q / d)%nat)%C) =
    (- Ci * (csum d (fun k => (Hm (p mod d) k * M k (p / d)%nat)%C)
             - csum d (fun k => (M (p mod d) k * Hm k (p / d)%nat)%C)))%C.
Hypothesis U_eigen :
  forall k i, (k < d)%nat -> (i < d)%nat ->
    csum d (fun j => (Hm i j * U j k)%C) = (e k * U i k)%C.
Hypothesis U_solve :
  forall i, (i < d)%nat -> csum d (fun k => (U i k * c k)%C) = psi0 i.
Hypothesis V_eigen :
  forall k p, (k < d * d)%nat -> (p < d * d)%nat ->
    csum (d * d) (fun q => (Lm p q * V q k)%C) = (lam k * V p k)%C.
Hypothesis V_solve :
  forall p, (p < d * d)%nat ->
    csum (d * d) (fun k => (V p k * c' k)%C) =
    (psi0 (p mod d) * Cconj (psi0 (p / d)%nat))%C.

(** The evolved ket and the evolved vectorized density matrix. *)
Definition evolved_ket (t : R) (i : nat) : C :=
  csum d (fun k => (Cexp (- Ci * e k * RtoC t) * (U i k * c k))%C).

Definition evolved_density (t : R) (p : nat) : C :=
  csum (d * d) (fun k => (Cexp (lam k * RtoC t) * (V p k * c' k))%C).

(** The products of two weighted eigenvectors of [Hm], vectorized: the
    eigenvectors of [Lm] hidden in the unitary decomposition. *)
Definition pair_vector (m p : nat) : C :=
  ((U (p mod d) (m mod d) * c (m mod d)) *
   Cconj (U (p / d)%nat (m / d)%nat * c (m / d)%nat))%C.

Definition pair_rate (m : nat) : C :=
  (- Ci * (e (m mod d) - Cconj (e (m / d)%nat)))%C.

Lemma pair_vector_eigen (m : nat) :
  (m < d * d)%nat -> eigvec Lm (d * d) (pair_rate m) (pair_vector m).
Proof.
  intros Hm' p Hp.
  destruct (index_div_mod d m Hm') as (Ha & Hb & _).
  destruct (index_div_mod d p Hp) as (Hi & Hj & _).
  set (M := fun i j => ((U i (m mod d) * c (m mod d)) *
                        Cconj (U j (m / d)%nat * c (m / d)%nat))%C).
  change (csum (d * d) (fun q => (Lm p q * M (q mod d) (q / d)%nat)%C) =
          (pair_rate m * M (p mod d) (p / d)%nat)%C).
  rewrite (Lm_action M p Hp). unfold M, pair_rate.
  rewrite (csum_ext d (fun k => (Hm (p mod d) k *
                                 (U k (m mod d) * c (m mod d) *
                                  Cconj (U (p / d)%nat (m / d)%nat * c (m / d)%nat)))%C)
                    (fun k => ((Hm (p mod d) k * U k (m mod d)) *
                               (c (m mod d) *
                                Cconj (U (p / d)%nat (m / d)%nat * c (m / d)%nat)))%C))
    by (intros; ring).
  rewrite csum_scale_r, U_eigen by assumption.
  rewrite (csum_ext d (fun k => (U (p mod d) (m mod d) * c (m mod d) *
                                 Cconj (U k (m / d)%nat * c (m / d)%nat) *
                                 Hm k (p / d)%nat)%C)
                    (fun k => ((U (p mod d) (m mod d) * c (m mod d) *
                                Cconj (c (m / d)%nat)) *
                               Cconj (Hm (p / d)%nat k * U k (m / d)%nat))%C)).
  - rewrite csum_scale_l, <- csum_conj, U_eigen by assumption.
    rewrite !Cconj_mul. ring.
  - intros k Hk. rewrite (Hm_hermitian k (p / d)%nat) by assumption.
    rewrite !Cconj_mul. ring.
Qed.

Lemma pair_vector_sum (p : nat) :
  (p < d * d)%nat ->
  csum (d * d) (fun m => pair_vector m p) =
  (psi0 (p mod d) * Cconj (psi0 (p / d)%nat))%C.
Proof.
  intros Hp. destruct (index_div_mod d p Hp) as (Hi & Hj & _).
  unfold pair_vector.
  rewrite (csum_square d d (fun a b => (U (p mod d) a * c a *
                                        Cconj (U (p / d)%nat b * c b))%C)).
  rewrite (csum_ext d _ (fun b => (csum d (fun a => (U (p mod d) a * c a)%C) *
                                   Cconj (U (p / d)%nat b * c b))%C))
    by (intros; apply csum_scale_r).
  rewrite csum_scale_l, <- csum_conj, !U_solve by assumption. reflexivity.
Qed.

Lemma Cexp_pair_rate (t : R) (m : nat) :
  Cexp (pair_rate m * RtoC t) =
  (Cexp (- Ci * e (m mod d) * RtoC t) *
   Cconj (Cexp (- Ci * e (m / d)%nat * RtoC t)))%C.
Proof.
  rewrite Cexp_conj, <- Cexp_add. f_equal. unfold pair_rate.
  generalize (e (m mod d)) (e (m / d)%nat). intros [x y] [x' y'].
  csimpl. apply C_eq; simpl; ring.
Qed.

(** The series of the superoperator path is, at every time, the outer
    product of the series of the operator path with itself. *)
Lemma density_of_evolved_ket (t : R) (p : nat) :
  (p < d * d)%nat ->
  evolved_density t p =
  (evolved_ket t (p mod d) * Cconj (evolved_ket t (p / d)%nat))%C.
Proof.
  intros Hp.
  assert (Hx : forall k, k < d * d ->
                         eigvec Lm (d * d) (lam k) (fun q => (V q k * c' k)%C)).
  { intros k Hk q Hq.
    rewrite (csum_ext _ _ (fun r => ((Lm q r * V r k) * c' k)%C))
      by (intros; ring).
    rewrite csum_scale_r, V_eigen by assumption. ring. }
  assert (Hs : forall q, q < d * d ->
                         csum (d * d) (fun k => (V q k * c' k)%C) =
                         csum (d * d) (fun m => pair_vector m q)).
  { intros q Hq. rewrite V_solve, pair_vector_sum by exact Hq. reflexivity. }
  pose proof (spectral_unique Lm (d * d) (d * d) (d * d) lam
                              (fun k q => (V q k * c' k)%C)
                              pair_rate pair_vector Hx pair_vector_eigen Hs
                              (fun z => Cexp (z * RtoC t)) p Hp) as E.
  cbv beta in E. unfold evolved_density. rewrite E.
  rewrite (csum_ext _ _ (fun m =>
             ((fun a b => (Cexp (- Ci * e a * RtoC t) * (U (p mod d) a * c a) *
                           Cconj (Cexp (- Ci * e b * RtoC t) *
                                  (U (p / d)%nat b * c b)))%C)
                (m mod d) (m / d)%nat))).
  - rewrite (csum_square d d
               (fun a b => (Cexp (- Ci * e a * RtoC t) * (U (p mod d) a * c a) *
                            Cconj (Cexp (- Ci * e b * RtoC t) *
                                   (U (p / d)%nat b * c b)))%C)).
    unfold evolved_ket.
    rewrite (csum_ext d _ (fun b =>
               (csum d (fun a => (Cexp (- Ci * e a * RtoC t) *
                                  (U (p mod d) a * c a))%C) *
                Cconj (Cexp (- Ci * e b * RtoC t) * (U (p / d)%nat b * c b)))%C))
      by (intros; apply csum_scale_r).
    rewrite csum_scale_l, <- csum_conj. reflexivity.
  - intros m _. cbv beta. rewrite Cexp_pair_rate. unfold pair_vector.
    rewrite !Cconj_mul. ring.
Qed.

End Two_paths.

Local Open Scope R_scope.

(** ** Derivatives of complex functions of time *)

(** [f] has the derivative [d] at [t], component by component. *)
Definition Cderiv (f : R -> C) (t : R) (d : C) : Prop :=
  derivable_pt_lim (fun s => Re (f s)) t (Re d) /\
  derivable_pt_lim (fun s => Im (f s)) t (Im d).

Lemma derivable_pt_lim_eq (f g : R -> R) (t l m : R) :
  (forall s, f s = g s) -> l = m ->
  derivable_pt_lim f t l -> derivable_pt_lim g t m.
Proof.
  intros Hfg <- H eps Heps. destruct (H eps Heps) as (delta & Hd).
  exists delta. intros h Hh Hlt. rewrite <- !Hfg. apply Hd; assumption.
Qed.

Lemma Cderiv_ext (f g : R -> C) (t : R) (d : C) :
  (forall s, f s = g s) -> Cderiv f t d -> Cderiv g t d.
Proof.
  intros Hfg (H1 & H2).
  split; [apply (derivable_pt_lim_eq (fun s => Re (f s)) _ t (Re d)) |
          apply (derivable_pt_lim_eq (fun s => Im (f s)) _ t (Im d))];
    try assumption; try reflexivity; intros s; rewrite Hfg; reflexivity.
Qed.

Lemma Cderiv_unique (f : R -> C) (t : R) (d1 d2 : C) :
  Cderiv f t d1 -> Cderiv f t d2 -> d1 = d2.
Proof.
  intros (H1 & H2) (H3 & H4). apply C_eq.
  - exact (uniqueness_limite _ _ _ _ H1 H3).
  - exact (uniqueness_limite _ _ _ _ H2 H4).
Qed.

Lemma Cderiv_const (c : C) (t : R) : Cderiv (fun _ => c) t C0.
Proof. split; simpl; apply derivable_pt_lim_const. Qed.

Lemma Cderiv_add (f g : R -> C) (t : R) (a b : C) :
  Cderiv f t a -> Cderiv g t b -> Cderiv (fun s => (f s + g s)%C) t (a + b)%C.
Proof.
  intros (H1 & H2) (H3 & H4). split; simpl.
  - exact (derivable_pt_lim_plus _ _ _ _ _ H1 H3).
  - exact (derivable_pt_lim_plus _ _ _ _ _ H2 H4).
Qed.

Lemma Cderiv_scale (c : C) (f : R -> C) (t : R) (d : C) :
  Cderiv f t d -> Cderiv (fun s => (c * f s)%C) t (c * d)%C.
Proof.
  intros (H1 & H2). destruct c as [x y]. split; simpl.
  - apply (derivable_pt_lim_eq
             (fun s => x * Re (f s) - y * Im (f s)) _ t
             (x * Re d - y * Im d));
      [reflexivity | reflexivity |].
    apply (derivable_pt_lim_minus (fun s => x * Re (f s))
                                  (fun s => y * Im (f s)));
      apply (derivable_pt_lim_scal _ _ _ _ ); assumption.
  - apply (derivable_pt_lim_eq
             (fun s => x * Im (f s) + y * Re (f s)) _ t
             (x * Im d + y * Re d));
      [reflexivity | reflexivity |].
    apply (derivable_pt_lim_plus (fun s => x * Im (f s))
                                 (fun s => y * Re (f s)));
      apply (derivable_pt_lim_scal _ _ _ _ ); assumption.
Qed.

Lemma Cderiv_csum (n : nat) (g : nat -> R -> C) (d : nat -> C) (t : R) :
  (forall k, (k < n)%nat -> Cderiv (g k) t (d k)) ->
  Cderiv (fun s => csum n (fun k => g k s)) t (csum n d).
Proof.
  induction n as [| n IH]; intros H; simpl.
  - apply Cderiv_const.
  - apply (Cderiv_add (fun s => csum n (fun k => g k s)) (g n)).
    + apply IH. intros k Hk. apply H. lia.
    + apply H. lia.
Qed.

(** The derivative of [exp(r * t)] is [r * exp(r * t)]. *)
Lemma Cderiv_exp (r : C) (t : R) :
  Cderiv (fun s => Cexp (r * RtoC s)) t (r * Cexp (r * RtoC t))%C.
Proof.
  destruct r as [a b].
  assert (Hlin : forall c : R, derivable_pt_lim (fun s => c * s) t c).
  { intros c.
    apply (derivable_pt_lim_eq (fun s => c * id s) _ t (c * 1));
      [reflexivity | ring |].
    apply derivable_pt_lim_scal, derivable_pt_lim_id. }
  assert (He : derivable_pt_lim (fun s => exp (a * s)) t (exp (a * t) * a)).
  { exact (derivable_pt_lim_comp (fun s => a * s) exp t a (exp (a * t))
             (Hlin a) (derivable_pt_lim_exp (a * t))). }
  assert (Hc : derivable_pt_lim (fun s => cos (b * s)) t (- sin (b * t) * b)).
  { exact (derivable_pt_lim_comp (fun s => b * s) cos t b (- sin (b * t))
             (Hlin b) (derivable_pt_lim_cos (b * t))). }
  assert (Hs : derivable_pt_lim (fun s => sin (b * s)) t (cos (b * t) * b)).
  { exact (derivable_pt_lim_comp (fun s => b * s) sin t b (cos (b * t))
             (Hlin b) (derivable_pt_lim_sin (b * t))). }
  split; unfold Cexp, RtoC, Cmul, Re, Im; simpl.
  - apply (derivable_pt_lim_eq
             (fun s => exp (a * s) * cos (b * s)) _ t
             (exp (a * t) * a * cos (b * t) +
              exp (a * t) * (- sin (b * t) * b))).
    + intros s. f_equal; f_equal; ring.
    + replace (a * t - b * 0) with (a * t) by ring.
      replace (a * 0 + b * t) with (b * t) by ring. ring.
    + exact (derivable_pt_lim_mult _ _ _ _ _ He Hc).
  - apply (derivable_pt_lim_eq
             (fun s => exp (a * s) * sin (b * s)) _ t
             (exp (a * t) * a * sin (b * t) +
              exp (a * t) * (cos (b * t) * b))).
    + intros s. f_equal; f_equal; ring.
    + replace (a * t - b * 0) with (a * t) by ring.
      replace (a * 0 + b * t) with (b * t) by ring. ring.
    + exact (derivable_pt_lim_mult _ _ _ _ _ He Hs).
Qed.

(** Sums may be exchanged. *)
Lemma csum_swap (n m : nat) (F : nat -> nat -> C) :
  csum n (fun i => csum m (fun j => F i j)) =
  csum m (fun j => csum n (fun i => F i j)).
Proof.
  induction n as [| n IH]; simpl.
  - symmetry. apply csum_zero. reflexivity.
  - rewrite IH. symmetry. apply (csum_add m (fun j => csum n (fun i => F i j)) (F n)).
Qed.

(** ** Conserved quantities of a spectral decomposition *)

(** A term that its rate annihilates does not move. *)
Lemma Cexp_annihilated (mu x : C) (t : R) :
  (mu * x)%C = C0 -> (Cexp (mu * RtoC t) * x)%C = x.
Proof.
  intros H. destruct (Cmul_integral _ _ H) as [-> | ->].
  - replace (C0 * RtoC t)%C with C0 by ring. rewrite Cexp_0. ring.
  - ring.
Qed.

Lemma Cexp_rate_pair (x y : C) (t : R) :
  (Cconj (Cexp (- Ci * y * RtoC t)) * Cexp (- Ci * x * RtoC t))%C =
  Cexp (- Ci * (x - Cconj y) * RtoC t).
Proof.
  rewrite Cexp_conj, <- Cexp_add. f_equal.
  destruct x as [a b], y as [a' b']. csimpl. apply C_eq; simpl; ring.
Qed.

Local Open Scope nat_scope.

(** *** The norm of an evolved ket

    [Hm] is a Hermitian matrix of dimension [d]; the columns of [U] are
    eigenvectors of [Hm], weighted by [c]. *)
Section Norm.

Variable d : nat.
Variable Hm : nat -> nat -> C.
Variable U : nat -> nat -> C.
Variable c e : nat -> C.

Hypothesis Hm_hermitian :
  forall i j, i < d -> j < d -> Hm i j = Cconj (Hm j i).
Hypothesis U_eigen :
  forall k i, k < d -> i < d ->
    csum d (fun j => (Hm i j * U j k)%C) = (e k * U i k)%C.

(** The overlap of two eigenvectors. *)
Definition gram (a b : nat) : C :=
  csum d (fun i => (Cconj (U i b) * U i a)%C).

(** Eigenvectors of a Hermitian matrix overlap only when their
    eigenvalues are conjugate to each other. *)
Lemma gram_rate (a b : nat) :
  a < d -> b < d -> ((e a - Cconj (e b)) * gram a b)%C = C0.
Proof.
  intros Ha Hb.
  assert (E1 : (e a * gram a b)%C =
               csum d (fun i => csum d (fun j =>
                 (Cconj (U i b) * Hm i j * U j a)%C))).
  { unfold gram. rewrite <- csum_scale_l. apply csum_ext. intros i Hi.
    transitivity (Cconj (U i b) * (e a * U i a))%C; [ring |].
    rewrite <- U_eigen by assumption. rewrite <- csum_scale_l.
    apply csum_ext; intros; ring. }
  assert (E2 : (Cconj (e b) * gram a b)%C =
               csum d (fun i => csum d (fun j =>
                 (Cconj (U i b) * Hm i j * U j a)%C))).
  { rewrite csum_swap. unfold gram. rewrite <- csum_scale_l.
    apply csum_ext. intros j Hj.
    transitivity (Cconj (e b * U j b) * U j a)%C;
      [rewrite Cconj_mul; ring |].
    rewrite <- U_eigen by assumption.
    rewrite csum_conj, <- csum_scale_r. apply csum_ext. intros i Hi.
    rewrite Cconj_mul, (Hm_hermitian i j) by assumption. ring. }
  replace ((e a - Cconj (e b)) * gram a b)%C
    with (e a * gram a b - Cconj (e b) * gram a b)%C by ring.
  rewrite E1, E2. ring.
Qed.

Lemma norm_expand (E : nat -> C) :
  csum d (fun i => (Cconj (csum d (fun b => (E b * (U i b * c b))%C)) *
                    csum d (fun a => (E a * (U i a * c a))%C))%C) =
  csum d (fun a => csum d (fun b =>
    ((Cconj (E b) * E a) * (Cconj (c b) * c a * gram a b))%C)).
Proof.
  transitivity
    (csum d (fun i => csum d (fun a => csum d (fun b =>
       (Cconj (E b * (U i b * c b)) * (E a * (U i a * c a)))%C)))).
  { apply csum_ext; intros i _. rewrite <- csum_scale_l.
    apply csum_ext; intros a _. rewrite csum_conj, <- csum_scale_r.
    reflexivity. }
  rewrite csum_swap. apply csum_ext; intros a _.
  rewrite csum_swap. apply csum_ext; intros b _.
  transitivity
    (csum d (fun i => ((Cconj (E b) * E a) * (Cconj (c b) * c a) *
                       (Cconj (U i b) * U i a))%C)).
  - apply csum_ext; intros i _. rewrite !Cconj_mul. ring.
  - rewrite csum_scale_l. unfold gram. ring.
Qed.

(** The squared norm of the evolved ket is that of the ket at time 0. *)
Lemma evolved_norm (t : R) :
  csum d (fun i => (Cconj (evolved_ket d U c e t i) *
                    evolved_ket d U c e t i)%C) =
  csum d (fun i => (Cconj (csum d (fun k => (U i k * c k)%C)) *
                    csum d (fun k => (U i k * c k)%C))%C).
Proof.
  unfold evolved_ket.
  rewrite (norm_expand (fun k => Cexp (- Ci * e k * RtoC t))).
  rewrite (csum_ext d
             (fun i => (Cconj (csum d (fun k => (U i k * c k)%C)) *
                        csum d (fun k => (U i k * c k)%C))%C)
             (fun i => (Cconj (csum d (fun b => (C1 * (U i b * c b))%C)) *
                        csum d (fun a => (C1 * (U i a * c a))%C))%C)).
  2: { intros i _. f_equal; [f_equal |]; apply csum_ext; intros; ring. }
  rewrite (norm_expand (fun _ => C1)).
  apply csum_ext; intros a Ha. apply csum_ext; intros b Hb.
  rewrite Cexp_rate_pair, Cexp_annihilated.
  - cring.
  - replace (- Ci * (e a - Cconj (e b)) *
             (Cconj (c b) * c a * gram a b))%C
      with (- Ci * Cconj (c b) * c a *
            ((e a - Cconj (e b)) * gram a b))%C by ring.
    rewrite gram_rate by assumption. ring.
Qed.

End Norm.

(** *** The trace of an evolved density matrix

    [Lm] acts on a vectorized matrix [M] of dimension [d] as
    [-i (Hm M - M Hm)]; the columns of [V] are eigenvectors of [Lm],
    weighted by [c']. *)
Section Trace.

Variable d : nat.
Variable Hm Lm : nat -> nat -> C.
Variable V : nat -> nat -> C.
Variable c' lam : nat -> C.

Hypothesis Lm_action :
  forall (M : nat -> nat -> C) (p : nat), p < d * d ->
    csum (d * d) (fun q => (Lm p q * M (q mod d) (q / d)%nat)%C) =
    (- Ci * (csum d (fun k => (Hm (p mod d) k * M k (p / d)%nat)%C)
             - csum d (fun k => (M (p mod d) k * Hm k (p / d)%nat)%C)))%C.
Hypothesis V_eigen :
  forall k p, k < d * d -> p < d * d ->
    csum (d * d) (fun q => (Lm p q * V q k)%C) = (lam k * V p k)%C.

(** The trace of the matrix that column [k] of [V] vectorizes. *)
Definition column_trace (k : nat) : C :=
  csum d (fun i => V (i * d + i) k).

(** An eigenvector of a commutator with a trace has the eigenvalue 0. *)
Lemma trace_rate (k : nat) :
  k < d * d -> (lam k * column_trace k)%C = C0.
Proof.
  intros Hk. unfold column_trace. rewrite <- csum_scale_l.
  set (M := fun a b => V (b * d + a) k).
  rewrite (csum_ext d _
             (fun i => (- Ci * (csum d (fun j => (Hm i j * M j i)%C)
                                - csum d (fun j => (M i j * Hm j i)%C)))%C)).
  - rewrite csum_scale_l.
    assert (E : csum d (fun i => (csum d (fun j => (Hm i j * M j i)%C)
                                  - csum d (fun j => (M i j * Hm j i)%C))%C) = C0).
    { transitivity (csum d (fun i => csum d (fun j => (Hm i j * M j i)%C)) +
                    csum d (fun i => (- C1 * csum d (fun j => (M i j * Hm j i)%C))%C))%C.
      { rewrite <- csum_add. apply csum_ext; intros; ring. }
      rewrite csum_scale_l.
      rewrite (csum_swap d d (fun i j => (M i j * Hm j i)%C)).
      rewrite (csum_ext d (fun j => csum d (fun i => (M i j * Hm j i)%C))
                        (fun j => csum d (fun i => (Hm j i * M i j)%C)))
        by (intros; apply csum_ext; intros; ring).
      ring. }
    rewrite E. ring.
  - intros i Hi.
    assert (Hp : i * d + i < d * d) by nia.
    destruct (div_mod_index d i i Hi) as (Em & Ed).
    rewrite <- (V_eigen k (i * d + i) Hk Hp).
    rewrite (csum_ext (d * d) (fun q => (Lm (i * d + i) q * V q k)%C)
               (fun q => (Lm (i * d + i) q * M (q mod d) (q / d)%nat)%C)).
    + rewrite (Lm_action M _ Hp), Em, Ed. reflexivity.
    + intros q Hq. destruct (index_div_mod d q Hq) as (_ & _ & Eq).
      unfold M. rewrite Eq. reflexivity.
Qed.

(** The trace of the evolved density matrix is that of the matrix at
    time 0. *)
Lemma evolved_trace (t : R) :
  csum d (fun i => evolved_density d V c' lam t (i * d + i)) =
  csum d (fun i => csum (d * d) (fun k => (V (i * d + i) k * c' k)%C)).
Proof.
  unfold evolved_density. rewrite !(csum_swap d (d * d)).
  apply csum_ext. intros k Hk.
  rewrite (csum_ext d _ (fun i => (Cexp (lam k * RtoC t) * c' k *
                                   V (i * d + i) k)%C))
    by (intros; ring).
  rewrite (csum_ext d (fun i => (V (i * d + i) k * c' k)%C)
                    (fun i => (c' k * V (i * d + i) k)%C))
    by (intros; ring).
  rewrite !csum_scale_l. fold (column_trace k).
  rewrite <- Cmul_assoc. apply Cexp_annihilated.
  replace (lam k * (c' k * column_trace k))%C
    with (c' k * (lam k * column_trace k))%C by ring.
  rewrite trace_rate by exact Hk. ring.
Qed.

End Trace.

Local Open Scope R_scope.

(** ** The solver *)

Section Solver.

Set Default Proof Using "Type".

(** The category tests of qutip ([isket], [isoper], [issuper]) inspect the
    declared dimensions of an object; [isherm] is the Hermiticity flag. *)
Variable ket_dims oper_dims super_dims : dimspec * dimspec -> bool.
Variable isherm : Qobj -> bool.

(** [L.eigenstates()]: the eigenvalues and the eigenvectors, as kets. *)
Variable eigenstates : Qobj -> result (list C * list Qobj).
(** [la.solve(a, b)] of scipy. *)
Variable solve : ndarray -> ndarray -> result ndarray.
(** [liouvillian(H, c_op_list)] of qutip.superoperator. *)
Variable liouvillian : Qobj -> option (list Qobj) -> result Qobj.
(** [estidy(es)] of qutip.eseries, called on whatever [out] holds. *)
Variable estidy : option eseries -> result eseries.
(** The object built by [Qobj()]. *)
Variable Qobj_default : Qobj.

Definition isket (q : Qobj) : bool := ket_dims (dims q).
Definition isoper (q : Qobj) : bool := oper_dims (dims q).
Definition issuper (q : Qobj) : bool := super_dims (dims q).

(** [esval(es, tlist)] *)
Definition esval (es : eseries) (tlist : list R) : list Qobj :=
  map (esval1 Qobj_default es) tlist.

(** Modelled from the spec: the expectation-value primitive ([expect] of
    qutip.expect) is missing from the sources; it is
    [<state| observable |state>] for a ket state and
    [Tr(observable * state)] for a density matrix. *)
Definition expect1 (oper state : Qobj) : C :=
  if isket state then
    item (matmul (ctranspose (data state)) (matmul (data oper) (data state))) 0 0
  else
    let p := matmul (data oper) (data state) in
    csum (nrows p) (fun i => item p i i).

Definition expect (oper : Qobj) (states : list Qobj) : list C :=
  map (expect1 oper) states.

(** Loop body of the superoperator branch (lines 140-144). *)
Definition super_body (vv : ndarray) (w : list C) (rho0 : Qobj)
           (i : nat) (out : option eseries) : result (option eseries) :=
  x <- column vv i ;;
  m <- vec2mat x ;;
  let qo := mkQobj m (dims rho0) (shape rho0) in
  wi <- getitem w i ;;
  Ok (accumulate out (eseries_new qo wi)).

(** Loop body of the operator branch (lines 164-168). *)
Definition oper_body (vv : ndarray) (w : list C) (rho0 : Qobj)
           (i : nat) (out : option eseries) : result (option eseries) :=
  x <- column vv i ;;
  let qo := mkQobj (as_column x) (dims rho0) (shape rho0) in
  wi <- getitem w i ;;
  Ok (accumulate out (eseries_new qo (- Ci * wi)%C)).

(** The superoperator branch after the check of the initial state
    (lines 128-144), on the density matrix [rho0]. *)
Definition ode2es_super (L rho0 : Qobj) : result (option eseries) :=
  wv <- eigenstates L ;;
  let w := fst wv in
  v <- hstack (map full (snd wv)) ;;
  let rlen := prod_shape rho0 in
  let r0 := mat2vec (full rho0) in
  v0 <- solve v r0 ;;
  d <- spdiags (transpose v0) rlen rlen ;;
  vv <- matmul_checked v d ;;
  for_each (super_body vv w rho0) (seq 0 rlen) None.

(** The operator branch after the check of the initial state
    (lines 152-168). *)
Definition ode2es_oper (L rho0 : Qobj) : result (option eseries) :=
  wv <- eigenstates L ;;
  let w := fst wv in
  v <- hstack (map full (snd wv)) ;;
  let rlen := prod_shape rho0 in
  let r0 := full rho0 in
  v0 <- solve v r0 ;;
  d <- spdiags (transpose v0) rlen rlen ;;
  vv <- matmul_checked v d ;;
  for_each (oper_body vv w rho0) (seq 0 rlen) None.

Definition StateTypeMismatchError : exn :=
  TypeError "Second argument must be a ket if firstis a Hamiltonian.".
Definition InvalidGeneratorError : exn :=
  TypeError "First argument must be a Hamiltonian or Liouvillian.".

(** The value of [out] when [ode2es] reaches its last line. *)
Definition ode2es_build (L rho0 : Qobj) : result (option eseries) :=
  if issuper L then
    let rho0 := if isket rho0 then Qobj_outer rho0 else rho0 in
    ode2es_super L rho0
  else if isoper L then
    if negb (isket rho0) then Raise StateTypeMismatchError
    else ode2es_oper L rho0
  else Raise InvalidGeneratorError.

Definition ode2es (L rho0 : Qobj) : result eseries :=
  out <- ode2es_build L rho0 ;;
  estidy out.

(** The condition of line 73: no collapse operators and a ket. *)
Definition no_collapse (c_op_list : option (list Qobj)) : bool :=
  match c_op_list with
  | None => true
  | Some l => (length l =? 0)%nat
  end.

(** The generator [L] of lines 73-76. *)
Definition generator (H rho0 : Qobj) (c_op_list : option (list Qobj)) : result Qobj :=
  if no_collapse c_op_list && isket rho0 then Ok H
  else liouvillian H c_op_list.

(** The loop of lines 86-87. *)
Definition expect_body (es : eseries) (tlist : list R)
           (ne : nat * Qobj) (result_list : result_buffer) : result result_buffer :=
  set_row result_list (fst ne) (expect (snd ne) (esval es tlist)).

(** One element of the comprehension of lines 92-93. *)
Definition stored_seq (result_list : result_buffer) (ne : nat * Qobj) : result expect_seq :=
  row <- get_row result_list (fst ne) ;;
  Ok (if isherm (snd ne) then RealSeq (map Re row) else ComplexSeq row).

(** The evaluation of the expectation values and the packaging of the
    result (lines 80-95), once the series [es] is known. *)
Definition evaluate (es : eseries) (tlist : list R) (e_ops : list Qobj) : result Odedata :=
  let n_expt_op := length e_ops in
  let n_tsteps := length tlist in
  let result_list :=
    if (n_expt_op =? 0)%nat then Placeholders (repeat Qobj_default n_tsteps)
    else zeros n_expt_op n_tsteps in
  result_list <- for_each (expect_body es tlist) (enumerate e_ops) result_list ;;
  ex <- map_result (stored_seq result_list) (enumerate e_ops) ;;
  Ok (mkOdedata "essolve" tlist ex).

Definition essolve (H rho0 : Qobj) (tlist : list R)
           (c_op_list : option (list Qobj)) (e_ops : list Qobj) : result Odedata :=
  L <- generator H rho0 c_op_list ;;
  es <- ode2es L rho0 ;;
  evaluate es tlist e_ops.

(** ** Facts about the loops *)

(** The state the solver works on: the promoted density matrix in the
    superoperator branch when a ket was given, the given state
    otherwise. *)
Definition working_state (L rho0 : Qobj) : Qobj :=
  if issuper L && isket rho0 then Qobj_outer rho0 else rho0.

(** The term the [i]-th round of each loop adds. *)
Definition super_term (vv : ndarray) (w : list C) (rho0 : Qobj) (i : nat)
  : result (Qobj * C) :=
  x <- column vv i ;;
  m <- vec2mat x ;;
  wi <- getitem w i ;;
  Ok (mkQobj m (dims rho0) (shape rho0), wi).

Definition oper_term (vv : ndarray) (w : list C) (rho0 : Qobj) (i : nat)
  : result (Qobj * C) :=
  x <- column vv i ;;
  wi <- getitem w i ;;
  Ok (mkQobj (as_column x) (dims rho0) (shape rho0), (- Ci * wi)%C).

Lemma super_body_term vv w rho0 i out :
  super_body vv w rho0 i out =
  (t <- super_term vv w rho0 i ;; Ok (accumulate out [t])).
Proof.
  unfold super_body, super_term.
  destruct (column vv i) as [x |]; simpl; [| reflexivity].
  destruct (vec2mat x) as [m |]; simpl; [| reflexivity].
  destruct (getitem w i); reflexivity.
Qed.

Lemma oper_body_term vv w rho0 i out :
  oper_body vv w rho0 i out =
  (t <- oper_term vv w rho0 i ;; Ok (accumulate out [t])).
Proof.
  unfold oper_body, oper_term.
  destruct (column vv i) as [x |]; simpl; [| reflexivity].
  destruct (getitem w i); reflexivity.
Qed.

(** What a successful run of either branch has computed on the way. *)
Lemma ode2es_super_inv (L rho0 : Qobj) (out : option eseries) :
  ode2es_super L rho0 = Ok out ->
  exists w vs v v0 d vv ts,
    eigenstates L = Ok (w, vs) /\
    hstack (map full vs) = Ok v /\
    solve v (mat2vec (full rho0)) = Ok v0 /\
    spdiags (transpose v0) (prod_shape rho0) (prod_shape rho0) = Ok d /\
    matmul_checked v d = Ok vv /\
    map_result (super_term vv w rho0) (seq 0 (prod_shape rho0)) = Ok ts /\
    series_of out = ts /\ (out = None <-> ts = []).
Proof.
  unfold ode2es_super; intros H.
  apply bind_Ok_inv in H as ([w vs] & Hwv & H); simpl in H.
  apply bind_Ok_inv in H as (v & Hv & H).
  apply bind_Ok_inv in H as (v0 & Hv0 & H).
  apply bind_Ok_inv in H as (d & Hd & H).
  apply bind_Ok_inv in H as (vv & Hvv & H).
  rewrite (for_each_ext _ _ _ _ (super_body_term vv w rho0)) in H.
  apply for_each_accumulate in H as (ts & Hts & Hs & Hn).
  exists w, vs, v, v0, d, vv, ts. simpl in Hs.
  repeat (split; [assumption |]).
  split; intros E.
  - apply Hn in E as [_ E]. exact E.
  - apply Hn. split; [reflexivity | exact E].
Qed.

Lemma ode2es_oper_inv (L rho0 : Qobj) (out : option eseries) :
  ode2es_oper L rho0 = Ok out ->
  exists w vs v v0 d vv ts,
    eigenstates L = Ok (w, vs) /\
    hstack (map full vs) = Ok v /\
    solve v (full rho0) = Ok v0 /\
    spdiags (transpose v0) (prod_shape rho0) (prod_shape rho0) = Ok d /\
    matmul_checked v d = Ok vv /\
    map_result (oper_term vv w rho0) (seq 0 (prod_shape rho0)) = Ok ts /\
    series_of out = ts /\ (out = None <-> ts = []).
Proof.
  unfold ode2es_oper; intros H.
  apply bind_Ok_inv in H as ([w vs] & Hwv & H); simpl in H.
  apply bind_Ok_inv in H as (v & Hv & H).
  apply bind_Ok_inv in H as (v0 & Hv0 & H).
  apply bind_Ok_inv in H as (d & Hd & H).
  apply bind_Ok_inv in H as (vv & Hvv & H).
  rewrite (for_each_ext _ _ _ _ (oper_body_term vv w rho0)) in H.
  apply for_each_accumulate in H as (ts & Hts & Hs & Hn).
  exists w, vs, v, v0, d, vv, ts. simpl in Hs.
  repeat (split; [assumption |]).
  split; intros E.
  - apply Hn in E as [_ E]. exact E.
  - apply Hn. split; [reflexivity | exact E].
Qed.

(** The branch a successful build went through. *)
Lemma ode2es_build_inv (L rho0 : Qobj) (out : option eseries) :
  ode2es_build L rho0 = Ok out ->
  (issuper L = true /\ ode2es_super L (working_state L rho0) = Ok out) \/
  (issuper L = false /\ isoper L = true /\ isket rho0 = true /\
   working_state L rho0 = rho0 /\ ode2es_oper L rho0 = Ok out).
Proof.
  unfold ode2es_build, working_state.
  destruct (issuper L); simpl.
  - intros H; left; split; [reflexivity | exact H].
  - destruct (isoper L); [| discriminate].
    destruct (isket rho0); simpl; [| discriminate].
    intros H; right; repeat split; exact H.
Qed.

Lemma ode2es_inv (L rho0 : Qobj) (es : eseries) :
  ode2es L rho0 = Ok es ->
  exists out, ode2es_build L rho0 = Ok out /\ estidy out = Ok es.
Proof. unfold ode2es; intros H; apply bind_Ok_inv in H; exact H. Qed.

Lemma seq_nth_error (a n i : nat) :
  (i < n)%nat -> nth_error (seq a n) i = Some (a + i)%nat.
Proof.
  revert a i; induction n as [| n IH]; intros a i Hi; [lia |].
  destruct i as [| i]; simpl; [f_equal; lia |].
  rewrite IH by lia. f_equal; lia.
Qed.

Lemma getitem_Ok (w : list C) (i : nat) (x : C) :
  getitem w i = Ok x <-> nth_error w i = Some x.
Proof.
  unfold getitem; destruct (nth_error w i); split; intros H;
    inversion H; reflexivity.
Qed.

Lemma super_term_inv vv w rho0 i qo rate :
  super_term vv w rho0 i = Ok (qo, rate) ->
  nth_error w i = Some rate /\ dims qo = dims rho0 /\ shape qo = shape rho0 /\
  exists x, column vv i = Ok x /\ vec2mat x = Ok (data qo).
Proof.
  unfold super_term; intros H.
  apply bind_Ok_inv in H as (x & Hx & H).
  apply bind_Ok_inv in H as (m & Hm & H).
  apply bind_Ok_inv in H as (wi & Hwi & H).
  inversion H; subst; simpl. apply getitem_Ok in Hwi. eauto 6.
Qed.

Lemma oper_term_inv vv w rho0 i qo rate :
  oper_term vv w rho0 i = Ok (qo, rate) ->
  (exists wi, nth_error w i = Some wi /\ rate = (- Ci * wi)%C) /\
  dims qo = dims rho0 /\ shape qo = shape rho0 /\
  exists x, column vv i = Ok x /\ data qo = as_column x.
Proof.
  unfold oper_term; intros H.
  apply bind_Ok_inv in H as (x & Hx & H).
  apply bind_Ok_inv in H as (wi & Hwi & H).
  inversion H; subst; simpl. apply getitem_Ok in Hwi. eauto 8.
Qed.

Lemma map_result_seq_nth {B : Type} (f : nat -> result B) (n i : nat) (ts : list B) (t : B) :
  map_result f (seq 0 n) = Ok ts -> nth_error ts i = Some t ->
  (i < n)%nat /\ f i = Ok t.
Proof.
  intros H Ht.
  destruct (map_result_nth _ _ _ H _ _ Ht) as (x & Hx & Hf).
  assert (Hi : (i < n)%nat).
  { apply map_result_length in H. rewrite length_seq in H.
    rewrite <- H. apply nth_error_Some. congruence. }
  rewrite seq_nth_error in Hx by exact Hi. inversion Hx; subst. auto.
Qed.

(** *** Claims about [ode2es] *)

(** C1: in a successful run the series handed to the tidy step has a term
    for every index [i] below [rlen], and the rate of the i-th term is the
    eigenvalue [w[i]] itself when the generator is a superoperator, and
    [-1j * w[i]] when it is an operator (then the initial state is a ket). *)
Theorem ode2es_rate_convention (L rho0 : Qobj) (es : eseries) :
  ode2es L rho0 = Ok es ->
  exists out w vs,
    ode2es_build L rho0 = Ok out /\ estidy out = Ok es /\
    eigenstates L = Ok (w, vs) /\
    length (series_of out) = prod_shape (working_state L rho0) /\
    (forall i, (i < prod_shape (working_state L rho0))%nat ->
       exists qo rate wi,
         nth_error (series_of out) i = Some (qo, rate) /\
         nth_error w i = Some wi /\
         if issuper L then rate = wi
         else isoper L = true /\ isket rho0 = true /\
              rate = (- Ci * wi)%C) /\
    forall i qo rate, nth_error (series_of out) i = Some (qo, rate) ->
      if issuper L then nth_error w i = Some rate
      else isoper L = true /\ isket rho0 = true /\
           exists wi, nth_error w i = Some wi /\ rate = (- Ci * wi)%C.
Proof.
  intros H. apply ode2es_inv in H as (out & Hb & Ht).
  destruct (ode2es_build_inv _ _ _ Hb) as [(Hs & Hr) | (Hs & Ho & Hk & Hw & Hr)].
  - apply ode2es_super_inv in Hr
      as (w & vs & v & v0 & d & vv & ts & He & _ & _ & _ & _ & Hts & Hso & _).
    pose proof (map_result_length _ _ _ Hts) as Hlen. rewrite length_seq in Hlen.
    exists out, w, vs. rewrite Hso, Hs.
    split; [exact Hb |]. split; [exact Ht |]. split; [exact He |].
    split; [exact Hlen |]. split.
    + intros i Hi. destruct (nth_error ts i) as [[qo rate] |] eqn:Hn.
      * destruct (map_result_seq_nth _ _ _ _ _ Hts Hn) as (_ & Hterm).
        apply super_term_inv in Hterm as (Hwi & _).
        exists qo, rate, rate. auto.
      * apply nth_error_None in Hn. lia.
    + intros i qo rate Hn.
      destruct (map_result_seq_nth _ _ _ _ _ Hts Hn) as (_ & Hterm).
      apply super_term_inv in Hterm as (Hwi & _). exact Hwi.
  - rewrite Hw.
    apply ode2es_oper_inv in Hr
      as (w & vs & v & v0 & d & vv & ts & He & _ & _ & _ & _ & Hts & Hso & _).
    pose proof (map_result_length _ _ _ Hts) as Hlen. rewrite length_seq in Hlen.
    exists out, w, vs. rewrite Hso, Hs.
    split; [exact Hb |]. split; [exact Ht |]. split; [exact He |].
    split; [exact Hlen |]. split.
    + intros i Hi. destruct (nth_error ts i) as [[qo rate] |] eqn:Hn.
      * destruct (map_result_seq_nth _ _ _ _ _ Hts Hn) as (_ & Hterm).
        apply oper_term_inv in Hterm as ((wi & Hwi & Hrate) & _).
        exists qo, rate, wi. auto.
      * apply nth_error_None in Hn. lia.
    + intros i qo rate Hn.
      destruct (map_result_seq_nth _ _ _ _ _ Hts Hn) as (_ & Hterm).
      apply oper_term_inv in Hterm as (Hwi & _). auto.
Qed.

(** C3: an operator generator with an initial state that is not a ket is
    refused with the state-type error, a generator that is neither an
    operator nor a superoperator with the invalid-generator error, and no
    series is returned in either case. *)
Theorem ode2es_rejects (L rho0 : Qobj) :
  (issuper L = false -> isoper L = true -> isket rho0 = false ->
   ode2es L rho0 = Raise StateTypeMismatchError /\
   forall es, ode2es L rho0 <> Ok es) /\
  (issuper L = false -> isoper L = false ->
   ode2es L rho0 = Raise InvalidGeneratorError /\
   forall es, ode2es L rho0 <> Ok es).
Proof.
  unfold ode2es, ode2es_build; split.
  - intros -> -> ->; simpl. split; [reflexivity | discriminate].
  - intros -> ->; simpl. split; [reflexivity | discriminate].
Qed.

(** C9: with a superoperator generator and a ket initial state, the run is
    the run of the superoperator branch on the outer product of the ket
    with its conjugate transpose: the length, the vectorized right-hand
    side and the metadata of the terms are those of the promoted matrix. *)
Theorem ode2es_promotes_ket (L psi : Qobj) :
  issuper L = true -> isket psi = true ->
  ode2es L psi = (out <- ode2es_super L (Qobj_outer psi) ;; estidy out) /\
  data (Qobj_outer psi) = matmul (data psi) (ctranspose (data psi)) /\
  forall out, ode2es_super L (Qobj_outer psi) = Ok out ->
    exists w vs v v0,
      eigenstates L = Ok (w, vs) /\ hstack (map full vs) = Ok v /\
      solve v (mat2vec (data (Qobj_outer psi))) = Ok v0 /\
      length (series_of out) = prod_shape (Qobj_outer psi) /\
      forall qo rate, In (qo, rate) (series_of out) ->
        dims qo = dims (Qobj_outer psi) /\ shape qo = shape (Qobj_outer psi).
Proof.
  intros Hs Hk. split; [| split; [reflexivity |]].
  - unfold ode2es, ode2es_build. rewrite Hs, Hk. reflexivity.
  - intros out Hr.
    apply ode2es_super_inv in Hr
      as (w & vs & v & v0 & d & vv & ts & He & Hv & Hv0 & _ & _ & Hts & Hso & _).
    exists w, vs, v, v0. repeat split; try assumption.
    + rewrite Hso. apply map_result_length in Hts.
      rewrite length_seq in Hts. exact Hts.
    + rewrite Hso in H. apply In_nth_error in H as (i & Hi).
      destruct (map_result_seq_nth _ _ _ _ _ Hts Hi) as (_ & Hterm).
      apply super_term_inv in Hterm as (_ & Hdm & Hsh & _); assumption.
    + rewrite Hso in H. apply In_nth_error in H as (i & Hi).
      destruct (map_result_seq_nth _ _ _ _ _ Hts Hi) as (_ & Hterm).
      apply super_term_inv in Hterm as (_ & Hdm & Hsh & _); assumption.
Qed.

(** C10: in a successful run the series handed to the tidy step has
    exactly [rlen] terms, [rlen] the product of the shape of the working
    state, the i-th term paired with the i-th eigenvalue, and every
    coefficient carries the dims and the shape of the working state. *)
Theorem ode2es_series_shape (L rho0 : Qobj) (es : eseries) :
  ode2es L rho0 = Ok es ->
  exists out w vs,
    ode2es_build L rho0 = Ok out /\ estidy out = Ok es /\
    eigenstates L = Ok (w, vs) /\
    length (series_of out) = prod_shape (working_state L rho0) /\
    (forall i, (i < prod_shape (working_state L rho0))%nat ->
       exists qo rate wi, nth_error (series_of out) i = Some (qo, rate) /\
                          nth_error w i = Some wi) /\
    forall qo rate, In (qo, rate) (series_of out) ->
      dims qo = dims (working_state L rho0) /\
      shape qo = shape (working_state L rho0).
Proof.
  intros H. apply ode2es_inv in H as (out & Hb & Ht).
  destruct (ode2es_build_inv _ _ _ Hb) as [(Hs & Hr) | (Hs & Ho & Hk & Hw & Hr)].
  - apply ode2es_super_inv in Hr
      as (w & vs & v & v0 & d & vv & ts & He & _ & _ & _ & _ & Hts & Hso & _).
    pose proof (map_result_length _ _ _ Hts) as Hlen. rewrite length_seq in Hlen.
    exists out, w, vs. rewrite Hso. repeat split; try assumption.
    + intros i Hi. destruct (nth_error ts i) as [[qo rate] |] eqn:Hn.
      * destruct (map_result_seq_nth _ _ _ _ _ Hts Hn) as (_ & Hterm).
        apply super_term_inv in Hterm as (Hw & _). exists qo, rate, rate. auto.
      * apply nth_error_None in Hn. lia.
    + apply In_nth_error in H as (i & Hi).
      destruct (map_result_seq_nth _ _ _ _ _ Hts Hi) as (_ & Hterm).
      apply super_term_inv in Hterm as (_ & Hdm & Hsh & _); assumption.
    + apply In_nth_error in H as (i & Hi).
      destruct (map_result_seq_nth _ _ _ _ _ Hts Hi) as (_ & Hterm).
      apply super_term_inv in Hterm as (_ & Hdm & Hsh & _); assumption.
  - rewrite Hw.
    apply ode2es_oper_inv in Hr
      as (w & vs & v & v0 & d & vv & ts & He & _ & _ & _ & _ & Hts & Hso & _).
    pose proof (map_result_length _ _ _ Hts) as Hlen. rewrite length_seq in Hlen.
    exists out, w, vs. rewrite Hso. repeat split; try assumption.
    + intros i Hi. destruct (nth_error ts i) as [[qo rate] |] eqn:Hn.
      * destruct (map_result_seq_nth _ _ _ _ _ Hts Hn) as (_ & Hterm).
        apply oper_term_inv in Hterm as ((wi & Hwi & _) & _).
        exists qo, rate, wi. auto.
      * apply nth_error_None in Hn. lia.
    + apply In_nth_error in H as (i & Hi).
      destruct (map_result_seq_nth _ _ _ _ _ Hts Hi) as (_ & Hterm).
      apply oper_term_inv in Hterm as (_ & Hdm & Hsh & _); assumption.
    + apply In_nth_error in H as (i & Hi).
      destruct (map_result_seq_nth _ _ _ _ _ Hts Hi) as (_ & Hterm).
      apply oper_term_inv in Hterm as (_ & Hdm & Hsh & _); assumption.
Qed.

(** *** Claims about [essolve] *)

(** The row of expectation values of one observable, and what the result
    stores for it. *)
Definition expect_row (es : eseries) (tlist : list R) (e : Qobj) : list C :=
  expect e (esval es tlist).

Definition stored_row (es : eseries) (tlist : list R) (e : Qobj) : expect_seq :=
  if isherm e then RealSeq (map Re (expect_row es tlist e))
  else ComplexSeq (expect_row es tlist e).

Lemma expect_row_length es tlist e : length (expect_row es tlist e) = length tlist.
Proof. unfold expect_row, expect, esval. rewrite !length_map. reflexivity. Qed.

Lemma set_nth_app {A : Type} (done : list A) (x y : A) (rest : list A) :
  set_nth (length done) x (done ++ y :: rest) = Some (done ++ x :: rest).
Proof.
  induction done as [| z done IH]; simpl; [reflexivity |].
  rewrite IH. reflexivity.
Qed.

Lemma nth_error_app_head {A : Type} (done : list A) (y : A) (rest : list A) :
  nth_error (done ++ y :: rest) (length done) = Some y.
Proof. induction done as [| z done IH]; simpl; auto. Qed.

(** The loop of lines 86-87 fills the rows in order. *)
Lemma expect_loop_rows es tlist (todo : list Qobj) :
  forall (done rest : list (list C)),
    length rest = length todo ->
    (forall r, In r rest -> length r = length tlist) ->
    for_each (expect_body es tlist)
             (combine (seq (length done) (length todo)) todo)
             (Rows (done ++ rest)) =
    Ok (Rows (done ++ map (expect_row es tlist) todo)).
Proof.
  induction todo as [| e todo IH]; intros done rest Hlen Hrows.
  - destruct rest; [reflexivity | discriminate].
  - destruct rest as [| r rest]; [discriminate |].
    simpl. unfold expect_body at 1; simpl. fold (expect_row es tlist e).
    rewrite nth_error_app_head.
    rewrite (Hrows r) by (left; reflexivity).
    rewrite expect_row_length, Nat.eqb_refl, set_nth_app. simpl.
    specialize (IH (done ++ [expect_row es tlist e]) rest).
    rewrite length_app, Nat.add_1_r, <- !app_assoc in IH. simpl in IH.
    apply IH; [simpl in Hlen; lia | intros; apply Hrows; right; assumption].
Qed.

(** The comprehension of lines 92-93 reads the rows back in order. *)
Lemma stored_seq_rows es tlist (todo : list Qobj) :
  forall (done : list (list C)),
    map_result (stored_seq (Rows (done ++ map (expect_row es tlist) todo)))
               (combine (seq (length done) (length todo)) todo) =
    Ok (map (stored_row es tlist) todo).
Proof.
  induction todo as [| e todo IH]; intros done; [reflexivity |].
  simpl. unfold stored_seq at 1; simpl.
  rewrite nth_error_app_head; simpl.
  specialize (IH (done ++ [expect_row es tlist e])).
  rewrite length_app, Nat.add_1_r, <- !app_assoc in IH. simpl in IH.
  rewrite IH. reflexivity.
Qed.

(** The evaluation never raises: it returns the solver name, the time grid
    and one stored sequence per observable. *)
Lemma evaluate_closed_form es tlist e_ops :
  evaluate es tlist e_ops =
  Ok (mkOdedata "essolve" tlist (map (stored_row es tlist) e_ops)).
Proof.
  unfold evaluate, enumerate.
  destruct e_ops as [| e e_ops]; [reflexivity |].
  assert (Hne : (length (e :: e_ops) =? 0)%nat = false) by reflexivity.
  rewrite Hne. unfold zeros.
  pose proof (expect_loop_rows es tlist (e :: e_ops) []
                (repeat (repeat C0 (length tlist)) (length (e :: e_ops)))) as Hl.
  pose proof (stored_seq_rows es tlist (e :: e_ops) []) as Hs.
  cbn [app] in Hl, Hs. change (length (@nil (list C))) with 0%nat in Hl, Hs.
  rewrite Hl.
  - cbn [bind]. rewrite Hs. reflexivity.
  - apply repeat_length.
  - intros r Hr. apply repeat_spec in Hr. subst. apply repeat_length.
Qed.

Lemma essolve_inv H rho0 tlist c_op_list e_ops (res : Odedata) :
  essolve H rho0 tlist c_op_list e_ops = Ok res ->
  exists L es, generator H rho0 c_op_list = Ok L /\ ode2es L rho0 = Ok es /\
               res = mkOdedata "essolve" tlist (map (stored_row es tlist) e_ops).
Proof.
  unfold essolve; intros E.
  apply bind_Ok_inv in E as (L & HL & E).
  apply bind_Ok_inv in E as (es & Hes & E).
  rewrite evaluate_closed_form in E. inversion E. eauto.
Qed.

(** C4: when the list of collapse operators is absent or empty and the
    initial state is a ket, [ode2es] is called on the Hamiltonian itself;
    in every other case it is called on what [liouvillian] builds from the
    Hamiltonian and the collapse operators. *)
Theorem essolve_generator_choice (H rho0 : Qobj) (tlist : list R)
        (c_op_list : option (list Qobj)) (e_ops : list Qobj) :
  ((c_op_list = None \/ c_op_list = Some []) /\ isket rho0 = true ->
   generator H rho0 c_op_list = Ok H /\
   essolve H rho0 tlist c_op_list e_ops =
   (es <- ode2es H rho0 ;; evaluate es tlist e_ops)) /\
  (~ ((c_op_list = None \/ c_op_list = Some []) /\ isket rho0 = true) ->
   generator H rho0 c_op_list = liouvillian H c_op_list /\
   essolve H rho0 tlist c_op_list e_ops =
   (L <- liouvillian H c_op_list ;; es <- ode2es L rho0 ;; evaluate es tlist e_ops)).
Proof.
  assert (Hnc : no_collapse c_op_list = true <->
                (c_op_list = None \/ c_op_list = Some [])).
  { destruct c_op_list as [[| c l] |]; simpl; split; intros E;
      try reflexivity; try discriminate; auto.
    destruct E as [E | E]; discriminate. }
  unfold essolve, generator. split.
  - intros [Hc Hk]. apply Hnc in Hc. rewrite Hc, Hk. simpl. auto.
  - intros Hn.
    destruct (no_collapse c_op_list) eqn:Hc; destruct (isket rho0) eqn:Hk;
      simpl; auto.
    exfalso; apply Hn; split; [apply Hnc |]; reflexivity.
Qed.

(** The imaginary parts of a stored sequence: a real array has none. *)
Definition seq_imag (s : expect_seq) : list R :=
  match s with
  | RealSeq l => map (fun _ => 0) l
  | ComplexSeq l => map Im l
  end.

(** C5: for the n-th observable the result stores the real part of the
    computed sequence when the observable is flagged Hermitian and the
    computed complex sequence itself otherwise; a sequence stored for a
    Hermitian-flagged observable has imaginary part zero at every time. *)
Theorem essolve_hermitian_projection (H rho0 : Qobj) (tlist : list R)
        (c_op_list : option (list Qobj)) (e_ops : list Qobj) (res : Odedata)
        (n : nat) (e : Qobj) :
  essolve H rho0 tlist c_op_list e_ops = Ok res ->
  nth_error e_ops n = Some e ->
  exists L es stored,
    generator H rho0 c_op_list = Ok L /\ ode2es L rho0 = Ok es /\
    nth_error (od_expect res) n = Some stored /\
    (isherm e = true ->
     stored = RealSeq (map Re (expect e (esval es tlist))) /\
     Forall (fun y => y = 0) (seq_imag stored)) /\
    (isherm e = false ->
     stored = ComplexSeq (expect e (esval es tlist))).
Proof.
  intros E Hn. apply essolve_inv in E as (L & es & HL & Hes & ->).
  exists L, es, (stored_row es tlist e). simpl.
  split; [exact HL |]. split; [exact Hes |]. split.
  - rewrite nth_error_map, Hn. reflexivity.
  - unfold stored_row, expect_row. split; intros Hh; rewrite Hh.
    + split; [reflexivity |]. simpl.
      apply Forall_forall. intros y Hy. apply in_map_iff in Hy as (x & Hx & _).
      symmetry; exact Hx.
    + reflexivity.
Qed.

(** C8: with an empty list of observables and a generator and initial
    state that [ode2es] accepts, [essolve] returns a result and raises
    nothing; the result has no expectation sequence, the solver name
    "essolve" and the time grid it was given. *)
Theorem essolve_no_observables (H rho0 L : Qobj) (tlist : list R)
        (c_op_list : option (list Qobj)) (es : eseries) :
  generator H rho0 c_op_list = Ok L ->
  ode2es L rho0 = Ok es ->
  essolve H rho0 tlist c_op_list [] = Ok (mkOdedata "essolve" tlist []).
Proof.
  intros HL Hes. unfold essolve. rewrite HL; simpl. rewrite Hes; simpl.
  reflexivity.
Qed.

(** *** Reconstruction of the initial state *)

Lemma map_result_app {A B : Type} (f : A -> result B) (l1 l2 : list A) (ys : list B) :
  map_result f (l1 ++ l2) = Ok ys ->
  exists y1 y2, ys = y1 ++ y2 /\ map_result f l1 = Ok y1 /\ map_result f l2 = Ok y2.
Proof.
  revert ys; induction l1 as [| x l1 IH]; simpl; intros ys H.
  - exists [], ys. auto.
  - apply bind_Ok_inv in H as (y & Hy & H).
    apply bind_Ok_inv in H as (ys' & Hys & H). inversion H; subst.
    apply IH in Hys as (y1 & y2 & -> & H1 & H2).
    exists (y :: y1), y2. rewrite Hy, H1. auto.
Qed.

Lemma fold_right_add_acc {B : Type} (g : B -> C) (a : C) (l : list B) :
  fold_right (fun t acc => (g t + acc)%C) a l =
  (fold_right (fun t acc => (g t + acc)%C) C0 l + a)%C.
Proof.
  induction l as [| t l IH]; simpl; [ring |]. rewrite IH. ring.
Qed.

(** Summing a quantity over the terms collected by a loop over
    [range(n)] is a sum over the indices. *)
Lemma fold_right_map_result_seq {B : Type} (f : nat -> result B) (g : B -> C)
      (h : nat -> C) (n : nat) :
  forall ts,
    map_result f (seq 0 n) = Ok ts ->
    (forall k t, (k < n)%nat -> f k = Ok t -> g t = h k) ->
    fold_right (fun t acc => (g t + acc)%C) C0 ts = csum n h.
Proof.
  induction n as [| n IH]; intros ts Hts Hg.
  - simpl in Hts. inversion Hts. reflexivity.
  - rewrite seq_S in Hts. simpl in Hts.
    apply map_result_app in Hts as (y1 & y2 & -> & H1 & H2).
    simpl in H2. apply bind_Ok_inv in H2 as (t & Ht & H2). inversion H2; subst.
    rewrite fold_right_app. simpl.
    rewrite fold_right_add_acc, (IH y1 H1) by (intros; eapply Hg; eauto).
    rewrite (Hg n t) by (auto; lia). ring.
Qed.

Lemma esval_item_fold (es : eseries) (t : R) (i j : nat) :
  esval_item es t i j =
  fold_right (fun term acc =>
                (Cexp (snd term * RtoC t) * item (data (fst term)) i j + acc)%C)
             C0 es.
Proof. reflexivity. Qed.

Lemma Cexp_rate_0 (rate : C) : Cexp (rate * RtoC 0) = C1.
Proof.
  replace (rate * RtoC 0)%C with C0; [apply Cexp_0 |].
  unfold RtoC. fold C0. ring.
Qed.

(** The scaled eigenvector matrix [vv = v * spdiags(v0.T, 0, rlen, rlen)]:
    its k-th column is the k-th column of [v] times [v0[k]]. *)
Lemma scaled_columns (v v0 d vv : ndarray) (n : nat) :
  spdiags (transpose v0) n n = Ok d ->
  matmul_checked v d = Ok vv ->
  nrows v0 = ncols v ->
  ncols v = n /\ ncols v0 = 1%nat /\ nrows vv = nrows v /\ ncols vv = n /\
  forall i k, (k < n)%nat -> item vv i k = (item v i k * item v0 k 0)%C.
Proof.
  unfold spdiags, matmul_checked; simpl. intros Hd Hvv Hv0.
  destruct (ncols v0 =? 1)%nat eqn:Ec; [| discriminate].
  inversion Hd; subst d; clear Hd. simpl in Hvv.
  destruct (ncols v =? n)%nat eqn:En; [| discriminate].
  inversion Hvv; subst vv; clear Hvv. simpl.
  apply Nat.eqb_eq in Ec, En. repeat split; try assumption.
  intros i k Hk. rewrite (csum_single _ k) by
      (try lia; intros j _ Hj; apply Nat.eqb_neq in Hj; rewrite Hj; ring).
  rewrite Nat.eqb_refl.
  assert (Hlt : (k <? nrows v0)%nat = true) by (apply Nat.ltb_lt; lia).
  rewrite Hlt. reflexivity.
Qed.

(** What the exact solve gives: the columns of [v] weighted by [v0] add up
    to the right-hand side. *)
Definition solve_exact : Prop :=
  forall a b x, solve a b = Ok x ->
    nrows a = ncols a /\ nrows x = ncols a /\ ncols x = ncols b /\
    arr_eq (matmul a x) b.

(** The tidy step is given a series object and keeps the function the
    series stands for. *)
Definition estidy_keeps_value : Prop :=
  forall out es, estidy out = Ok es ->
    out <> None /\
    forall t, qobj_eq (esval1 Qobj_default es t)
                      (esval1 Qobj_default (series_of out) t).

(** The function a spectral decomposition stands for: entry [p] of
    [sum_k exp(rate_k * t) * v0[k] * v[:, k]]. *)
Definition spectral_sum (v v0 : ndarray) (rates : nat -> C) (n : nat) (t : R) (p : nat) : C :=
  csum n (fun k => (Cexp (rates k * RtoC t) * (item v p k * item v0 k 0))%C).

Lemma column_Ok (A : ndarray) (i : nat) (x : array1) :
  column A i = Ok x -> x = mkArr1 (nrows A) (fun k => item A k i).
Proof.
  unfold column. destruct (i <? ncols A)%nat; intros H; inversion H; reflexivity.
Qed.

Lemma vec2mat_Ok (x : array1) (m : ndarray) :
  vec2mat x = Ok m ->
  (Nat.sqrt (alen x) * Nat.sqrt (alen x))%nat = alen x /\
  m = mkArr (Nat.sqrt (alen x)) (Nat.sqrt (alen x))
            (fun i j => aitem x (j * Nat.sqrt (alen x) + i)).
Proof.
  unfold vec2mat.
  destruct (Nat.sqrt (alen x) * Nat.sqrt (alen x) =? alen x)%nat eqn:E;
    intros H; inversion H.
  apply Nat.eqb_eq in E. auto.
Qed.

Lemma oper_terms_value (v v0 vv : ndarray) (w : list C) (rho0 : Qobj) (n : nat)
      (ts : eseries) :
  map_result (oper_term vv w rho0) (seq 0 n) = Ok ts ->
  (forall i k, (k < n)%nat -> item vv i k = (item v i k * item v0 k 0)%C) ->
  forall t i j,
    esval_item ts t i j =
    spectral_sum v v0 (fun k => (- Ci * nth k w C0)%C) n t i.
Proof.
  intros Hts Hvv t i j. rewrite esval_item_fold. unfold spectral_sum.
  apply (fold_right_map_result_seq _ _ _ _ _ Hts).
  intros k [qo rate] Hk Hterm.
  apply oper_term_inv in Hterm as ((wi & Hwi & ->) & _ & _ & x & Hx & Hd).
  apply column_Ok in Hx. subst x. simpl. rewrite Hd. simpl.
  rewrite (nth_error_nth _ _ _ Hwi), Hvv by exact Hk. reflexivity.
Qed.

Lemma super_terms_value (v v0 vv : ndarray) (w : list C) (rho0 : Qobj) (n : nat)
      (ts : eseries) :
  map_result (super_term vv w rho0) (seq 0 n) = Ok ts ->
  (forall i k, (k < n)%nat -> item vv i k = (item v i k * item v0 k 0)%C) ->
  forall t i j,
    esval_item ts t i j =
    spectral_sum v v0 (fun k => nth k w C0) n t (j * Nat.sqrt (nrows vv) + i).
Proof.
  intros Hts Hvv t i j. rewrite esval_item_fold. unfold spectral_sum.
  apply (fold_right_map_result_seq _ _ _ _ _ Hts).
  intros k [qo rate] Hk Hterm.
  apply super_term_inv in Hterm as (Hwi & _ & _ & x & Hx & Hd).
  apply column_Ok in Hx. subst x.
  apply vec2mat_Ok in Hd as (_ & Hd). simpl in *. rewrite Hd. simpl.
  rewrite (nth_error_nth _ _ _ Hwi), Hvv by exact Hk. reflexivity.
Qed.

(** The value of the series built by the operator branch. *)
Lemma ode2es_oper_value (L rho0 : Qobj) (out : option eseries) :
  solve_exact ->
  ode2es_oper L rho0 = Ok out -> out <> None ->
  exists w vs v v0,
    eigenstates L = Ok (w, vs) /\ hstack (map full vs) = Ok v /\
    solve v (data rho0) = Ok v0 /\
    ncols v = prod_shape rho0 /\ ncols v0 = 1%nat /\
    forall t,
      let s := esval1 Qobj_default (series_of out) t in
      dims s = dims rho0 /\ shape s = shape rho0 /\
      nrows (data s) = nrows v /\ ncols (data s) = 1%nat /\
      forall i j, item (data s) i j =
                  spectral_sum v v0 (fun k => (- Ci * nth k w C0)%C) (ncols v) t i.
Proof.
  intros Hsolve Hr Hne.
  apply ode2es_oper_inv in Hr
    as (w & vs & v & v0 & d & vv & ts & He & Hv & Hv0 & Hd & Hvv & Hts & Hso & Hn).
  exists w, vs, v, v0.
  destruct (Hsolve _ _ _ Hv0) as (Hsq & Hx & Hc & Heq).
  destruct (scaled_columns _ _ _ _ _ Hd Hvv Hx) as (Hn' & Hc1 & Hrv & Hcv & Hit).
  repeat split; try assumption.
  all: rewrite Hso; destruct ts as [| [q0 r0] ts'];
    [exfalso; apply Hne, Hn; reflexivity |].
  all: assert (H0 : oper_term vv w rho0 0 = Ok (q0, r0))
    by (destruct (prod_shape rho0); simpl in Hts; [discriminate |];
        apply bind_Ok_inv in Hts as (y & Hy & Hts);
        apply bind_Ok_inv in Hts as (ys & _ & Hts); inversion Hts; subst; exact Hy).
  all: apply oper_term_inv in H0 as (_ & Hdm & Hsh & x & Hx0 & Hdq);
    apply column_Ok in Hx0; subst x; simpl.
  - exact Hdm.
  - exact Hsh.
  - rewrite Hdq; simpl. exact Hrv.
  - rewrite Hdq; reflexivity.
  - intros i j. rewrite Hn'. apply (oper_terms_value _ _ _ _ _ _ _ Hts Hit).
Qed.

(** The value of the series built by the superoperator branch. *)
Lemma ode2es_super_value (L rho0 : Qobj) (out : option eseries) :
  solve_exact ->
  ode2es_super L rho0 = Ok out -> out <> None ->
  exists w vs v v0,
    eigenstates L = Ok (w, vs) /\ hstack (map full vs) = Ok v /\
    solve v (mat2vec (data rho0)) = Ok v0 /\
    ncols v = prod_shape rho0 /\ ncols v0 = 1%nat /\
    (Nat.sqrt (nrows v) * Nat.sqrt (nrows v))%nat = nrows v /\
    forall t,
      let s := esval1 Qobj_default (series_of out) t in
      dims s = dims rho0 /\ shape s = shape rho0 /\
      nrows (data s) = Nat.sqrt (nrows v) /\ ncols (data s) = Nat.sqrt (nrows v) /\
      forall i j, item (data s) i j =
                  spectral_sum v v0 (fun k => nth k w C0) (ncols v) t
                               (j * Nat.sqrt (nrows v) + i).
Proof.
  intros Hsolve Hr Hne.
  apply ode2es_super_inv in Hr
    as (w & vs & v & v0 & d & vv & ts & He & Hv & Hv0 & Hd & Hvv & Hts & Hso & Hn).
  exists w, vs, v, v0.
  destruct (Hsolve _ _ _ Hv0) as (Hsq & Hx & Hc & Heq).
  destruct (scaled_columns _ _ _ _ _ Hd Hvv Hx) as (Hn' & Hc1 & Hrv & Hcv & Hit).
  destruct ts as [| [q0 r0] ts'] eqn:Ets;
    [exfalso; apply Hne, Hn; reflexivity |].
  assert (H0 : super_term vv w rho0 0 = Ok (q0, r0)).
  { destruct (prod_shape rho0); simpl in Hts; [discriminate |].
    apply bind_Ok_inv in Hts as (y & Hy & Hts).
    apply bind_Ok_inv in Hts as (ys & _ & Hts). inversion Hts; subst; exact Hy. }
  apply super_term_inv in H0 as (_ & Hdm & Hsh & x & Hx0 & Hdq).
  apply column_Ok in Hx0; subst x.
  apply vec2mat_Ok in Hdq as (Hsqrt & Hdq). simpl in Hsqrt, Hdq.
  rewrite Hrv in Hsqrt, Hdq.
  repeat split; try assumption.
  all: rewrite Hso; simpl; try assumption.
  - rewrite Hdq; reflexivity.
  - rewrite Hdq; reflexivity.
  - intros i j. rewrite Hn', <- Hrv.
    apply (super_terms_value _ _ _ _ _ _ _ Hts Hit).
Qed.

Lemma spectral_sum_0 (v v0 : ndarray) (rates : nat -> C) (p : nat) :
  spectral_sum v v0 rates (ncols v) 0 p = item (matmul v v0) p 0.
Proof.
  unfold spectral_sum; simpl. apply csum_ext. intros k _.
  rewrite Cexp_rate_0. ring.
Qed.

Lemma arr_eq_mat2vec (A B : ndarray) : arr_eq A B -> arr_eq (mat2vec A) (mat2vec B).
Proof.
  intros (Hr & Hc & H). unfold mat2vec; repeat split; simpl; try congruence.
  intros k j Hk _. rewrite <- Hr.
  assert (Hn : nrows A <> 0%nat) by lia.
  apply H; [apply Nat.mod_upper_bound; exact Hn |].
  apply Nat.Div0.div_lt_upper_bound; lia.
Qed.

(** C2: with an exact linear solve and a tidy step that keeps the value of
    the series, the series returned by a successful run, evaluated at time
    0, is the working state: it has its dims and shape, its vectorization
    is the vectorized state in the superoperator branch (and it is the
    state itself when the state matrix is square), and it is the ket in
    the operator branch. *)
Theorem ode2es_reconstructs_initial_state (L rho0 : Qobj) (es : eseries) :
  solve_exact -> estidy_keeps_value ->
  ode2es L rho0 = Ok es ->
  dims (esval1 Qobj_default es 0) = dims (working_state L rho0) /\
  shape (esval1 Qobj_default es 0) = shape (working_state L rho0) /\
  if issuper L then
    arr_eq (mat2vec (data (esval1 Qobj_default es 0)))
           (mat2vec (data (working_state L rho0))) /\
    (nrows (data (working_state L rho0)) = ncols (data (working_state L rho0)) ->
     arr_eq (data (esval1 Qobj_default es 0)) (data (working_state L rho0)))
  else
    arr_eq (data (esval1 Qobj_default es 0)) (data (working_state L rho0)).
Proof.
  intros Hsolve Htidy H. apply ode2es_inv in H as (out & Hb & Ht).
  destruct (Htidy _ _ Ht) as (Hne & Hval). specialize (Hval 0).
  destruct Hval as (Hdat & Hdm & Hsh). rewrite Hdm, Hsh.
  set (ws := working_state L rho0) in *.
  destruct (ode2es_build_inv _ _ _ Hb) as [(Hs & Hr) | (Hs & Ho & Hk & Hw & Hr)];
    rewrite Hs.
  - fold ws in Hr.
    destruct (ode2es_super_value _ _ _ Hsolve Hr Hne)
      as (w & vs & v & v0 & He & Hv & Hv0 & Hn & _ & Hsq & Hval).
    destruct (Hval 0) as (Hd1 & Hs1 & Hnr & Hnc & Hit).
    destruct (Hsolve _ _ _ Hv0) as (Hsqv & Hx & Hc & (Er & Ec & Eit)).
    simpl in Er, Ec.
    set (n := Nat.sqrt (nrows v)) in *.
    assert (Hvec : arr_eq (mat2vec (data (esval1 Qobj_default (series_of out) 0)))
                          (mat2vec (data ws))).
    { unfold mat2vec at 1 2. repeat split; simpl.
      - rewrite Hnr, Hnc. lia.
      - intros p j Hp _. rewrite Hnr, Hnc in Hp. rewrite Hnr.
        destruct (index_div_mod n p Hp) as (_ & _ & Hpe).
        rewrite Hit, spectral_sum_0, Hpe.
        rewrite Eit by (simpl; lia). reflexivity. }
    split; [exact Hd1 |]. split; [exact Hs1 |]. split.
    + eapply arr_eq_trans; [apply arr_eq_mat2vec; exact Hdat | exact Hvec].
    + intros Hsquare. eapply arr_eq_trans; [exact Hdat |].
      assert (Hrn : nrows (data ws) = n).
      { assert (E : (nrows (data ws) * nrows (data ws))%nat = nrows v)
          by (rewrite Er; rewrite Hsquare at 2; reflexivity).
        unfold n. rewrite <- E. symmetry. apply Nat.sqrt_square. }
      repeat split.
      * rewrite Hnr. congruence.
      * rewrite Hnc. congruence.
      * intros i j Hi Hj. rewrite Hnr in Hi. rewrite Hnc in Hj.
        rewrite Hit, spectral_sum_0.
        rewrite Eit by (simpl; nia). simpl. rewrite Hrn.
        destruct (div_mod_index n i j Hi) as (-> & ->). reflexivity.
  - unfold ws in *. rewrite Hw in *.
    destruct (ode2es_oper_value _ _ _ Hsolve Hr Hne)
      as (w & vs & v & v0 & He & Hv & Hv0 & Hn & Hc1 & Hval).
    destruct (Hval 0) as (Hd1 & Hs1 & Hnr & Hnc & Hit).
    destruct (Hsolve _ _ _ Hv0) as (Hsqv & Hx & Hc & (Er & Ec & Eit)).
    simpl in Er, Ec.
    split; [exact Hd1 |]. split; [exact Hs1 |].
    eapply arr_eq_trans; [exact Hdat |].
    repeat split.
    + rewrite Hnr. exact Er.
    + rewrite Hnc. congruence.
    + intros i j Hi Hj. rewrite Hnr in Hi. rewrite Hnc in Hj.
      assert (j = 0%nat) by lia. subst j.
      rewrite Hit, spectral_sum_0. apply Eit; simpl; lia.
Qed.

(** *** Contracts of the eigen-solver and of the linear solve *)

(** What [L.eigenstates()] returns: as many eigenvalues and eigenvectors
    as [L] has rows, each eigenvector a column of that many rows with
    [L v_k = w_k v_k]. *)
Definition eigen_contract : Prop :=
  forall L w vs, eigenstates L = Ok (w, vs) ->
    length w = nrows (data L) /\ length vs = nrows (data L) /\
    forall k wk vk, nth_error w k = Some wk -> nth_error vs k = Some vk ->
      nrows (data vk) = nrows (data L) /\ ncols (data vk) = 1%nat /\
      forall i, (i < nrows (data L))%nat ->
        item (matmul (data L) (data vk)) i 0 = (wk * item (data vk) i 0)%C.

(** scipy's [la.solve] raises on a singular matrix: when it returns, no
    combination of the columns other than the trivial one vanishes. *)
Definition solve_regular : Prop :=
  forall a b x, solve a b = Ok x ->
    forall y : nat -> C,
      (forall i, (i < nrows a)%nat ->
                 csum (ncols a) (fun k => (item a i k * y k)%C) = C0) ->
      forall k, (k < ncols a)%nat -> y k = C0.

Lemma hstack_from_kets (rest : list ndarray) :
  forall A v,
    hstack_from A rest = Ok v ->
    (forall B, In B rest -> ncols B = 1%nat) ->
    ncols v = (ncols A + length rest)%nat /\ nrows v = nrows A /\
    (forall B, In B rest -> nrows B = nrows A) /\
    (forall i j, (j < ncols A)%nat -> item v i j = item A i j) /\
    (forall k B, nth_error rest k = Some B ->
                 forall i, item v i (ncols A + k) = item B i 0).
Proof.
  induction rest as [| B rest IH]; simpl; intros A v H Hc.
  - inversion H; subst. repeat split; try lia; try (intros; reflexivity).
    intros k B Hk. destruct k; discriminate.
  - destruct (nrows A =? nrows B)%nat eqn:E; [| discriminate].
    apply Nat.eqb_eq in E.
    destruct (IH _ _ H) as (Hn & Hr & Hrows & Hleft & Hright);
      [intros; apply Hc; right; assumption |].
    simpl in Hn, Hr, Hrows, Hleft, Hright.
    assert (HB : ncols B = 1%nat) by (apply Hc; left; reflexivity).
    repeat split.
    + lia.
    + exact Hr.
    + intros B' [<- | HB']; [symmetry; exact E | apply Hrows; exact HB'].
    + intros i j Hj. rewrite Hleft by lia.
      apply Nat.ltb_lt in Hj. rewrite Hj. reflexivity.
    + intros k B' Hk i. destruct k as [| k]; simpl in Hk.
      * inversion Hk; subst B'. rewrite Nat.add_0_r, Hleft by lia.
        rewrite Nat.ltb_irrefl, Nat.sub_diag. reflexivity.
      * rewrite <- (Hright k B' Hk i). f_equal. lia.
Qed.

(** The matrix of eigenvectors: column [k] of [np.hstack] of a list of
    kets is the k-th ket. *)
Lemma hstack_kets (l : list ndarray) (v : ndarray) :
  hstack l = Ok v ->
  (forall A, In A l -> ncols A = 1%nat) ->
  ncols v = length l /\
  (forall A, In A l -> nrows A = nrows v) /\
  forall k A, nth_error l k = Some A -> forall i, item v i k = item A i 0.
Proof.
  destruct l as [| A rest]; simpl; [discriminate |]. intros H Hc.
  assert (HA : ncols A = 1%nat) by (apply Hc; left; reflexivity).
  destruct (hstack_from_kets rest A v H) as (Hn & Hr & Hrows & Hleft & Hright);
    [intros; apply Hc; right; assumption |].
  repeat split.
  - lia.
  - intros B [<- | HB]; [symmetry; exact Hr | rewrite Hr; apply Hrows; exact HB].
  - intros k B Hk i. destruct k as [| k]; simpl in Hk.
    + inversion Hk; subst B. apply Hleft. lia.
    + rewrite <- (Hright k B Hk i). f_equal. lia.
Qed.

(** The expectation value depends on the state only through its dims and
    the entries inside its shape, when the shapes of the observable and of
    the state fit. *)
Lemma expect1_qobj_eq (oper s s' : Qobj) :
  qobj_eq s s' ->
  (ncols (data oper) <= nrows (data s))%nat ->
  (if isket s then (1 <= ncols (data s))%nat
   else (nrows (data oper) <= ncols (data s))%nat) ->
  expect1 oper s = expect1 oper s'.
Proof.
  intros ((Hr & Hc & Hit) & Hd & _) Hfit. unfold expect1, isket. rewrite Hd.
  destruct (ket_dims (dims s')); simpl; intros Hfit'.
  - rewrite <- Hr. apply csum_ext. intros k Hk.
    rewrite (Hit k 0%nat) by lia. f_equal.
    apply csum_ext. intros j Hj. rewrite (Hit j 0%nat) by lia. reflexivity.
  - apply csum_ext. intros i Hi. apply csum_ext. intros j Hj.
    rewrite (Hit j i) by lia. reflexivity.
Qed.

(** *** The two-level scenario *)

Lemma Cmul_eq_reg_r (a b c : C) : c <> C0 -> (a * c)%C = (b * c)%C -> a = b.
Proof.
  intros Hc H.
  assert (E : ((a - b) * c)%C = C0) by (replace ((a - b) * c)%C with (a * c - b * c)%C by ring; rewrite H; ring).
  apply Cmul_integral in E as [E | E]; [| contradiction].
  replace a with ((a - b) + b)%C by ring. rewrite E. ring.
Qed.

Lemma Copp_eq_self (b : C) : (- b)%C = b -> b = C0.
Proof.
  destruct b as [x y]; unfold Copp, C0; simpl; intros H.
  inversion H. apply C_eq; simpl; lra.
Qed.

(** The eigenpairs of [diag(1, -1)] and the projection of [(1, 0)]: with
    [v = [[a0, a1], [b0, b1]]] a regular matrix of eigenvectors for the
    eigenvalues [w0], [w1] and [v (c0, c1) = (1, 0)], one column is along
    the first basis vector with eigenvalue 1 and carries the whole state,
    the other is along the second with eigenvalue -1 and carries nothing. *)
Lemma two_level_algebra (a0 b0 a1 b1 c0 c1 w0 w1 : C) :
  a0 = (w0 * a0)%C -> (- b0)%C = (w0 * b0)%C ->
  a1 = (w1 * a1)%C -> (- b1)%C = (w1 * b1)%C ->
  (a0 * c0 + a1 * c1)%C = C1 -> (b0 * c0 + b1 * c1)%C = C0 ->
  (forall y0 y1, (a0 * y0 + a1 * y1)%C = C0 -> (b0 * y0 + b1 * y1)%C = C0 ->
                 y0 = C0 /\ y1 = C0) ->
  (w0 = C1 /\ w1 = (- C1)%C /\ (a0 * c0)%C = C1 /\ b0 = C0 /\
   a1 = C0 /\ (b1 * c1)%C = C0) \/
  (w0 = (- C1)%C /\ w1 = C1 /\ a0 = C0 /\ (b0 * c0)%C = C0 /\
   (a1 * c1)%C = C1 /\ b1 = C0).
Proof.
  intros E1 E2 E3 E4 E5 E6 Hreg.
  destruct (C_eq_dec a0 C0) as [Ha0 | Ha0].
  - right. subst a0.
    assert (Hb0 : b0 <> C0).
    { intros ->. destruct (Hreg C1 C0) as [H _]; [ring | ring |].
      exact (C1_neq_C0 H). }
    assert (Hw0 : w0 = (- C1)%C).
    { apply (Cmul_eq_reg_r _ _ b0 Hb0). rewrite <- E2. ring. }
    assert (Ha1c1 : (a1 * c1)%C = C1) by (rewrite <- E5; ring).
    assert (Ha1 : a1 <> C0).
    { intros ->. apply C1_neq_C0. rewrite <- Ha1c1. ring. }
    assert (Hw1 : w1 = C1).
    { apply (Cmul_eq_reg_r _ _ a1 Ha1). rewrite <- E3. ring. }
    assert (Hb1 : b1 = C0).
    { apply Copp_eq_self. rewrite E4, Hw1. ring. }
    repeat split; try assumption.
    rewrite <- E6, Hb1. ring.
  - left.
    assert (Hw0 : w0 = C1).
    { apply (Cmul_eq_reg_r _ _ a0 Ha0). rewrite <- E1. ring. }
    assert (Hb0 : b0 = C0).
    { apply Copp_eq_self. rewrite E2, Hw0. ring. }
    assert (Hb1 : b1 <> C0).
    { intros ->. destruct (Hreg a1 (- a0)%C) as [_ H]; [ring | rewrite Hb0; ring |].
      apply Ha0. replace a0 with (- - a0)%C by ring. rewrite H. ring. }
    assert (Hw1 : w1 = (- C1)%C).
    { apply (Cmul_eq_reg_r _ _ b1 Hb1). rewrite <- E4. ring. }
    assert (Ha1 : a1 = C0).
    { apply Copp_eq_self. rewrite E3 at 2. rewrite Hw1. ring. }
    repeat split; try assumption.
    + rewrite <- E5, Ha1. ring.
    + rewrite <- E6, Hb0. ring.
Qed.

Lemma csum_2 (f : nat -> C) : csum 2 f = (f 0%nat + f 1%nat)%C.
Proof. simpl. ring. Qed.

(** What the eigen-solver and the linear solve have returned on the
    scenario, whatever basis the eigen-solver has chosen. *)
Lemma two_level_decomposition (w : list C) (vs : list Qobj) (v v0 : ndarray) :
  eigen_contract -> solve_exact -> solve_regular ->
  eigenstates sigmaz = Ok (w, vs) ->
  hstack (map full vs) = Ok v ->
  solve v (data ket0) = Ok v0 ->
  exists w0 w1,
    w = [w0; w1] /\ nrows v = 2%nat /\ ncols v = 2%nat /\
    nrows v0 = 2%nat /\ ncols v0 = 1%nat /\
    ((w0 = C1 /\ w1 = (- C1)%C /\
      (item v 0 0 * item v0 0 0)%C = C1 /\ item v 1 0 = C0 /\
      item v 0 1 = C0 /\ (item v 1 1 * item v0 1 0)%C = C0) \/
     (w0 = (- C1)%C /\ w1 = C1 /\
      item v 0 0 = C0 /\ (item v 1 0 * item v0 0 0)%C = C0 /\
      (item v 0 1 * item v0 1 0)%C = C1 /\ item v 1 1 = C0)).
Proof.
  intros Heig Hex Hreg He Hv Hv0.
  destruct (Heig _ _ _ He) as (Hlw & Hlv & Hpairs). simpl in Hlw, Hlv.
  destruct w as [| w0 [| w1 [| ? ?]]]; try discriminate.
  destruct vs as [| u0 [| u1 [| ? ?]]]; try discriminate.
  destruct (Hpairs 0%nat w0 u0 eq_refl eq_refl) as (Hr0 & Hc0 & Hu0).
  destruct (Hpairs 1%nat w1 u1 eq_refl eq_refl) as (Hr1 & Hc1 & Hu1).
  simpl in Hr0, Hr1.
  destruct (hstack_kets _ _ Hv) as (Hnc & Hnr & Hcol).
  { simpl. intros A [<- | [<- | []]]; assumption. }
  simpl in Hnc.
  assert (Hnrv : nrows v = 2%nat).
  { rewrite <- (Hnr (full u0)) by (left; reflexivity). exact Hr0. }
  pose proof (Hcol 0%nat (full u0) eq_refl) as Hcol0.
  pose proof (Hcol 1%nat (full u1) eq_refl) as Hcol1.
  unfold full in Hcol0, Hcol1.
  destruct (Hex _ _ _ Hv0) as (_ & Hx & Hcx & (_ & _ & Hit)).
  simpl in Hcx.
  exists w0, w1. split; [reflexivity |].
  split; [exact Hnrv |]. split; [exact Hnc |].
  split; [rewrite Hx; exact Hnc |]. split; [exact Hcx |].
  pose proof (Hu0 0%nat ltac:(simpl; lia)) as E1.
  pose proof (Hu0 1%nat ltac:(simpl; lia)) as E2.
  pose proof (Hu1 0%nat ltac:(simpl; lia)) as E3.
  pose proof (Hu1 1%nat ltac:(simpl; lia)) as E4.
  pose proof (Hit 0%nat 0%nat ltac:(simpl; lia) ltac:(simpl; lia)) as E5.
  pose proof (Hit 1%nat 0%nat ltac:(simpl; lia) ltac:(simpl; lia)) as E6.
  simpl in E1, E2, E3, E4. unfold matmul in E5, E6. simpl in E5, E6.
  rewrite Hnc in E5, E6. simpl in E5, E6.
  unfold delta in E5, E6. simpl in E5, E6.
  rewrite !Hcol0, !Hcol1 in *.
  apply (two_level_algebra (item (data u0) 0 0) (item (data u0) 1 0)
                           (item (data u1) 0 0) (item (data u1) 1 0)
                           (item v0 0 0) (item v0 1 0) w0 w1).
  - rewrite <- E1. ring.
  - rewrite <- E2. ring.
  - rewrite <- E3. ring.
  - rewrite <- E4. ring.
  - rewrite <- E5. ring.
  - rewrite <- E6. ring.
  - intros y0 y1 Hy0 Hy1.
    pose proof (Hreg _ _ _ Hv0 (fun k => match k with O => y0 | _ => y1 end)) as Hk.
    rewrite Hnc, Hnrv in Hk.
    assert (Hall : forall k, (k < 2)%nat ->
                             match k with O => y0 | _ => y1 end = C0).
    { apply Hk. intros i Hi. rewrite csum_2, !Hcol0, !Hcol1.
      destruct i as [| [| i]]; [exact Hy0 | exact Hy1 | lia]. }
    split; [apply (Hall 0%nat); lia | apply (Hall 1%nat); lia].
Qed.

(** A phase has modulus one. *)
Lemma Cexp_phase_norm (w : C) (t : R) :
  Im w = 0 ->
  (Cconj (Cexp (- Ci * w * RtoC t)) * Cexp (- Ci * w * RtoC t))%C = C1.
Proof.
  intros Hw. rewrite Cexp_conj, <- Cexp_add.
  replace (Cconj (- Ci * w * RtoC t) + - Ci * w * RtoC t)%C with C0;
    [apply Cexp_0 |].
  destruct w as [x y]; simpl in Hw; subst y. csimpl. apply C_eq; simpl; ring.
Qed.

(** The run of the operator branch on the scenario, once the external
    routines have returned: nothing else raises, and the two terms are the
    columns of [v] scaled by the entries of [v0]. *)
Lemma two_level_build (w0 w1 : C) (vs : list Qobj) (v v0 : ndarray) :
  issuper sigmaz = false -> isoper sigmaz = true -> isket ket0 = true ->
  eigenstates sigmaz = Ok ([w0; w1], vs) ->
  hstack (map full vs) = Ok v ->
  solve v (data ket0) = Ok v0 ->
  nrows v = 2%nat -> ncols v = 2%nat -> nrows v0 = 2%nat -> ncols v0 = 1%nat ->
  exists q1 q2,
    ode2es_build sigmaz ket0 =
    Ok (Some [(q1, (- Ci * w0)%C); (q2, (- Ci * w1)%C)]) /\
    dims q1 = dims ket0 /\ shape q1 = shape ket0 /\
    dims q2 = dims ket0 /\ shape q2 = shape ket0 /\
    nrows (data q1) = 2%nat /\ ncols (data q1) = 1%nat /\
    nrows (data q2) = 2%nat /\ ncols (data q2) = 1%nat /\
    forall i j, item (data q1) i j = (item v i 0 * item v0 0 0)%C /\
                item (data q2) i j = (item v i 1 * item v0 1 0)%C.
Proof.
  intros Hs Ho Hk He Hv Hv0 Hnr Hnc Hnr0 Hnc0.
  unfold ode2es_build. rewrite Hs, Ho, Hk. cbn [negb].
  unfold ode2es_oper. rewrite He. cbn [bind fst snd]. rewrite Hv. cbn [bind].
  unfold full. rewrite Hv0. cbn [bind].
  unfold spdiags. cbn [transpose nrows ncols]. rewrite Hnc0. cbn [Nat.eqb bind].
  unfold matmul_checked. cbn [nrows ncols]. rewrite Hnc. cbn [Nat.eqb bind].
  change (prod_shape ket0) with 2%nat. cbn [seq for_each].
  unfold oper_body, column.
  cbn [matmul ncols nrows Nat.ltb Nat.leb bind getitem nth_error accumulate
       eseries_new eseries_add app].
  do 2 eexists. split; [reflexivity |]. simpl.
  repeat (split; [first [reflexivity | assumption] |]).
  intros i j. rewrite Hnc, Hnr0, !csum_2. simpl.
  rewrite !Cmul_0_r, Cadd_0_r, Cadd_0_l. split; reflexivity.
Qed.

(** The state of the scenario at any time is a phase times [(1, 0)]: the
    expectation value of [diag(1, -1)] is 1. *)
Lemma two_level_expect (q1 q2 : Qobj) (r1 r2 : C) (t : R) :
  isket ket0 = true ->
  dims q1 = dims ket0 ->
  nrows (data q1) = 2%nat -> ncols (data q1) = 1%nat ->
  (r1 = (- Ci * C1)%C /\
   item (data q1) 0 0 = C1 /\ item (data q1) 1 0 = C0 /\
   item (data q2) 0 0 = C0 /\ item (data q2) 1 0 = C0) \/
  (r2 = (- Ci * C1)%C /\
   item (data q2) 0 0 = C1 /\ item (data q2) 1 0 = C0 /\
   item (data q1) 0 0 = C0 /\ item (data q1) 1 0 = C0) ->
  expect1 sigmaz (esval1 Qobj_default [(q1, r1); (q2, r2)] t) = C1.
Proof.
  intros Hk Hd Hnr Hnc Hcases.
  unfold expect1, isket. simpl. rewrite Hd. unfold isket in Hk. rewrite Hk.
  simpl. rewrite Hnr, !csum_2. simpl. unfold esval_item. simpl.
  pose proof (Cexp_phase_norm C1 t eq_refl) as Hphase.
  destruct Hcases as [(-> & -> & -> & -> & ->) | (-> & -> & -> & -> & ->)].
  - rewrite !Cconj_add, !Cconj_mul, !Cconj_0.
    replace (Cconj C1) with C1 by (apply C_eq; simpl; ring).
    etransitivity; [| exact Hphase]. ring.
  - rewrite !Cconj_add, !Cconj_mul, !Cconj_0.
    replace (Cconj C1) with C1 by (apply C_eq; simpl; ring).
    etransitivity; [| exact Hphase]. ring.
Qed.

(** The eigenvalue of [diag(1, -1)] on the k-th basis vector and the
    projector on that vector. *)
Definition level_energy (k : nat) : C := if (k =? 0)%nat then C1 else (- C1)%C.

Definition eigenprojector (k : nat) : ndarray :=
  mkArr 2 2 (fun i j => (delta i k * delta j k)%C).

Lemma eigenprojector_ket0 (k i j : nat) :
  item (matmul (eigenprojector k) (data ket0)) i j =
  (delta i k * delta k 0)%C.
Proof.
  unfold matmul, eigenprojector. simpl. rewrite Cadd_0_l. unfold delta.
  destruct k as [| [| k]]; simpl; ring.
Qed.

(** C7: on the generator [diag(1, -1)], the ket [(1, 0)], the times
    [0, pi/2, pi] and the observable [diag(1, -1)], when the eigen-solver,
    the linear solve and the tidy step return, [ode2es] builds two terms
    with the rates [-i * 1] and [-i * (-1)], each coefficient the
    projector on the eigenvector applied to the initial state, and
    [essolve] returns the real expectation values 1, 1, 1. *)
Theorem two_level_scenario (w : list C) (vs : list Qobj) :
  eigen_contract -> solve_exact -> solve_regular -> estidy_keeps_value ->
  issuper sigmaz = false -> isoper sigmaz = true -> isket ket0 = true ->
  isherm sigmaz = true ->
  eigenstates sigmaz = Ok (w, vs) ->
  (forall v, hstack (map full vs) = Ok v ->
             exists v0, solve v (data ket0) = Ok v0) ->
  (forall es0, exists es, estidy (Some es0) = Ok es) ->
  (exists q1 q2 k1 k2,
      ode2es_build sigmaz ket0 =
      Ok (Some [(q1, (- Ci * level_energy k1)%C);
                (q2, (- Ci * level_energy k2)%C)]) /\
      ((k1 = 0 /\ k2 = 1) \/ (k1 = 1 /\ k2 = 0))%nat /\
      arr_eq (data q1) (matmul (eigenprojector k1) (data ket0)) /\
      arr_eq (data q2) (matmul (eigenprojector k2) (data ket0))) /\
  essolve sigmaz ket0 [0; PI / 2; PI] None [sigmaz] =
  Ok (mkOdedata "essolve" [0; PI / 2; PI] [RealSeq [1; 1; 1]]).
Proof.
  intros Heig Hex Hreg Htidy Hs Ho Hk Hh He Hsolve Htotal.
  (* the matrix of eigenvectors *)
  destruct (Heig _ _ _ He) as (Hlw & Hlv & Hpairs). simpl in Hlw, Hlv.
  assert (Hv : exists v, hstack (map full vs) = Ok v).
  { destruct vs as [| u0 [| u1 [| ? ?]]]; try discriminate.
    destruct w as [| w0 [| w1 [| ? ?]]]; try discriminate.
    destruct (Hpairs 0%nat w0 u0 eq_refl eq_refl) as (Hr0 & _).
    destruct (Hpairs 1%nat w1 u1 eq_refl eq_refl) as (Hr1 & _).
    simpl. unfold full. rewrite Hr0, Hr1. simpl. eauto. }
  destruct Hv as (v & Hv). destruct (Hsolve v Hv) as (v0 & Hv0).
  destruct (two_level_decomposition w vs v v0 Heig Hex Hreg He Hv Hv0)
    as (w0 & w1 & -> & Hnr & Hnc & Hnr0 & Hnc0 & Hcases).
  destruct (two_level_build w0 w1 vs v v0 Hs Ho Hk He Hv Hv0 Hnr Hnc Hnr0 Hnc0)
    as (q1 & q2 & Hb & Hd1 & Hs1 & Hd2 & Hs2 & Hr1 & Hc1 & Hr2 & Hc2 & Hit).
  assert (Hexp : forall t, expect1 sigmaz
                     (esval1 Qobj_default
                             [(q1, (- Ci * w0)%C); (q2, (- Ci * w1)%C)] t) = C1).
  { intros t. apply two_level_expect; try assumption.
    destruct Hcases as [(-> & -> & E00 & E10 & E01 & E11)
                       | (-> & -> & E00 & E10 & E01 & E11)].
    - left. split; [reflexivity |].
      rewrite !(proj1 (Hit _ _)), !(proj2 (Hit _ _)), E00, E10, E01, E11.
      repeat split; ring.
    - right. split; [reflexivity |].
      rewrite !(proj1 (Hit _ _)), !(proj2 (Hit _ _)), E00, E10, E01, E11.
      repeat split; ring. }
  split.
  - exists q1, q2.
    destruct Hcases as [(-> & -> & E00 & E10 & E01 & E11)
                       | (-> & -> & E00 & E10 & E01 & E11)].
    + exists 0%nat, 1%nat. split; [exact Hb |]. split; [left; split; reflexivity |].
      split; (split; [assumption | split; [assumption |]]);
        intros i j Hi Hj; rewrite eigenprojector_ket0;
        [rewrite (proj1 (Hit _ _)) | rewrite (proj2 (Hit _ _))];
        rewrite Hr1 in Hi || rewrite Hr2 in Hi;
        destruct i as [| [| i]]; try lia; unfold delta; simpl;
        rewrite ?E00, ?E10, ?E01, ?E11; ring.
    + exists 1%nat, 0%nat. split; [exact Hb |]. split; [right; split; reflexivity |].
      split; (split; [assumption | split; [assumption |]]);
        intros i j Hi Hj; rewrite eigenprojector_ket0;
        [rewrite (proj1 (Hit _ _)) | rewrite (proj2 (Hit _ _))];
        rewrite Hr1 in Hi || rewrite Hr2 in Hi;
        destruct i as [| [| i]]; try lia; unfold delta; simpl;
        rewrite ?E00, ?E10, ?E01, ?E11; ring.
  - destruct (Htotal [(q1, (- Ci * w0)%C); (q2, (- Ci * w1)%C)]) as (es & Hes).
    destruct (Htidy _ _ Hes) as (_ & Hval). simpl in Hval.
    assert (Hexp' : forall t, expect1 sigmaz (esval1 Qobj_default es t) = C1).
    { intros t. rewrite <- (Hexp t). apply expect1_qobj_eq.
      - exact (Hval t).
      - destruct (Hval t) as ((Er & _) & _). rewrite Er. simpl. lia.
      - destruct (Hval t) as ((_ & Ec & _) & Ed & _).
        unfold isket. rewrite Ed. simpl. rewrite Hd1.
        unfold isket in Hk. rewrite Hk, Ec. simpl. lia. }
    assert (E : ode2es sigmaz ket0 = Ok es)
      by (unfold ode2es; rewrite Hb; exact Hes).
    unfold essolve, generator. rewrite Hk. cbn [no_collapse andb bind].
    rewrite E. cbn [bind].
    rewrite evaluate_closed_form. unfold stored_row, expect_row, expect, esval.
    cbn [map]. rewrite Hh, !Hexp'. reflexivity.
Qed.

(** *** The operator path and the superoperator path *)

Local Open Scope nat_scope.

(** The matrix [v] built from the eigenvectors: square, of the size of the
    generator, with [L v[:, k] = w[k] v[:, k]]. *)
Lemma eigen_matrix (L : Qobj) (w : list C) (vs : list Qobj) (v : ndarray) :
  eigen_contract ->
  eigenstates L = Ok (w, vs) ->
  hstack (map full vs) = Ok v ->
  nrows v = nrows (data L) /\ ncols v = nrows (data L) /\
  forall k i, k < nrows (data L) -> i < nrows (data L) ->
    csum (ncols (data L)) (fun j => (item (data L) i j * item v j k)%C) =
    (nth k w C0 * item v i k)%C.
Proof.
  intros Heig He Hv. destruct (Heig _ _ _ He) as (Hlw & Hlv & Hpairs).
  assert (Hpair : forall k, k < nrows (data L) ->
            exists wk vk, nth_error w k = Some wk /\ nth_error vs k = Some vk).
  { intros k Hk.
    destruct (nth_error w k) as [wk |] eqn:Ew;
      [| apply nth_error_None in Ew; lia].
    destruct (nth_error vs k) as [vk |] eqn:Ev;
      [| apply nth_error_None in Ev; lia].
    eauto. }
  destruct (hstack_kets _ _ Hv) as (Hnc & Hnr & Hcol).
  { intros A HA. apply in_map_iff in HA as (u & <- & Hu).
    apply In_nth_error in Hu as (k & Hk).
    assert (Hlt : k < nrows (data L))
      by (rewrite <- Hlv; apply nth_error_Some; congruence).
    destruct (Hpair k Hlt) as (wk & vk & Hwk & Hvk).
    rewrite Hk in Hvk. inversion Hvk; subst vk.
    exact (proj1 (proj2 (Hpairs k wk u Hwk Hk))). }
  rewrite length_map in Hnc.
  assert (Hrows : nrows v = nrows (data L)).
  { destruct vs as [| u0 vs']; [discriminate |].
    rewrite <- (Hnr (full u0)) by (left; reflexivity).
    assert (H0 : 0 < nrows (data L)) by (rewrite <- Hlv; simpl; lia).
    destruct (Hpair 0 H0) as (wk & vk & Hwk & Hvk).
    simpl in Hvk. inversion Hvk; subst vk.
    exact (proj1 (Hpairs 0 wk u0 Hwk eq_refl)). }
  split; [exact Hrows |]. split; [lia |].
  intros k i Hk Hi. destruct (Hpair k Hk) as (wk & vk & Hwk & Hvk).
  destruct (Hpairs k wk vk Hwk Hvk) as (_ & _ & Heq).
  specialize (Heq i Hi). unfold matmul in Heq. simpl in Heq.
  assert (Hcolk : forall j, item v j k = item (data vk) j 0).
  { intros j. apply Hcol. rewrite nth_error_map, Hvk. reflexivity. }
  rewrite (nth_error_nth _ _ _ Hwk), Hcolk, <- Heq.
  apply csum_ext. intros j _. rewrite Hcolk. reflexivity.
Qed.

(** What [liouvillian] builds from a Hamiltonian of dimension [d] without
    collapse operators: the matrix of dimension [d * d] that sends the
    vectorization of a matrix [M] to that of [-i (H M - M H)]. *)
Definition liouvillian_contract : Prop :=
  forall H c_op_list L,
    no_collapse c_op_list = true -> liouvillian H c_op_list = Ok L ->
    nrows (data L) = nrows (data H) * nrows (data H) /\
    ncols (data L) = nrows (data H) * nrows (data H) /\
    forall (M : nat -> nat -> C) (p : nat),
      p < nrows (data H) * nrows (data H) ->
      csum (nrows (data H) * nrows (data H))
           (fun q => (item (data L) p q *
                      M (q mod nrows (data H)) (q / nrows (data H))%nat)%C) =
      (- Ci * (csum (nrows (data H))
                    (fun k => (item (data H) (p mod nrows (data H)) k *
                               M k (p / nrows (data H))%nat)%C)
               - csum (nrows (data H))
                      (fun k => (M (p mod nrows (data H)) k *
                                 item (data H) k (p / nrows (data H))%nat)%C)))%C.

(** The expectation value on a density matrix that is the outer product
    of a ket with itself is the expectation value on the ket. *)
Lemma expect1_outer (O s1 s2 : Qobj) (d : nat) :
  isket s1 = true -> isket s2 = false ->
  nrows (data O) = d -> ncols (data O) = d -> nrows (data s1) = d ->
  (forall i j, i < d -> j < d ->
     item (data s2) j i = (item (data s1) j 0 * Cconj (item (data s1) i 0))%C) ->
  expect1 O s2 = expect1 O s1.
Proof.
  intros Hk1 Hk2 HrO HcO Hr1 Hout. unfold expect1. rewrite Hk1, Hk2. simpl.
  rewrite HrO, HcO, Hr1. apply csum_ext. intros i Hi.
  rewrite <- csum_scale_l. apply csum_ext. intros j Hj.
  rewrite Hout by assumption. ring.
Qed.

Local Open Scope R_scope.

(** C6, amended: for a Hermitian Hamiltonian [H], no collapse operators
    and a ket [psi0] whose density matrix [psi0 * psi0.dag()] is not
    itself a ket for the test of line 124, the series [ode2es] builds from
    [H] and [psi0] and the series it builds from the Liouvillian of [H]
    and that density matrix give every observable of the size of [H] the
    same expectation value at every time. On a one-dimensional space the
    density matrix is again a ket, line 126 promotes it a second time,
    and the two paths differ. *)
Theorem unitary_and_density_paths_agree
        (H psi0 L O : Qobj) (c_op_list : option (list Qobj))
        (es1 es2 : eseries) (t : R) :
  eigen_contract -> solve_exact -> estidy_keeps_value -> liouvillian_contract ->
  nrows (data H) = ncols (data H) ->
  (forall i j, (i < nrows (data H))%nat -> (j < nrows (data H))%nat ->
     item (data H) i j = Cconj (item (data H) j i)) ->
  issuper H = false -> isket psi0 = true ->
  no_collapse c_op_list = true -> liouvillian H c_op_list = Ok L ->
  issuper L = true -> isket (Qobj_outer psi0) = false ->
  nrows (data O) = nrows (data H) -> ncols (data O) = nrows (data H) ->
  ode2es H psi0 = Ok es1 ->
  ode2es L (Qobj_outer psi0) = Ok es2 ->
  expect1 O (esval1 Qobj_default es2 t) = expect1 O (esval1 Qobj_default es1 t).
Proof.
  intros Heig Hsolve Htidy Hliou Hsq Hherm HsH Hk Hnc HL HsL Hkr HrO HcO H1 H2.
  (* the operator path *)
  apply ode2es_inv in H1 as (out1 & Hb1 & Ht1).
  destruct (Htidy _ _ Ht1) as (Hne1 & Hval1).
  destruct (ode2es_build_inv _ _ _ Hb1) as [(E & _) | (_ & _ & _ & _ & Hr1)];
    [congruence |].
  destruct (ode2es_oper_value _ _ _ Hsolve Hr1 Hne1)
    as (w1 & vs1 & U & c & He1 & HU & Hc & HnU & Hcc & HvalU).
  destruct (eigen_matrix _ _ _ _ Heig He1 HU) as (HrU & HcU & HeigU).
  destruct (Hsolve _ _ _ Hc) as (_ & Hxc & Hcb & (Erc & Ecc & Eitc)).
  simpl in Erc, Ecc.
  (* the superoperator path *)
  apply ode2es_inv in H2 as (out2 & Hb2 & Ht2).
  destruct (Htidy _ _ Ht2) as (Hne2 & Hval2).
  destruct (ode2es_build_inv _ _ _ Hb2) as [(_ & Hr2) | (E & _)];
    [| congruence].
  assert (Hws : working_state L (Qobj_outer psi0) = Qobj_outer psi0)
    by (unfold working_state; rewrite Hkr, andb_false_r; reflexivity).
  rewrite Hws in Hr2.
  destruct (ode2es_super_value _ _ _ Hsolve Hr2 Hne2)
    as (w2 & vs2 & V & c' & He2 & HV & Hc' & HnV & Hcc' & HsqV & HvalV).
  destruct (eigen_matrix _ _ _ _ Heig He2 HV) as (HrV & HcV & HeigV).
  destruct (Hliou _ _ _ Hnc HL) as (HrL & HcL & Hact).
  destruct (Hsolve _ _ _ Hc') as (_ & Hxc' & Hcb' & (Erc' & Ecc' & Eitc')).
  simpl in Erc', Ecc'.
  set (d := nrows (data H)) in *.
  assert (Hsqrt : Nat.sqrt (nrows V) = d)
    by (rewrite HrV, HrL; apply Nat.sqrt_square).
  assert (Hrp : nrows (data psi0) = d) by congruence.
  assert (Hcp : ncols (data psi0) = 1%nat) by congruence.
  (* the density matrix at time t is the outer product of the ket at time t *)
  assert (Hdens : forall p, (p < d * d)%nat ->
            evolved_density d (item V) (fun k => item c' k 0)
                            (fun k => nth k w2 C0) t p =
            (evolved_ket d (item U) (fun k => item c k 0)
                         (fun k => nth k w1 C0) t (p mod d) *
             Cconj (evolved_ket d (item U) (fun k => item c k 0)
                                (fun k => nth k w1 C0) t (p / d)%nat))%C).
  { intros p Hp.
    apply (density_of_evolved_ket d (item (data H)) (item (data L))
                                  (fun i => item (data psi0) i 0)).
    - exact Hherm.
    - exact Hact.
    - intros k i Hk' Hi. rewrite <- HeigU by assumption.
      rewrite <- Hsq. reflexivity.
    - intros i Hi. rewrite <- (Eitc i 0%nat) by (simpl; lia).
      unfold matmul; simpl. rewrite HcU. reflexivity.
    - intros k q Hk' Hq. rewrite <- HeigV by lia.
      rewrite HcL. reflexivity.
    - intros q Hq.
      assert (Hq1 : (q < nrows (matmul V c'))%nat) by (simpl; lia).
      assert (Hq2 : (0 < ncols (matmul V c'))%nat) by (simpl; lia).
      transitivity (item (matmul V c') q 0).
      { unfold matmul; simpl. rewrite HcV, HrL. reflexivity. }
      rewrite (Eitc' q 0%nat Hq1 Hq2).
      unfold matmul, mat2vec, Qobj_outer; simpl.
      rewrite Hrp, Hcp. simpl. ring.
    - exact Hp. }
  (* the two states at time t *)
  destruct (HvalU t) as (Hd1 & _ & HnrS1 & HncS1 & HitS1).
  destruct (HvalV t) as (Hd2 & _ & HnrS2 & HncS2 & HitS2).
  destruct (Hval1 t) as ((Er1 & Ec1 & Eit1) & Ed1 & Es1).
  destruct (Hval2 t) as ((Er2 & Ec2 & Eit2) & Ed2 & Es2).
  set (S1 := esval1 Qobj_default (series_of out1) t) in *.
  set (S2 := esval1 Qobj_default (series_of out2) t) in *.
  assert (HkS1 : isket S1 = true) by (unfold isket; rewrite Hd1; exact Hk).
  assert (HkS2 : isket S2 = false) by (unfold isket; rewrite Hd2; exact Hkr).
  transitivity (expect1 O S2).
  { apply expect1_qobj_eq.
    - repeat split; assumption.
    - rewrite Er2, HnrS2, Hsqrt. lia.
    - unfold isket. rewrite Ed2. unfold isket in HkS2. rewrite HkS2.
      rewrite Ec2, HncS2, Hsqrt. lia. }
  transitivity (expect1 O S1).
  { apply (expect1_outer O S1 S2 d HkS1 HkS2 HrO HcO); [congruence |].
    intros i j Hi Hj. rewrite HitS2, !HitS1, Hsqrt, HcV, HrL, HcU.
    destruct (div_mod_index d j i Hj) as (Em & Ed).
    assert (Hp : (i * d + j < d * d)%nat) by nia.
    pose proof (Hdens _ Hp) as E. rewrite Em, Ed in E. exact E. }
  symmetry. apply expect1_qobj_eq.
  - repeat split; assumption.
  - rewrite Er1, HnrS1, HrU. lia.
  - unfold isket. rewrite Ed1. unfold isket in HkS1. rewrite HkS1.
    rewrite Ec1, HncS1. lia.
Qed.

(** ** Further properties of [essolve] and [ode2es] *)

(** The number of values of a stored sequence. *)
Definition seq_length (s : expect_seq) : nat :=
  match s with
  | RealSeq l => length l
  | ComplexSeq l => length l
  end.

(** X1: a result returned by [essolve] is never ragged: it names the
    solver, carries the time grid it was given, and holds one sequence per
    observable, each with one value per time of the grid (none for an
    empty grid). *)
Theorem essolve_result_shape (H rho0 : Qobj) (tlist : list R)
        (c_op_list : option (list Qobj)) (e_ops : list Qobj) (res : Odedata) :
  essolve H rho0 tlist c_op_list e_ops = Ok res ->
  od_solver res = "essolve"%string /\ od_times res = tlist /\
  length (od_expect res) = length e_ops /\
  forall s, In s (od_expect res) -> seq_length s = length tlist.
Proof.
  intros E. apply essolve_inv in E as (L & es & _ & _ & ->). simpl.
  split; [reflexivity |]. split; [reflexivity |].
  split; [apply length_map |].
  intros s Hs. apply in_map_iff in Hs as (e & <- & _).
  unfold stored_row. destruct (isherm e); simpl;
    rewrite ?length_map; apply expect_row_length.
Qed.

(** X2: [essolve] returns no partial result. With no collapse operators
    and a ket, a Hamiltonian that is neither an operator nor a
    superoperator is refused with the invalid-generator error whatever
    [liouvillian] would do; an error raised by [liouvillian] is raised by
    [essolve]; and when [liouvillian] returns an operator for an initial
    state that is not a ket, [essolve] raises the state-type error. *)
Theorem essolve_rejects (H rho0 : Qobj) (tlist : list R)
        (c_op_list : option (list Qobj)) (e_ops : list Qobj) :
  (no_collapse c_op_list = true -> isket rho0 = true ->
   issuper H = false -> isoper H = false ->
   essolve H rho0 tlist c_op_list e_ops = Raise InvalidGeneratorError) /\
  (forall e, no_collapse c_op_list && isket rho0 = false ->
             liouvillian H c_op_list = Raise e ->
             essolve H rho0 tlist c_op_list e_ops = Raise e) /\
  (forall L, isket rho0 = false -> liouvillian H c_op_list = Ok L ->
             issuper L = false -> isoper L = true ->
             essolve H rho0 tlist c_op_list e_ops = Raise StateTypeMismatchError).
Proof.
  unfold essolve, generator. repeat split.
  - intros Hc Hk Hs Ho. rewrite Hc, Hk. simpl.
    unfold ode2es, ode2es_build. rewrite Hs, Ho. reflexivity.
  - intros e Hc HL. rewrite Hc, HL. reflexivity.
  - intros L Hk HL Hs Ho. rewrite Hk, andb_false_r, HL. simpl.
    unfold ode2es, ode2es_build. rewrite Hs, Ho, Hk. reflexivity.
Qed.

(** The right-hand side of the linear solve in each branch. *)
Definition solve_rhs (L rho0 : Qobj) : ndarray :=
  if issuper L then mat2vec (full (working_state L rho0)) else full rho0.

(** X3: on an accepted pair of generator and state, a failure of the
    eigen-solver or of the linear solve is raised by [ode2es] as it is,
    and an eigen-solver that returns no eigenvector makes [np.hstack]
    raise a value error. *)
Theorem ode2es_surfaces_failures (L rho0 : Qobj) :
  issuper L = true \/ (isoper L = true /\ isket rho0 = true) ->
  (forall e, eigenstates L = Raise e -> ode2es L rho0 = Raise e) /\
  (forall w, eigenstates L = Ok (w, []) -> ode2es L rho0 = Raise ValueError) /\
  (forall w vs v e,
      eigenstates L = Ok (w, vs) -> hstack (map full vs) = Ok v ->
      solve v (solve_rhs L rho0) = Raise e -> ode2es L rho0 = Raise e).
Proof.
  intros Hacc.
  assert (Hrun : ode2es L rho0 =
                 (out <- (if issuper L
                          then ode2es_super L (working_state L rho0)
                          else ode2es_oper L rho0) ;; estidy out)).
  { unfold ode2es, ode2es_build, working_state.
    destruct Hacc as [Hs | (Ho & Hk)].
    - rewrite Hs. reflexivity.
    - destruct (issuper L); [rewrite Hk; reflexivity |].
      rewrite Ho, Hk. reflexivity. }
  rewrite Hrun. unfold solve_rhs, ode2es_super, ode2es_oper.
  repeat split.
  - intros e He. rewrite He. destruct (issuper L); reflexivity.
  - intros w He. rewrite He. destruct (issuper L); reflexivity.
  - intros w vs v e He Hv Hsol. rewrite He. simpl. rewrite Hv. simpl.
    destruct (issuper L); rewrite Hsol; reflexivity.
Qed.

(** X4: when the build returns, [out] is still [None] exactly when the
    state has no entry (the product of its shape is zero): the tidy step is
    handed a series object for every state that has one. *)
Theorem ode2es_build_none_iff_empty (L rho0 : Qobj) (out : option eseries) :
  ode2es_build L rho0 = Ok out ->
  (out = None <-> prod_shape (working_state L rho0) = 0%nat).
Proof.
  intros Hb.
  assert (Hts : exists ts : eseries,
             length ts = prod_shape (working_state L rho0) /\
             (out = None <-> ts = [])).
  { destruct (ode2es_build_inv _ _ _ Hb) as [(_ & Hr) | (_ & _ & _ & Hw & Hr)].
    - apply ode2es_super_inv in Hr
        as (w & vs & v & v0 & d & vv & ts & _ & _ & _ & _ & _ & Hts & _ & Hn).
      exists ts. split; [| exact Hn].
      apply map_result_length in Hts. rewrite length_seq in Hts. exact Hts.
    - rewrite Hw.
      apply ode2es_oper_inv in Hr
        as (w & vs & v & v0 & d & vv & ts & _ & _ & _ & _ & _ & Hts & _ & Hn).
      exists ts. split; [| exact Hn].
      apply map_result_length in Hts. rewrite length_seq in Hts. exact Hts. }
  destruct Hts as (ts & Hlen & Hn). rewrite Hn, <- Hlen.
  split; [intros -> | intros E; destruct ts]; try reflexivity; discriminate.
Qed.

(** A successful build has gone through the linear algebra of one of the
    two branches, on the working state. *)
Lemma ode2es_build_steps (L rho0 : Qobj) (out : option eseries) :
  solve_exact ->
  ode2es_build L rho0 = Ok out ->
  exists w vs v v0 vv,
    eigenstates L = Ok (w, vs) /\ hstack (map full vs) = Ok v /\
    solve v (solve_rhs L rho0) = Ok v0 /\
    nrows v = ncols v /\ ncols v = prod_shape (working_state L rho0) /\
    nrows v0 = ncols v /\ ncols v0 = 1%nat /\
    arr_eq (matmul v v0) (solve_rhs L rho0) /\
    nrows vv = nrows v /\
    (forall i k, (k < ncols v)%nat -> item vv i k = (item v i k * item v0 k 0)%C) /\
    map_result (if issuper L then super_term vv w (working_state L rho0)
                else oper_term vv w (working_state L rho0))
               (seq 0 (ncols v)) = Ok (series_of out).
Proof.
  intros Hsolve Hb. unfold solve_rhs.
  destruct (ode2es_build_inv _ _ _ Hb) as [(Hs & Hr) | (Hs & _ & _ & Hw & Hr)];
    rewrite Hs.
  - apply ode2es_super_inv in Hr
      as (w & vs & v & v0 & d & vv & ts & He & Hv & Hv0 & Hd & Hvv & Hts & Hso & _).
    destruct (Hsolve _ _ _ Hv0) as (Hsq & Hx & _ & Heq).
    destruct (scaled_columns _ _ _ _ _ Hd Hvv Hx) as (Hn & Hc1 & Hrv & _ & Hit).
    rewrite <- Hn in Hts, Hit. exists w, vs, v, v0, vv. rewrite Hso.
    repeat (split; [assumption || reflexivity |]). exact Hts.
  - rewrite Hw.
    apply ode2es_oper_inv in Hr
      as (w & vs & v & v0 & d & vv & ts & He & Hv & Hv0 & Hd & Hvv & Hts & Hso & _).
    destruct (Hsolve _ _ _ Hv0) as (Hsq & Hx & _ & Heq).
    destruct (scaled_columns _ _ _ _ _ Hd Hvv Hx) as (Hn & Hc1 & Hrv & _ & Hit).
    rewrite <- Hn in Hts, Hit. exists w, vs, v, v0, vv. rewrite Hso.
    repeat (split; [assumption || reflexivity |]). exact Hts.
Qed.

(** X5: [ode2es] only goes through when the sizes fit. In a successful
    build the generator has as many rows as the state has entries; in the
    operator branch the state is one column of that many rows, and in the
    superoperator branch its entries are as many as the rows of the
    generator, a perfect square as soon as there is one. *)
Theorem ode2es_sizes_fit (L rho0 : Qobj) (out : option eseries) :
  eigen_contract -> solve_exact ->
  ode2es_build L rho0 = Ok out ->
  nrows (data L) = prod_shape (working_state L rho0) /\
  if issuper L then
    (nrows (data (working_state L rho0)) * ncols (data (working_state L rho0)))%nat
    = nrows (data L) /\
    ((0 < prod_shape (working_state L rho0))%nat ->
     (Nat.sqrt (nrows (data L)) * Nat.sqrt (nrows (data L)))%nat = nrows (data L))
  else
    nrows (data (working_state L rho0)) = nrows (data L) /\
    ncols (data (working_state L rho0)) = 1%nat.
Proof.
  intros Heig Hsolve Hb.
  destruct (ode2es_build_steps _ _ _ Hsolve Hb)
    as (w & vs & v & v0 & vv & He & Hv & Hv0 & Hsq & Hn & Hx & Hc1 & Heq & Hrv
        & Hit & Hts).
  destruct (eigen_matrix _ _ _ _ Heig He Hv) as (HrL & HcL & _).
  destruct (Hsolve _ _ _ Hv0) as (_ & _ & Hcb & _).
  destruct Heq as (Er & Ec & _). simpl in Er, Ec.
  split; [congruence |].
  assert (Hw : issuper L = false -> working_state L rho0 = rho0)
    by (unfold working_state; intros ->; reflexivity).
  unfold solve_rhs in *. destruct (issuper L) eqn:Hs.
  - simpl in Er. split; [unfold full in Er; congruence |].
    intros Hpos. rewrite <- Hn in Hpos.
    destruct (ncols v) as [| n'] eqn:En; [lia |]. simpl in Hts.
    apply bind_Ok_inv in Hts as ([q r] & Ht & _).
    apply super_term_inv in Ht as (_ & _ & _ & x & Hx0 & Hm).
    apply column_Ok in Hx0. subst x.
    apply vec2mat_Ok in Hm as (Hm & _). simpl in Hm.
    rewrite Hrv, HrL in Hm. exact Hm.
  - rewrite Hw by reflexivity. unfold full in *. split; congruence.
Qed.

(** The array [c * A]. *)
Definition scale_arr (c : C) (A : ndarray) : ndarray :=
  mkArr (nrows A) (ncols A) (fun i j => (c * item A i j)%C).

(** X6: every term of the series is an eigenvector of the generator. For
    a square generator, the coefficient of the k-th term (vectorized in
    the superoperator branch) is mapped by the generator to [w[k]] times
    itself, and the rate of the term is [w[k]], or [-1j * w[k]] in the
    operator branch. *)
Theorem ode2es_terms_are_eigenvectors (L rho0 : Qobj) (out : option eseries) :
  eigen_contract -> solve_exact ->
  nrows (data L) = ncols (data L) ->
  ode2es_build L rho0 = Ok out ->
  exists w vs,
    eigenstates L = Ok (w, vs) /\
    forall k qo rate, nth_error (series_of out) k = Some (qo, rate) ->
      exists wk, nth_error w k = Some wk /\
        if issuper L then
          rate = wk /\
          arr_eq (matmul (data L) (mat2vec (data qo)))
                 (scale_arr wk (mat2vec (data qo)))
        else
          rate = (- Ci * wk)%C /\
          arr_eq (matmul (data L) (data qo)) (scale_arr wk (data qo)).
Proof.
  intros Heig Hsolve HsqL Hb.
  destruct (ode2es_build_steps _ _ _ Hsolve Hb)
    as (w & vs & v & v0 & vv & He & Hv & Hv0 & Hsq & Hn & Hx & Hc1 & Heq & Hrv
        & Hit & Hts).
  destruct (eigen_matrix _ _ _ _ Heig He Hv) as (HrL & HcL & HeigL).
  exists w, vs. split; [exact He |].
  intros k qo rate Hk.
  destruct (map_result_seq_nth _ _ _ _ _ Hts Hk) as (Hlt & Hterm).
  assert (Hcol : forall i, csum (ncols (data L))
                                (fun r => (item (data L) i r * item vv r k)%C) =
                           (nth k w C0 * item vv i k)%C \/ (nrows (data L) <= i)%nat).
  { intros i. destruct (Nat.lt_ge_cases i (nrows (data L))) as [Hi | Hi];
      [left | right; exact Hi].
    rewrite (csum_ext _ _ (fun r => ((item (data L) i r * item v r k)
                                     * item v0 k 0)%C))
      by (intros; rewrite Hit by exact Hlt; ring).
    rewrite csum_scale_r, HeigL, Hit by (try exact Hlt; lia). ring. }
  destruct (issuper L).
  - apply super_term_inv in Hterm as (Hw & _ & _ & x & Hx0 & Hm).
    apply column_Ok in Hx0. subst x.
    apply vec2mat_Ok in Hm as (Hsqrt & Hm). simpl in Hsqrt, Hm.
    exists rate. split; [exact Hw |]. split; [reflexivity |].
    rewrite (nth_error_nth _ _ _ Hw) in Hcol.
    set (n := Nat.sqrt (nrows vv)) in *.
    assert (Hvec : forall p, (p < n * n)%nat ->
                             item (mat2vec (data qo)) p 0 = item vv p k).
    { intros p Hp. rewrite Hm. simpl.
      destruct (index_div_mod n p Hp) as (_ & _ & E). rewrite E. reflexivity. }
    assert (Hnn : (n * n)%nat = nrows (data L)) by congruence.
    repeat split; simpl.
    + rewrite Hm. simpl. exact (eq_sym Hnn).
    + intros i j Hi _.
      rewrite (csum_ext _ _ (fun r => (item (data L) i r * item vv r k)%C)).
      * destruct (Hcol i) as [E | E]; [| lia].
        rewrite E. rewrite <- (Hvec i) by lia. reflexivity.
      * intros r Hr. rewrite <- (Hvec r) by lia. reflexivity.
  - apply oper_term_inv in Hterm as ((wk & Hw & ->) & _ & _ & x & Hx0 & Hd).
    apply column_Ok in Hx0. subst x.
    exists wk. split; [exact Hw |]. split; [reflexivity |].
    rewrite (nth_error_nth _ _ _ Hw) in Hcol.
    rewrite Hd. repeat split; simpl; [congruence |].
    intros i j Hi _. destruct (Hcol i) as [E | E]; [exact E | lia].
Qed.

(** *** The value of the returned series *)

(** The returned series of the operator branch, entry by entry. *)
Lemma ode2es_oper_final_value (L rho0 : Qobj) (es : eseries) :
  eigen_contract -> solve_exact -> estidy_keeps_value ->
  issuper L = false ->
  ode2es L rho0 = Ok es ->
  exists w vs v v0,
    eigenstates L = Ok (w, vs) /\ hstack (map full vs) = Ok v /\
    solve v (data rho0) = Ok v0 /\
    nrows v = nrows (data L) /\ ncols v = nrows (data L) /\
    nrows (data rho0) = nrows (data L) /\ ncols (data rho0) = 1%nat /\
    (forall k i, (k < nrows (data L))%nat -> (i < nrows (data L))%nat ->
       csum (ncols (data L)) (fun j => (item (data L) i j * item v j k)%C) =
       (nth k w C0 * item v i k)%C) /\
    (forall i, (i < nrows (data L))%nat ->
       csum (nrows (data L)) (fun k => (item v i k * item v0 k 0)%C) =
       item (data rho0) i 0) /\
    forall t,
      dims (esval1 Qobj_default es t) = dims rho0 /\
      shape (esval1 Qobj_default es t) = shape rho0 /\
      nrows (data (esval1 Qobj_default es t)) = nrows (data L) /\
      ncols (data (esval1 Qobj_default es t)) = 1%nat /\
      forall i, (i < nrows (data L))%nat ->
        item (data (esval1 Qobj_default es t)) i 0 =
        spectral_sum v v0 (fun k => (- Ci * nth k w C0)%C) (nrows (data L)) t i.
Proof.
  intros Heig Hsolve Htidy Hs H.
  apply ode2es_inv in H as (out & Hb & Ht).
  destruct (Htidy _ _ Ht) as (Hne & Hval).
  destruct (ode2es_build_inv _ _ _ Hb) as [(E & _) | (_ & _ & _ & _ & Hr)];
    [congruence |].
  destruct (ode2es_oper_value _ _ _ Hsolve Hr Hne)
    as (w & vs & v & v0 & He & Hv & Hv0 & Hn & Hc1 & HvalU).
  destruct (eigen_matrix _ _ _ _ Heig He Hv) as (HrL & HcL & HeigL).
  destruct (Hsolve _ _ _ Hv0) as (_ & Hx & Hcb & (Er & Ec & Eit)).
  simpl in Er, Ec.
  exists w, vs, v, v0.
  split; [exact He |]. split; [exact Hv |]. split; [exact Hv0 |].
  split; [exact HrL |]. split; [exact HcL |].
  split; [congruence |]. split; [congruence |].
  split; [exact HeigL |]. split.
  - intros i Hi. rewrite <- (Eit i 0%nat) by (simpl; lia).
    unfold matmul; simpl. rewrite HcL. reflexivity.
  - intros t. destruct (HvalU t) as (Hd1 & Hs1 & Hnr & Hnc & Hit).
    destruct (Hval t) as ((Er1 & Ec1 & Eit1) & Ed1 & Es1).
    split; [congruence |]. split; [congruence |].
    split; [congruence |]. split; [congruence |].
    intros i Hi. rewrite Eit1 by lia. rewrite Hit, HcL. reflexivity.
Qed.

(** The returned series of the superoperator branch, entry by entry; [n]
    is the size of the square matrices the vectors are reshaped to. *)
Lemma ode2es_super_final_value (L rho0 : Qobj) (es : eseries) :
  eigen_contract -> solve_exact -> estidy_keeps_value ->
  issuper L = true ->
  ode2es L rho0 = Ok es ->
  exists w vs v v0 n,
    eigenstates L = Ok (w, vs) /\ hstack (map full vs) = Ok v /\
    solve v (mat2vec (data (working_state L rho0))) = Ok v0 /\
    nrows v = nrows (data L) /\ ncols v = nrows (data L) /\
    (n * n)%nat = nrows (data L) /\
    (nrows (data (working_state L rho0)) *
     ncols (data (working_state L rho0)))%nat = nrows (data L) /\
    (forall k i, (k < nrows (data L))%nat -> (i < nrows (data L))%nat ->
       csum (ncols (data L)) (fun j => (item (data L) i j * item v j k)%C) =
       (nth k w C0 * item v i k)%C) /\
    (forall p, (p < nrows (data L))%nat ->
       csum (nrows (data L)) (fun k => (item v p k * item v0 k 0)%C) =
       item (mat2vec (data (working_state L rho0))) p 0) /\
    forall t,
      dims (esval1 Qobj_default es t) = dims (working_state L rho0) /\
      shape (esval1 Qobj_default es t) = shape (working_state L rho0) /\
      nrows (data (esval1 Qobj_default es t)) = n /\
      ncols (data (esval1 Qobj_default es t)) = n /\
      forall i j, (i < n)%nat -> (j < n)%nat ->
        item (data (esval1 Qobj_default es t)) i j =
        spectral_sum v v0 (fun k => nth k w C0) (nrows (data L)) t (j * n + i).
Proof.
  intros Heig Hsolve Htidy Hs H.
  apply ode2es_inv in H as (out & Hb & Ht).
  destruct (Htidy _ _ Ht) as (Hne & Hval).
  destruct (ode2es_build_inv _ _ _ Hb) as [(_ & Hr) | (E & _)];
    [| congruence].
  destruct (ode2es_super_value _ _ _ Hsolve Hr Hne)
    as (w & vs & v & v0 & He & Hv & Hv0 & Hn & Hc1 & Hsq & HvalV).
  destruct (eigen_matrix _ _ _ _ Heig He Hv) as (HrL & HcL & HeigL).
  destruct (Hsolve _ _ _ Hv0) as (_ & Hx & Hcb & (Er & Ec & Eit)).
  simpl in Er, Ec.
  exists w, vs, v, v0, (Nat.sqrt (nrows v)).
  split; [exact He |]. split; [exact Hv |]. split; [exact Hv0 |].
  split; [exact HrL |]. split; [exact HcL |].
  split; [congruence |]. split; [congruence |].
  split; [exact HeigL |]. split.
  - intros p Hp. rewrite <- (Eit p 0%nat) by (simpl; lia).
    unfold matmul; simpl. rewrite HcL. reflexivity.
  - intros t. destruct (HvalV t) as (Hd1 & Hs1 & Hnr & Hnc & Hit).
    destruct (Hval t) as ((Er1 & Ec1 & Eit1) & Ed1 & Es1).
    split; [congruence |]. split; [congruence |].
    split; [congruence |]. split; [congruence |].
    intros i j Hi Hj. rewrite Eit1 by lia. rewrite Hit, HcL. reflexivity.
Qed.

(** *** The series solves the equation of motion *)

Lemma spectral_sum_deriv (v v0 : ndarray) (rates : nat -> C) (n : nat)
      (t : R) (p : nat) :
  Cderiv (fun s => spectral_sum v v0 rates n s p) t
         (csum n (fun k => (rates k * (Cexp (rates k * RtoC t) *
                                       (item v p k * item v0 k 0)))%C)).
Proof.
  unfold spectral_sum.
  apply (Cderiv_csum n (fun k s => (Cexp (rates k * RtoC s) *
                                    (item v p k * item v0 k 0))%C)).
  intros k _.
  apply (Cderiv_ext (fun s => ((item v p k * item v0 k 0) *
                               Cexp (rates k * RtoC s))%C));
    [intros; ring |].
  replace (rates k * (Cexp (rates k * RtoC t) * (item v p k * item v0 k 0)))%C
    with ((item v p k * item v0 k 0) *
          (rates k * Cexp (rates k * RtoC t)))%C by ring.
  apply Cderiv_scale, Cderiv_exp.
Qed.

(** A matrix acts on a combination of its eigenvectors term by term. *)
Lemma spectral_sum_generator (A : nat -> nat -> C) (N : nat) (w : nat -> C)
      (v v0 : ndarray) (rates : nat -> C) (t : R) (i : nat) :
  (forall k, (k < N)%nat ->
     csum N (fun j => (A i j * item v j k)%C) = (w k * item v i k)%C) ->
  csum N (fun j => (A i j * spectral_sum v v0 rates N t j)%C) =
  csum N (fun k => (w k * (Cexp (rates k * RtoC t) *
                           (item v i k * item v0 k 0)))%C).
Proof.
  intros H. unfold spectral_sum.
  transitivity
    (csum N (fun j => csum N (fun k =>
       (A i j * (Cexp (rates k * RtoC t) * (item v j k * item v0 k 0)))%C))).
  { apply csum_ext; intros j _. rewrite csum_scale_l. reflexivity. }
  rewrite csum_swap. apply csum_ext; intros k Hk.
  transitivity
    (csum N (fun j => ((A i j * item v j k) *
                       (Cexp (rates k * RtoC t) * item v0 k 0))%C));
    [apply csum_ext; intros; ring |].
  rewrite csum_scale_r, H by assumption. ring.
Qed.

(** X7: the series that [ode2es] returns solves the equation it was built
    for, at every time [t]. For a Hamiltonian [L] the evaluated ket obeys
    [d psi/dt = -i L psi]; for a Liouvillian [L] the evaluated matrix, of
    size [n] by [n], obeys [d vec(rho)/dt = L vec(rho)] entry by entry.
    Together with the value at time 0 this makes the series the solution
    of the initial value problem. *)
Theorem ode2es_solves_equation (L rho0 : Qobj) (es : eseries) (t : R) :
  eigen_contract -> solve_exact -> estidy_keeps_value ->
  nrows (data L) = ncols (data L) ->
  ode2es L rho0 = Ok es ->
  if issuper L then
    let n := nrows (data (esval1 Qobj_default es t)) in
    (n * n)%nat = nrows (data L) /\
    forall i j, (i < n)%nat -> (j < n)%nat ->
      Cderiv (fun s => item (data (esval1 Qobj_default es s)) i j) t
             (item (matmul (data L)
                           (mat2vec (data (esval1 Qobj_default es t))))
                   (j * n + i) 0)
  else
    forall i, (i < nrows (data L))%nat ->
      Cderiv (fun s => item (data (esval1 Qobj_default es s)) i 0) t
             (- Ci * item (matmul (data L)
                                  (data (esval1 Qobj_default es t))) i 0)%C.
Proof.
  intros Heig Hsolve Htidy Hsq H.
  destruct (issuper L) eqn:Hs.
  - destruct (ode2es_super_final_value _ _ _ Heig Hsolve Htidy Hs H)
      as (w & vs & v & v0 & n & He & Hv & Hv0 & Hrv & Hcv & Hnn & _ &
          HeigL & _ & Hval).
    destruct (Hval t) as (_ & _ & Hnr & Hnc & _).
    cbv zeta. rewrite Hnr. split; [exact Hnn |].
    intros i j Hi Hj.
    assert (Hp : (j * n + i < nrows (data L))%nat) by nia.
    apply (Cderiv_ext
             (fun s => spectral_sum v v0 (fun k => nth k w C0)
                                    (nrows (data L)) s (j * n + i))).
    { intros s. destruct (Hval s) as (_ & _ & _ & _ & Hit).
      symmetry. apply Hit; assumption. }
    replace (item (matmul (data L)
                          (mat2vec (data (esval1 Qobj_default es t))))
                  (j * n + i) 0)
      with (csum (nrows (data L))
                 (fun k => (nth k w C0 *
                            (Cexp (nth k w C0 * RtoC t) *
                             (item v (j * n + i) k * item v0 k 0)))%C)).
    { apply spectral_sum_deriv. }
    unfold matmul, mat2vec. cbn [item]. rewrite <- Hsq, Hnr.
    rewrite <- (spectral_sum_generator (item (data L)) (nrows (data L))
                  (fun k => nth k w C0) v v0 (fun k => nth k w C0) t
                  (j * n + i)).
    + apply csum_ext. intros q Hq. f_equal.
      rewrite <- Hnn in Hq.
      destruct (index_div_mod n q Hq) as (Hm & Hd & Eq).
      destruct (Hval t) as (_ & _ & _ & _ & Hit).
      rewrite (Hit _ _ Hm Hd), Eq. reflexivity.
    + intros k Hk. rewrite Hsq. apply HeigL; assumption.
  - destruct (ode2es_oper_final_value _ _ _ Heig Hsolve Htidy Hs H)
      as (w & vs & v & v0 & He & Hv & Hv0 & Hrv & Hcv & _ & _ &
          HeigL & _ & Hval).
    intros i Hi.
    apply (Cderiv_ext
             (fun s => spectral_sum v v0 (fun k => (- Ci * nth k w C0)%C)
                                    (nrows (data L)) s i)).
    { intros s. destruct (Hval s) as (_ & _ & _ & _ & Hit).
      symmetry. apply Hit; assumption. }
    replace (- Ci * item (matmul (data L)
                                 (data (esval1 Qobj_default es t))) i 0)%C
      with (csum (nrows (data L))
                 (fun k => ((- Ci * nth k w C0) *
                            (Cexp ((- Ci * nth k w C0) * RtoC t) *
                             (item v i k * item v0 k 0)))%C)).
    { apply (spectral_sum_deriv v v0 (fun k => (- Ci * nth k w C0)%C)). }
    unfold matmul. cbn [item]. rewrite <- Hsq.
    rewrite (csum_ext (nrows (data L))
               (fun k => (item (data L) i k *
                          item (data (esval1 Qobj_default es t)) k 0)%C)
               (fun k => (item (data L) i k *
                          spectral_sum v v0 (fun k => (- Ci * nth k w C0)%C)
                                       (nrows (data L)) t k)%C)).
    2: { intros k Hk. destruct (Hval t) as (_ & _ & _ & _ & Hit).
         rewrite Hit by assumption. reflexivity. }
    rewrite (spectral_sum_generator (item (data L)) (nrows (data L))
               (fun k => nth k w C0)).
    + rewrite <- csum_scale_l. apply csum_ext; intros; ring.
    + intros k Hk. rewrite Hsq. apply HeigL; assumption.
Qed.

(** *** Conserved quantities *)

(** The squared norm of a column. *)
Definition norm2 (A : ndarray) : C :=
  csum (nrows A) (fun i => (Cconj (item A i 0) * item A i 0)%C).

(** The trace of a matrix. *)
Definition trace (A : ndarray) : C :=
  csum (nrows A) (fun i => item A i i).

(** X8: for a Hermitian Hamiltonian the ket that the series of [ode2es]
    evaluates to keeps, at every time, the norm of the initial ket. *)
Theorem ode2es_conserves_norm (H psi0 : Qobj) (es : eseries) (t : R) :
  eigen_contract -> solve_exact -> estidy_keeps_value ->
  issuper H = false ->
  nrows (data H) = ncols (data H) ->
  (forall i j, (i < nrows (data H))%nat -> (j < nrows (data H))%nat ->
     item (data H) i j = Cconj (item (data H) j i)) ->
  ode2es H psi0 = Ok es ->
  norm2 (data (esval1 Qobj_default es t)) = norm2 (data psi0).
Proof.
  intros Heig Hsolve Htidy Hs Hsq Hherm E.
  destruct (ode2es_oper_final_value _ _ _ Heig Hsolve Htidy Hs E)
    as (w & vs & v & v0 & He & Hv & Hv0 & Hrv & Hcv & Hrp & Hcp &
        HeigL & Hsum & Hval).
  destruct (Hval t) as (_ & _ & Hnr & _ & Hit).
  unfold norm2. rewrite Hnr, Hrp.
  rewrite (csum_ext (nrows (data H)) _
             (fun i => (Cconj (evolved_ket (nrows (data H)) (item v)
                                 (fun k => item v0 k 0)
                                 (fun k => nth k w C0) t i) *
                        evolved_ket (nrows (data H)) (item v)
                                    (fun k => item v0 k 0)
                                    (fun k => nth k w C0) t i)%C)).
  2: { intros i Hi. rewrite (Hit i Hi). reflexivity. }
  rewrite (evolved_norm (nrows (data H)) (item (data H))).
  - apply csum_ext. intros i Hi. rewrite (Hsum i Hi). reflexivity.
  - exact Hherm.
  - intros k i Hk Hi. rewrite <- (HeigL k i Hk Hi), <- Hsq. reflexivity.
Qed.

(** A combination of eigenvectors that is itself an eigenvector is
    weighted as a whole. *)
Lemma spectral_sum_eigenvector (A : nat -> nat -> C) (N : nat) (w : nat -> C)
      (v v0 : ndarray) (r : nat -> C) (E : C) (f : C -> C) :
  (forall k i, (k < N)%nat -> (i < N)%nat ->
     csum N (fun j => (A i j * item v j k)%C) = (w k * item v i k)%C) ->
  (forall p, (p < N)%nat ->
     csum N (fun k => (item v p k * item v0 k 0)%C) = r p) ->
  eigvec A N E r ->
  forall p, (p < N)%nat ->
    csum N (fun k => (f (w k) * (item v p k * item v0 k 0))%C) =
    (f E * r p)%C.
Proof.
  intros Heig Hsum Hr p Hp.
  pose proof (spectral_unique A N N 1 w
                (fun k q => (item v0 k 0 * item v q k)%C)
                (fun _ => E) (fun _ => r)) as U.
  cbv beta in U.
  transitivity (csum N (fun k => (f (w k) * (item v0 k 0 * item v p k))%C));
    [apply csum_ext; intros; ring |].
  rewrite (U ltac:(intros k Hk; apply eigvec_scale; intros q Hq;
                   apply Heig; assumption)
             ltac:(intros; exact Hr)
             ltac:(intros q Hq; simpl; rewrite <- (Hsum q Hq);
                   rewrite Cadd_0_l; apply csum_ext; intros; ring)
             f p Hp).
  simpl. ring.
Qed.

(** X9: an initial state that is an eigenvector of the generator only
    picks up the factor of its eigenvalue: a ket with [L psi = E psi]
    evolves to [exp(-i E t) psi], a vectorized matrix with
    [L vec(rho) = E vec(rho)] to [exp(E t) vec(rho)] (a steady state for
    [E = 0]). *)
Theorem ode2es_eigenstate_evolution (L rho0 : Qobj) (es : eseries)
        (E : C) (t : R) :
  eigen_contract -> solve_exact -> estidy_keeps_value ->
  nrows (data L) = ncols (data L) ->
  (forall p, (p < nrows (data L))%nat ->
     item (matmul (data L) (solve_rhs L rho0)) p 0 =
     (E * item (solve_rhs L rho0) p 0)%C) ->
  ode2es L rho0 = Ok es ->
  forall p, (p < nrows (data L))%nat ->
    if issuper L then
      item (mat2vec (data (esval1 Qobj_default es t))) p 0 =
      (Cexp (E * RtoC t) * item (mat2vec (data (working_state L rho0))) p 0)%C
    else
      item (data (esval1 Qobj_default es t)) p 0 =
      (Cexp (- Ci * E * RtoC t) * item (data rho0) p 0)%C.
Proof.
  intros Heig Hsolve Htidy Hsq Hvec H p Hp.
  unfold solve_rhs, full in Hvec.
  destruct (issuper L) eqn:Hs.
  - destruct (ode2es_super_final_value _ _ _ Heig Hsolve Htidy Hs H)
      as (w & vs & v & v0 & n & He & Hv & Hv0 & Hrv & Hcv & Hnn & _ &
          HeigL & Hsum & Hval).
    destruct (Hval t) as (_ & _ & Hnr & Hnc & Hit).
    rewrite <- Hnn in Hp.
    destruct (index_div_mod n p Hp) as (Hm & Hd & Ep).
    transitivity (spectral_sum v v0 (fun k => nth k w C0)
                               (nrows (data L)) t p).
    { unfold mat2vec at 1. cbn [item]. rewrite Hnr, (Hit _ _ Hm Hd), Ep.
      reflexivity. }
    unfold spectral_sum.
    apply (spectral_sum_eigenvector (item (data L)) (nrows (data L))
             (fun k => nth k w C0) v v0
             (fun q => item (mat2vec (data (working_state L rho0))) q 0)
             E (fun z => Cexp (z * RtoC t))).
    + intros k i Hk Hi. rewrite <- (HeigL k i Hk Hi), <- Hsq. reflexivity.
    + exact Hsum.
    + intros q Hq. rewrite <- (Hvec q Hq). unfold matmul. cbn [item].
      rewrite <- Hsq. reflexivity.
    + rewrite <- Hnn. exact Hp.
  - destruct (ode2es_oper_final_value _ _ _ Heig Hsolve Htidy Hs H)
      as (w & vs & v & v0 & He & Hv & Hv0 & Hrv & Hcv & Hrp & Hcp &
          HeigL & Hsum & Hval).
    destruct (Hval t) as (_ & _ & Hnr & _ & Hit).
    rewrite (Hit p Hp). unfold spectral_sum.
    apply (spectral_sum_eigenvector (item (data L)) (nrows (data L))
             (fun k => nth k w C0) v v0
             (fun q => item (data rho0) q 0)
             E (fun z => Cexp (- Ci * z * RtoC t))).
    + intros k i Hk Hi. rewrite <- (HeigL k i Hk Hi), <- Hsq. reflexivity.
    + exact Hsum.
    + intros q Hq. rewrite <- (Hvec q Hq). unfold matmul. cbn [item].
      rewrite <- Hsq. reflexivity.
    + exact Hp.
Qed.

(** X10: without collapse operators the density matrix that the series
    of [ode2es] evaluates to keeps, at every time, the trace of the
    initial density matrix. *)
Theorem ode2es_conserves_trace (H L rho0 : Qobj)
        (c_op_list : option (list Qobj)) (es : eseries) (t : R) :
  eigen_contract -> solve_exact -> estidy_keeps_value ->
  liouvillian_contract ->
  no_collapse c_op_list = true -> liouvillian H c_op_list = Ok L ->
  issuper L = true ->
  nrows (data (working_state L rho0)) = nrows (data H) ->
  ode2es L rho0 = Ok es ->
  trace (data (esval1 Qobj_default es t)) =
  trace (data (working_state L rho0)).
Proof.
  intros Heig Hsolve Htidy Hliou Hnc HL Hs Hws E.
  destruct (Hliou _ _ _ Hnc HL) as (HrL & HcL & Hact).
  destruct (ode2es_super_final_value _ _ _ Heig Hsolve Htidy Hs E)
    as (w & vs & v & v0 & n & He & Hv & Hv0 & Hrv & Hcv & Hnn & _ &
        HeigL & Hsum & Hval).
  destruct (Hval t) as (_ & _ & Hnr & Hnc' & Hit).
  set (d := nrows (data H)) in *.
  assert (Hn : n = d) by nia. rewrite Hn in Hnr, Hit.
  unfold trace. rewrite Hnr, Hws.
  rewrite (csum_ext d _
             (fun i => evolved_density d (item v) (fun k => item v0 k 0)
                                       (fun k => nth k w C0) t (i * d + i))).
  2: { intros i Hi. rewrite (Hit i i Hi Hi), HrL. reflexivity. }
  rewrite (evolved_trace d (item (data H)) (item (data L))).
  - apply csum_ext. intros i Hi.
    assert (Hp : (i * d + i < nrows (data L))%nat) by (rewrite HrL; nia).
    pose proof (Hsum _ Hp) as S. rewrite HrL in S. rewrite S.
    unfold mat2vec. cbn [item]. rewrite Hws.
    destruct (div_mod_index d i i Hi) as (-> & ->). reflexivity.
  - exact Hact.
  - intros k p Hk Hp. rewrite <- HeigL by (rewrite HrL; assumption).
    rewrite HcL. reflexivity.
Qed.

(** *** The ket path and the density-matrix path *)

(** For a Hermitian Hamiltonian [H] without collapse operators, the
    series built from the Liouvillian of [H] on the density matrix of a
    ket and the series built from [H] on the ket itself: shapes and
    entries of the two evaluated states. *)
Lemma paths_outer (H psi0 L rho0 : Qobj) (c_op_list : option (list Qobj))
      (es1 es2 : eseries) (t : R) :
  eigen_contract -> solve_exact -> estidy_keeps_value -> liouvillian_contract ->
  nrows (data H) = ncols (data H) ->
  (forall i j, (i < nrows (data H))%nat -> (j < nrows (data H))%nat ->
     item (data H) i j = Cconj (item (data H) j i)) ->
  issuper H = false ->
  no_collapse c_op_list = true -> liouvillian H c_op_list = Ok L ->
  issuper L = true ->
  working_state L rho0 = Qobj_outer psi0 ->
  ode2es H psi0 = Ok es1 ->
  ode2es L rho0 = Ok es2 ->
  dims (esval1 Qobj_default es1 t) = dims psi0 /\
  nrows (data (esval1 Qobj_default es1 t)) = nrows (data H) /\
  ncols (data (esval1 Qobj_default es1 t)) = 1%nat /\
  dims (esval1 Qobj_default es2 t) = dims (Qobj_outer psi0) /\
  nrows (data (esval1 Qobj_default es2 t)) = nrows (data H) /\
  ncols (data (esval1 Qobj_default es2 t)) = nrows (data H) /\
  forall i j, (i < nrows (data H))%nat -> (j < nrows (data H))%nat ->
    item (data (esval1 Qobj_default es2 t)) i j =
    (item (data (esval1 Qobj_default es1 t)) i 0 *
     Cconj (item (data (esval1 Qobj_default es1 t)) j 0))%C.
Proof.
  intros Heig Hsolve Htidy Hliou Hsq Hherm HsH Hnc HL HsL Hws H1 H2.
  destruct (ode2es_oper_final_value _ _ _ Heig Hsolve Htidy HsH H1)
    as (w1 & vs1 & U & c & _ & _ & _ & _ & _ & Hrp & Hcp &
        HeigU & HsumU & HvalU).
  destruct (ode2es_super_final_value _ _ _ Heig Hsolve Htidy HsL H2)
    as (w2 & vs2 & V & c' & n & _ & _ & _ & _ & _ & Hnn & _ &
        HeigV & HsumV & HvalV).
  destruct (Hliou _ _ _ Hnc HL) as (HrL & HcL & Hact).
  destruct (HvalU t) as (Hd1 & _ & Hnr1 & Hnc1 & Hit1).
  destruct (HvalV t) as (Hd2 & _ & Hnr2 & Hnc2 & Hit2).
  rewrite Hws in Hd2, HsumV.
  set (d := nrows (data H)) in *.
  assert (Hn : n = d) by nia. rewrite Hn in Hnr2, Hnc2, Hit2.
  split; [exact Hd1 |]. split; [exact Hnr1 |]. split; [exact Hnc1 |].
  split; [exact Hd2 |].
  split; [exact Hnr2 |]. split; [exact Hnc2 |].
  intros i j Hi Hj.
  rewrite (Hit2 i j Hi Hj), (Hit1 i Hi), (Hit1 j Hj), HrL.
  assert (Hp : (j * d + i < d * d)%nat) by nia.
  destruct (div_mod_index d i j Hi) as (Em & Ed).
  pose proof (density_of_evolved_ket d (item (data H)) (item (data L))
                (fun q => item (data psi0) q 0)
                (item U) (fun k => item c k 0) (fun k => nth k w1 C0)
                (item V) (fun k => item c' k 0) (fun k => nth k w2 C0))
    as D.
  rewrite <- Em at 2. rewrite <- Ed at 3.
  apply D; clear D.
  - exact Hherm.
  - exact Hact.
  - intros k q Hk Hq. rewrite <- (HeigU k q Hk Hq), <- Hsq. reflexivity.
  - exact HsumU.
  - intros k q Hk Hq. rewrite <- HeigV by (rewrite HrL; assumption).
    rewrite HcL. reflexivity.
  - intros q Hq. pose proof (HsumV q) as S. rewrite HrL in S.
    rewrite (S Hq). unfold mat2vec, Qobj_outer; simpl.
    fold d. rewrite Hrp, Hcp. simpl. ring.
  - exact Hp.
Qed.

(** X11: for a Hermitian Hamiltonian [H] without collapse operators, the
    density matrix evaluated from [ode2es] on the Liouvillian of [H] is at
    every time the outer product of the ket evaluated from [ode2es] on [H]
    with itself, for every initial state of the Liouvillian run whose
    working state, after the promotion test of lines 124-126, is
    [psi0 * psi0.dag()]: the ket itself, or its density matrix when that
    matrix is not itself a ket. *)
Theorem ode2es_density_is_outer_product
        (H psi0 L rho0 : Qobj) (c_op_list : option (list Qobj))
        (es1 es2 : eseries) (t : R) :
  eigen_contract -> solve_exact -> estidy_keeps_value -> liouvillian_contract ->
  nrows (data H) = ncols (data H) ->
  (forall i j, (i < nrows (data H))%nat -> (j < nrows (data H))%nat ->
     item (data H) i j = Cconj (item (data H) j i)) ->
  issuper H = false ->
  no_collapse c_op_list = true -> liouvillian H c_op_list = Ok L ->
  issuper L = true ->
  working_state L rho0 = Qobj_outer psi0 ->
  ode2es H psi0 = Ok es1 ->
  ode2es L rho0 = Ok es2 ->
  arr_eq (data (esval1 Qobj_default es2 t))
         (data (Qobj_outer (esval1 Qobj_default es1 t))).
Proof.
  intros Heig Hsolve Htidy Hliou Hsq Hherm HsH Hnc HL HsL Hws H1 H2.
  destruct (paths_outer H psi0 L rho0 c_op_list es1 es2 t
              Heig Hsolve Htidy Hliou Hsq Hherm HsH Hnc HL HsL Hws H1 H2)
    as (_ & Hnr1 & Hnc1 & _ & Hnr2 & Hnc2 & Hit).
  unfold Qobj_outer; simpl. split; [| split]; simpl.
  - congruence.
  - congruence.
  - intros i j Hi Hj. rewrite Hnr2 in Hi. rewrite Hnc2 in Hj.
    rewrite (Hit i j Hi Hj), Hnc1. simpl. ring.
Qed.


End Solver.

(** ** Independence of the numerical routines

    The eigenvectors of a matrix are fixed only up to order, scale and the
    choice of a basis in each eigenspace, and the coefficients that
    [la.solve] returns depend on that choice. The state the series stands
    for does not. *)

(** Two decompositions of one vector into eigenvectors of one matrix give
    the same weighted sum. *)
Lemma spectral_sum_unique (A : nat -> nat -> C) (N : nat)
      (w1 w2 : nat -> C) (v1 v01 v2 v02 : ndarray) (r : nat -> C)
      (f : C -> C) :
  (forall k i, (k < N)%nat -> (i < N)%nat ->
     csum N (fun j => (A i j * item v1 j k)%C) = (w1 k * item v1 i k)%C) ->
  (forall k i, (k < N)%nat -> (i < N)%nat ->
     csum N (fun j => (A i j * item v2 j k)%C) = (w2 k * item v2 i k)%C) ->
  (forall p, (p < N)%nat ->
     csum N (fun k => (item v1 p k * item v01 k 0)%C) = r p) ->
  (forall p, (p < N)%nat ->
     csum N (fun k => (item v2 p k * item v02 k 0)%C) = r p) ->
  forall p, (p < N)%nat ->
    csum N (fun k => (f (w1 k) * (item v1 p k * item v01 k 0))%C) =
    csum N (fun k => (f (w2 k) * (item v2 p k * item v02 k 0))%C).
Proof.
  intros Heig1 Heig2 Hsum1 Hsum2 p Hp.
  pose proof (spectral_unique A N N N w1
                (fun k q => (item v01 k 0 * item v1 q k)%C)
                w2 (fun k q => (item v02 k 0 * item v2 q k)%C)) as U.
  cbv beta in U.
  transitivity (csum N (fun k => (f (w1 k) * (item v01 k 0 * item v1 p k))%C));
    [apply csum_ext; intros; ring |].
  rewrite (U ltac:(intros k Hk; apply eigvec_scale; intros q Hq;
                   apply Heig1; assumption)
             ltac:(intros k Hk; apply eigvec_scale; intros q Hq;
                   apply Heig2; assumption)
             ltac:(intros q Hq;
                   transitivity (r q);
                   [rewrite <- (Hsum1 q Hq) | rewrite <- (Hsum2 q Hq)];
                   apply csum_ext; intros; ring)
             f p Hp).
  apply csum_ext; intros; ring.
Qed.

Section Independence.

Variables ket_dims oper_dims super_dims : dimspec * dimspec -> bool.
Variables eigenstates1 eigenstates2 : Qobj -> result (list C * list Qobj).
Variables solve1 solve2 : ndarray -> ndarray -> result ndarray.
Variables estidy1 estidy2 : option eseries -> result eseries.
Variable Qobj_default : Qobj.

(** X13: the state that the series of [ode2es] evaluates to does not
    depend on the eigen-solver, the linear solver or the tidy step: two
    runs on the same generator and initial state, with any two routines
    that meet their contracts, give the same state at every time, whatever
    the order, the scale or the basis of the eigenvectors each run
    got. *)
Theorem ode2es_independent_of_routines (L rho0 : Qobj) (es1 es2 : eseries)
        (t : R) :
  eigen_contract eigenstates1 -> eigen_contract eigenstates2 ->
  solve_exact solve1 -> solve_exact solve2 ->
  estidy_keeps_value estidy1 Qobj_default ->
  estidy_keeps_value estidy2 Qobj_default ->
  nrows (data L) = ncols (data L) ->
  ode2es ket_dims oper_dims super_dims eigenstates1 solve1 estidy1 L rho0
    = Ok es1 ->
  ode2es ket_dims oper_dims super_dims eigenstates2 solve2 estidy2 L rho0
    = Ok es2 ->
  qobj_eq (esval1 Qobj_default es1 t) (esval1 Qobj_default es2 t).
Proof.
  intros Heig1 Heig2 Hsolve1 Hsolve2 Htidy1 Htidy2 Hsq H1 H2.
  destruct (issuper super_dims L) eqn:Hs.
  - destruct (ode2es_super_final_value _ _ _ _ _ _ _ _ _ _
                Heig1 Hsolve1 Htidy1 Hs H1)
      as (w1 & vs1 & v1 & v01 & n1 & _ & _ & _ & _ & _ & Hn1 & _ &
          HeigL1 & Hsum1 & Hval1).
    destruct (ode2es_super_final_value _ _ _ _ _ _ _ _ _ _
                Heig2 Hsolve2 Htidy2 Hs H2)
      as (w2 & vs2 & v2 & v02 & n2 & _ & _ & _ & _ & _ & Hn2 & _ &
          HeigL2 & Hsum2 & Hval2).
    destruct (Hval1 t) as (Hd1 & Hsh1 & Hnr1 & Hnc1 & Hit1).
    destruct (Hval2 t) as (Hd2 & Hsh2 & Hnr2 & Hnc2 & Hit2).
    assert (Hn : n2 = n1) by nia.
    rewrite Hn in Hnr2, Hnc2, Hit2.
    split; [| split; congruence].
    split; [congruence |]. split; [congruence |].
    intros i j Hi Hj. rewrite Hnr1 in Hi. rewrite Hnc1 in Hj.
    rewrite (Hit1 i j Hi Hj), (Hit2 i j Hi Hj). unfold spectral_sum.
    apply (spectral_sum_unique (item (data L)) (nrows (data L))
             (fun k => nth k w1 C0) (fun k => nth k w2 C0) v1 v01 v2 v02
             (fun q => item (mat2vec (data (working_state ket_dims super_dims
                                                         L rho0))) q 0)
             (fun z => Cexp (z * RtoC t))).
    + intros k q Hk Hq. rewrite <- (HeigL1 k q Hk Hq), <- Hsq. reflexivity.
    + intros k q Hk Hq. rewrite <- (HeigL2 k q Hk Hq), <- Hsq. reflexivity.
    + exact Hsum1.
    + exact Hsum2.
    + nia.
  - destruct (ode2es_oper_final_value _ _ _ _ _ _ _ _ _ _
                Heig1 Hsolve1 Htidy1 Hs H1)
      as (w1 & vs1 & v1 & v01 & _ & _ & _ & _ & _ & _ & _ &
          HeigL1 & Hsum1 & Hval1).
    destruct (ode2es_oper_final_value _ _ _ _ _ _ _ _ _ _
                Heig2 Hsolve2 Htidy2 Hs H2)
      as (w2 & vs2 & v2 & v02 & _ & _ & _ & _ & _ & _ & _ &
          HeigL2 & Hsum2 & Hval2).
    destruct (Hval1 t) as (Hd1 & Hsh1 & Hnr1 & Hnc1 & Hit1).
    destruct (Hval2 t) as (Hd2 & Hsh2 & Hnr2 & Hnc2 & Hit2).
    split; [| split; congruence].
    split; [congruence |]. split; [congruence |].
    intros i j Hi Hj. rewrite Hnr1 in Hi. rewrite Hnc1 in Hj.
    assert (j = 0%nat) by lia. subst j.
    rewrite (Hit1 i Hi), (Hit2 i Hi). unfold spectral_sum.
    apply (spectral_sum_unique (item (data L)) (nrows (data L))
             (fun k => nth k w1 C0) (fun k => nth k w2 C0) v1 v01 v2 v02
             (fun q => item (data rho0) q 0)
             (fun z => Cexp (- Ci * z * RtoC t))).
    + intros k q Hk Hq. rewrite <- (HeigL1 k q Hk Hq), <- Hsq. reflexivity.
    + intros k q Hk Hq. rewrite <- (HeigL2 k q Hk Hq), <- Hsq. reflexivity.
    + exact Hsum1.
    + exact Hsum2.
    + exact Hi.
Qed.

End Independence.

(** ** A reference instance: diagonal generators

    The collaborators are instantiated by routines that are exact on
    diagonal generators: eigenvalues and eigenvectors are read off the
    diagonal, and the linear solve accepts the identity matrix. *)

Definition all_below (n : nat) (f : nat -> bool) : bool := forallb f (seq 0 n).

Lemma all_below_spec (n : nat) (f : nat -> bool) :
  all_below n f = true <-> forall i, (i < n)%nat -> f i = true.
Proof.
  unfold all_below. rewrite forallb_forall. split; intros H i Hi.
  - apply H, in_seq. lia.
  - apply H. apply in_seq in Hi. lia.
Qed.

Definition is_diagonal (A : ndarray) : bool :=
  (nrows A =? ncols A)%nat &&
  all_below (nrows A) (fun i =>
    all_below (nrows A) (fun j => (i =? j)%nat || Ceqb (item A i j) C0)).

Definition is_identity (A : ndarray) : bool :=
  (nrows A =? ncols A)%nat &&
  all_below (nrows A) (fun i =>
    all_below (nrows A) (fun j => Ceqb (item A i j) (delta i j))).

(** The k-th vector of the standard basis, as a ket. *)
Definition basis_ket (n k : nat) : Qobj :=
  mkQobj (mkArr n 1 (fun i _ => delta i k)) (ket_of_dim n) (n, 1%nat).

Module Ref.

Definition ket_dims (d : dimspec * dimspec) : bool :=
  match snd d with
  | DList [DInt 1] => true
  | _ => false
  end.

Definition oper_dims (d : dimspec * dimspec) : bool :=
  match d with
  | (DList [DInt n], DList [DInt m]) => (n =? m)%nat
  | _ => false
  end.

Definition super_dims (d : dimspec * dimspec) : bool :=
  match d with
  | (DList [DList [DInt n]; DList [DInt n']], DList [DList [DInt m]; DList [DInt m']]) =>
      (n =? m)%nat && (n' =? m')%nat && (n =? n')%nat
  | _ => false
  end.

(** The Hermiticity flag, computed from the data. *)
Definition isherm (q : Qobj) : bool :=
  (nrows (data q) =? ncols (data q))%nat &&
  all_below (nrows (data q)) (fun i =>
    all_below (nrows (data q)) (fun j =>
      Ceqb (item (data q) i j) (Cconj (item (data q) j i)))).

Definition eigenstates (L : Qobj) : result (list C * list Qobj) :=
  if is_diagonal (data L) then
    Ok (map (fun k => item (data L) k k) (seq 0 (nrows (data L))),
        map (basis_ket (nrows (data L))) (seq 0 (nrows (data L))))
  else Raise LinAlgError.

Definition solve (a b : ndarray) : result ndarray :=
  if is_identity a && (nrows b =? nrows a)%nat then Ok b
  else Raise LinAlgError.

(** The generator of the unitary part, [-i (H rho - rho H)] on vectorized
    matrices; collapse operators are not supported by this instance. *)
Definition commutator_super (H : Qobj) : Qobj :=
  let d := nrows (data H) in
  mkQobj
    (mkArr (d * d) (d * d)
           (fun p q =>
              (- Ci * (delta (p / d) (q / d) * item (data H) (p mod d) (q mod d)
                       - delta (p mod d) (q mod d) * item (data H) (q / d) (p / d)))%C))
    (super_of_dim d) ((d * d)%nat, (d * d)%nat).

Definition liouvillian (H : Qobj) (c_op_list : option (list Qobj)) : result Qobj :=
  match c_op_list with
  | Some (_ :: _) => Raise ValueError
  | _ => Ok (commutator_super H)
  end.

Definition estidy (out : option eseries) : result eseries :=
  match out with
  | Some es => Ok es
  | None => Raise AttributeError
  end.

Definition Qobj_default : Qobj :=
  mkQobj (mkArr 1 1 (fun _ _ => C0)) (oper_of_dim 1) (1%nat, 1%nat).

Definition ode2es : Qobj -> Qobj -> result eseries :=
  ode2es ket_dims oper_dims super_dims eigenstates solve estidy.

Definition essolve :
  Qobj -> Qobj -> list R -> option (list Qobj) -> list Qobj -> result Odedata :=
  essolve ket_dims oper_dims super_dims isherm eigenstates solve liouvillian
          estidy Qobj_default.

End Ref.

(** *** The contracts hold for the reference instance *)

Lemma nth_error_map_seq {A : Type} (f : nat -> A) (n k : nat) (x : A) :
  nth_error (map f (seq 0 n)) k = Some x -> (k < n)%nat /\ x = f k.
Proof.
  intros H. assert (Hk : (k < n)%nat).
  { rewrite <- (length_seq n 0), <- (length_map f).
    apply nth_error_Some. congruence. }
  split; [exact Hk |].
  rewrite nth_error_map, seq_nth_error in H by exact Hk.
  simpl in H. inversion H. reflexivity.
Qed.

Lemma is_diagonal_spec (A : ndarray) :
  is_diagonal A = true ->
  nrows A = ncols A /\
  forall i j, (i < nrows A)%nat -> (j < nrows A)%nat -> i <> j -> item A i j = C0.
Proof.
  unfold is_diagonal. intros H. apply andb_true_iff in H as (Hsq & Hd).
  apply Nat.eqb_eq in Hsq. split; [exact Hsq |].
  intros i j Hi Hj Hne. rewrite all_below_spec in Hd. specialize (Hd i Hi).
  rewrite all_below_spec in Hd. specialize (Hd j Hj).
  apply orb_true_iff in Hd as [Hd | Hd].
  - apply Nat.eqb_eq in Hd. contradiction.
  - apply Ceqb_eq. exact Hd.
Qed.

Lemma csum_delta_l (n k : nat) (g : nat -> C) :
  (k < n)%nat -> csum n (fun a => (delta k a * g a)%C) = g k.
Proof.
  intros Hk. rewrite (csum_single _ k).
  - unfold delta. rewrite Nat.eqb_refl. ring.
  - exact Hk.
  - intros a _ Hne. unfold delta.
    destruct (k =? a)%nat eqn:E; [apply Nat.eqb_eq in E; congruence | ring].
Qed.

Lemma solve_ref_exact : solve_exact Ref.solve.
Proof.
  intros a b x. unfold Ref.solve.
  destruct (is_identity a && (nrows b =? nrows a)%nat) eqn:E; [| discriminate].
  intros Hx; inversion Hx; subst x; clear Hx.
  apply andb_true_iff in E as (Hid & Hnb). apply Nat.eqb_eq in Hnb.
  unfold is_identity in Hid. apply andb_true_iff in Hid as (Hsq & Hid).
  apply Nat.eqb_eq in Hsq.
  assert (Ha : forall i j, (i < nrows a)%nat -> (j < nrows a)%nat ->
                           item a i j = delta i j).
  { intros i j Hi Hj. apply Ceqb_eq.
    rewrite all_below_spec in Hid. specialize (Hid i Hi).
    rewrite all_below_spec in Hid. exact (Hid j Hj). }
  repeat split; simpl; try congruence.
  intros i j Hi Hj. rewrite (csum_single _ i).
  2: lia.
  2: { intros k Hk Hne. rewrite Ha by lia. unfold delta.
       destruct (i =? k)%nat eqn:Eik; [apply Nat.eqb_eq in Eik; lia | ring]. }
  rewrite Ha by lia. unfold delta. rewrite Nat.eqb_refl. ring.
Qed.

Lemma solve_ref_regular : solve_regular Ref.solve.
Proof.
  intros a b x. unfold Ref.solve.
  destruct (is_identity a && (nrows b =? nrows a)%nat) eqn:E; [| discriminate].
  intros _ y Hy k Hk.
  apply andb_true_iff in E as (Hid & _).
  unfold is_identity in Hid. apply andb_true_iff in Hid as (Hsq & Hid).
  apply Nat.eqb_eq in Hsq.
  assert (Ha : forall i j, (i < nrows a)%nat -> (j < nrows a)%nat ->
                           item a i j = delta i j).
  { intros i j Hi Hj. apply Ceqb_eq.
    rewrite all_below_spec in Hid. specialize (Hid i Hi).
    rewrite all_below_spec in Hid. exact (Hid j Hj). }
  rewrite <- (Hy k) by lia. rewrite (csum_single _ k).
  - rewrite Ha by lia. unfold delta. rewrite Nat.eqb_refl. ring.
  - exact Hk.
  - intros j Hj Hne. rewrite Ha by lia. unfold delta.
    destruct (k =? j)%nat eqn:Ekj; [apply Nat.eqb_eq in Ekj; lia | ring].
Qed.

Lemma estidy_ref_keeps_value : estidy_keeps_value Ref.estidy Ref.Qobj_default.
Proof.
  intros [es0 |] es; simpl; intros H; inversion H; subst.
  split; [discriminate |]. intros t. repeat split.
Qed.

Lemma eigenstates_ref_contract : eigen_contract Ref.eigenstates.
Proof.
  intros L w vs. unfold Ref.eigenstates.
  destruct (is_diagonal (data L)) eqn:Hd; [| discriminate].
  intros H; inversion H; subst w vs; clear H.
  apply is_diagonal_spec in Hd as (Hsq & Hoff).
  rewrite !length_map, length_seq. split; [reflexivity |]. split; [reflexivity |].
  intros k wk vk Hw Hv.
  apply nth_error_map_seq in Hw as (Hk & ->).
  apply nth_error_map_seq in Hv as (_ & ->).
  simpl. split; [reflexivity |]. split; [reflexivity |].
  intros i Hi. rewrite <- Hsq. rewrite (csum_single _ k).
  - unfold delta. rewrite Nat.eqb_refl.
    destruct (i =? k)%nat eqn:E.
    + apply Nat.eqb_eq in E. subst i. ring.
    + apply Nat.eqb_neq in E. rewrite Hoff by assumption. ring.
  - exact Hk.
  - intros j Hj Hne. unfold delta.
    destruct (j =? k)%nat eqn:E; [apply Nat.eqb_eq in E; contradiction | ring].
Qed.

Lemma liouvillian_ref_contract : liouvillian_contract Ref.liouvillian.
Proof.
  intros H c L Hc HL.
  assert (E : L = Ref.commutator_super H).
  { destruct c as [[| ? ?] |]; simpl in Hc, HL; try discriminate;
      inversion HL; reflexivity. }
  subst L. simpl. split; [reflexivity |]. split; [reflexivity |].
  set (d := nrows (data H)). intros M p Hp.
  destruct (index_div_mod d p Hp) as (Hi & Hj & _).
  rewrite (csum_square d d
             (fun a b => (- Ci * (delta (p / d) b * item (data H) (p mod d) a
                                  - delta (p mod d) a * item (data H) b (p / d)%nat)
                          * M a b)%C)).
  rewrite (csum_ext d _ (fun b =>
             (- Ci * (delta (p / d) b *
                      csum d (fun a => (item (data H) (p mod d) a * M a b)%C))
              + Ci * (M (p mod d) b * item (data H) b (p / d)%nat))%C)).
  - rewrite csum_add, !csum_scale_l, csum_delta_l by exact Hj. ring.
  - intros b Hb.
    rewrite (csum_ext d _ (fun a =>
               (- Ci * delta (p / d) b * (item (data H) (p mod d) a * M a b)
                + delta (p mod d) a *
                  (Ci * (M a b * item (data H) b (p / d)%nat)))%C))
      by (intros; ring).
    rewrite csum_add, csum_scale_l, csum_delta_l by exact Hi. ring.
Qed.

(** *** The reference instance on the two-level scenario *)

Lemma is_diagonal_sigmaz : is_diagonal (data sigmaz) = true.
Proof.
  unfold is_diagonal, all_below; simpl. rewrite !Ceqb_refl. reflexivity.
Qed.

Lemma isherm_sigmaz : Ref.isherm sigmaz = true.
Proof.
  unfold Ref.isherm, all_below; simpl.
  replace (Cconj (- C1)) with (- C1)%C by (apply C_eq; simpl; ring).
  replace (Cconj C1) with C1 by (apply C_eq; simpl; ring).
  replace (Cconj C0) with C0 by (apply C_eq; simpl; ring).
  rewrite !Ceqb_refl. reflexivity.
Qed.

Lemma sigmaz_hermitian (i j : nat) :
  (i < nrows (data sigmaz))%nat -> (j < nrows (data sigmaz))%nat ->
  item (data sigmaz) i j = Cconj (item (data sigmaz) j i).
Proof.
  simpl. intros Hi Hj.
  destruct i as [| [| i]]; try lia; destruct j as [| [| j]]; try lia;
    simpl; apply C_eq; simpl; ring.
Qed.

Lemma eigenstates_ref_sigmaz :
  Ref.eigenstates sigmaz = Ok ([C1; (- C1)%C], [basis_ket 2 0; basis_ket 2 1]).
Proof. unfold Ref.eigenstates. rewrite is_diagonal_sigmaz. reflexivity. Qed.

Lemma solve_ref_sigmaz (v : ndarray) :
  hstack (map full [basis_ket 2 0; basis_ket 2 1]) = Ok v ->
  exists v0, Ref.solve v (data ket0) = Ok v0.
Proof.
  simpl. intros H; inversion H; subst v; clear H.
  unfold Ref.solve, is_identity, all_below, delta; simpl.
  rewrite !Ceqb_refl. simpl. eauto.
Qed.

Lemma ode2es_ref_sigmaz :
  exists es, Ref.ode2es sigmaz ket0 = Ok es.
Proof.
  unfold Ref.ode2es, ode2es, ode2es_build. simpl.
  unfold ode2es_oper, Ref.eigenstates. rewrite is_diagonal_sigmaz. simpl.
  unfold Ref.solve at 1. unfold is_identity, all_below, delta; simpl.
  rewrite !Ceqb_refl. simpl. eexists. reflexivity.
Qed.

Lemma essolve_ref_sigmaz (tlist : list R) (e_ops : list Qobj) :
  exists res, Ref.essolve sigmaz ket0 tlist None e_ops = Ok res.
Proof.
  destruct ode2es_ref_sigmaz as (es & Hes).
  unfold Ref.essolve, essolve, generator. simpl.
  fold Ref.ode2es. rewrite Hes. simpl.
  rewrite evaluate_closed_form. eexists. reflexivity.
Qed.

Lemma is_diagonal_commutator_sigmaz :
  is_diagonal (data (Ref.commutator_super sigmaz)) = true.
Proof.
  unfold is_diagonal. apply andb_true_iff; split; [reflexivity |].
  apply all_below_spec; intros i Hi. apply all_below_spec; intros j Hj.
  apply orb_true_iff.
  destruct (Nat.eq_dec i j) as [-> | Hne]; [left; apply Nat.eqb_refl | right].
  apply Ceqb_eq. simpl in Hi, Hj.
  destruct i as [| [| [| [| i]]]]; try lia;
    destruct j as [| [| [| [| j]]]]; try lia; try contradiction;
    unfold delta; simpl; apply C_eq; simpl; ring.
Qed.

Lemma ode2es_ref_commutator_sigmaz :
  exists es, Ref.ode2es (Ref.commutator_super sigmaz) ket0 = Ok es.
Proof.
  unfold Ref.ode2es, ode2es, ode2es_build.
  change (issuper Ref.super_dims (Ref.commutator_super sigmaz)) with true.
  change (isket Ref.ket_dims ket0) with true. cbv iota.
  unfold ode2es_super, Ref.eigenstates.
  rewrite is_diagonal_commutator_sigmaz.
  cbn [bind fst snd].
  change (nrows (data (Ref.commutator_super sigmaz))) with 4%nat.
  cbn [seq map hstack hstack_from hstack2 full basis_ket data nrows ncols
       Nat.eqb bind].
  unfold Ref.solve at 1, is_identity, all_below, delta. simpl.
  rewrite !Ceqb_refl. simpl. eexists. reflexivity.
Qed.

Lemma ode2es_ref_commutator_sigmaz_outer :
  exists es, Ref.ode2es (Ref.commutator_super sigmaz) (Qobj_outer ket0) = Ok es.
Proof.
  unfold Ref.ode2es, ode2es, ode2es_build.
  change (issuper Ref.super_dims (Ref.commutator_super sigmaz)) with true.
  change (isket Ref.ket_dims (Qobj_outer ket0)) with false. cbv iota.
  unfold ode2es_super, Ref.eigenstates.
  rewrite is_diagonal_commutator_sigmaz.
  cbn [bind fst snd].
  change (nrows (data (Ref.commutator_super sigmaz))) with 4%nat.
  cbn [seq map hstack hstack_from hstack2 full basis_ket data nrows ncols
       Nat.eqb bind].
  unfold Ref.solve at 1, is_identity, all_below, delta. simpl.
  rewrite !Ceqb_refl. simpl. eexists. reflexivity.
Qed.

(** *** The claims at the two-level scenario *)

Lemma ode2es_rate_convention_witness :
  exists es out,
    Ref.ode2es sigmaz ket0 = Ok es /\
    ode2es_build Ref.ket_dims Ref.oper_dims Ref.super_dims Ref.eigenstates
                 Ref.solve sigmaz ket0 = Ok out /\
    Ref.estidy out = Ok es /\
    length (series_of out) = 2%nat /\
    (exists qo, nth_error (series_of out) 0 = Some (qo, (- Ci * C1)%C)) /\
    (exists qo, nth_error (series_of out) 1 = Some (qo, (- Ci * - C1)%C)).
Proof.
  destruct ode2es_ref_sigmaz as (es & Hes). exists es.
  destruct (ode2es_rate_convention _ _ _ _ _ _ _ _ _ Hes)
    as (out & w & vs & Hb & Ht & He & Hlen & Hterm & _).
  rewrite eigenstates_ref_sigmaz in He. inversion He; subst w vs; clear He.
  exists out. split; [exact Hes |]. split; [exact Hb |]. split; [exact Ht |].
  split; [exact Hlen |]. split.
  - destruct (Hterm 0%nat (le_S _ _ (le_n 1)))
      as (qo & rate & wi & Hn & Hw & _ & _ & Hr).
    inversion Hw; subst wi. exists qo. rewrite <- Hr. exact Hn.
  - destruct (Hterm 1%nat (le_n 2))
      as (qo & rate & wi & Hn & Hw & _ & _ & Hr).
    inversion Hw; subst wi. exists qo. rewrite <- Hr. exact Hn.
Defined.

Lemma ode2es_reconstructs_initial_state_witness :
  exists es, Ref.ode2es sigmaz ket0 = Ok es /\
             arr_eq (data (esval1 Ref.Qobj_default es 0)) (data ket0).
Proof.
  destruct ode2es_ref_sigmaz as (es & Hes). exists es. split; [exact Hes |].
  exact (proj2 (proj2 (ode2es_reconstructs_initial_state
                         _ _ _ _ _ _ _ _ _ _
                         solve_ref_exact estidy_ref_keeps_value Hes))).
Defined.

Lemma ode2es_rejects_witness :
  Ref.ode2es sigmaz sigmaz = Raise StateTypeMismatchError /\
  Ref.ode2es ket0 ket0 = Raise InvalidGeneratorError.
Proof.
  split.
  - apply (proj1 (ode2es_rejects Ref.ket_dims Ref.oper_dims Ref.super_dims
                                 Ref.eigenstates Ref.solve Ref.estidy sigmaz sigmaz));
      reflexivity.
  - apply (proj2 (ode2es_rejects Ref.ket_dims Ref.oper_dims Ref.super_dims
                                 Ref.eigenstates Ref.solve Ref.estidy ket0 ket0));
      reflexivity.
Defined.

Lemma essolve_generator_choice_witness :
  generator Ref.ket_dims Ref.liouvillian sigmaz ket0 None = Ok sigmaz /\
  generator Ref.ket_dims Ref.liouvillian sigmaz ket0 (Some [sigmaz]) =
  Ref.liouvillian sigmaz (Some [sigmaz]).
Proof.
  split.
  - apply (proj1 (essolve_generator_choice
                    Ref.ket_dims Ref.oper_dims Ref.super_dims Ref.isherm
                    Ref.eigenstates Ref.solve Ref.liouvillian Ref.estidy
                    Ref.Qobj_default sigmaz ket0 [] None [])).
    split; [left; reflexivity | reflexivity].
  - apply (proj2 (essolve_generator_choice
                    Ref.ket_dims Ref.oper_dims Ref.super_dims Ref.isherm
                    Ref.eigenstates Ref.solve Ref.liouvillian Ref.estidy
                    Ref.Qobj_default sigmaz ket0 [] (Some [sigmaz]) [])).
    intros [[E | E] _]; discriminate.
Defined.

Lemma essolve_hermitian_projection_witness :
  exists res stored,
    Ref.essolve sigmaz ket0 [0; PI / 2; PI] None [sigmaz] = Ok res /\
    nth_error (od_expect res) 0 = Some stored /\
    Forall (fun y => y = 0) (seq_imag stored).
Proof.
  destruct (essolve_ref_sigmaz [0; PI / 2; PI] [sigmaz]) as (res & Hres).
  destruct (essolve_hermitian_projection _ _ _ _ _ _ _ _ _ _ _ _ _ _ _ 0%nat sigmaz
              Hres eq_refl)
    as (L & es & stored & _ & _ & Hst & Hherm & _).
  exists res, stored. split; [exact Hres |]. split; [exact Hst |].
  exact (proj2 (Hherm isherm_sigmaz)).
Defined.

Lemma unitary_and_density_paths_agree_witness :
  exists es1 es2,
    Ref.ode2es sigmaz ket0 = Ok es1 /\
    Ref.ode2es (Ref.commutator_super sigmaz) (Qobj_outer ket0) = Ok es2 /\
    expect1 Ref.ket_dims sigmaz (esval1 Ref.Qobj_default es2 (PI / 2)) =
    expect1 Ref.ket_dims sigmaz (esval1 Ref.Qobj_default es1 (PI / 2)).
Proof.
  destruct ode2es_ref_sigmaz as (es1 & H1).
  destruct ode2es_ref_commutator_sigmaz_outer as (es2 & H2).
  exists es1, es2. split; [exact H1 |]. split; [exact H2 |].
  exact (unitary_and_density_paths_agree
           Ref.ket_dims Ref.oper_dims Ref.super_dims Ref.eigenstates Ref.solve
           Ref.liouvillian Ref.estidy Ref.Qobj_default
           sigmaz ket0 (Ref.commutator_super sigmaz) sigmaz None es1 es2 (PI / 2)
           eigenstates_ref_contract solve_ref_exact estidy_ref_keeps_value
           liouvillian_ref_contract eq_refl sigmaz_hermitian
           eq_refl eq_refl eq_refl eq_refl eq_refl eq_refl eq_refl eq_refl
           H1 H2).
Defined.

Lemma two_level_scenario_witness :
  Ref.essolve sigmaz ket0 [0; PI / 2; PI] None [sigmaz] =
  Ok (mkOdedata "essolve" [0; PI / 2; PI] [RealSeq [1; 1; 1]]).
Proof.
  exact (proj2 (two_level_scenario
                  Ref.ket_dims Ref.oper_dims Ref.super_dims Ref.isherm
                  Ref.eigenstates Ref.solve Ref.liouvillian Ref.estidy
                  Ref.Qobj_default
                  [C1; (- C1)%C] [basis_ket 2 0; basis_ket 2 1]
                  eigenstates_ref_contract solve_ref_exact solve_ref_regular
                  estidy_ref_keeps_value eq_refl eq_refl eq_refl isherm_sigmaz
                  eigenstates_ref_sigmaz solve_ref_sigmaz
                  (fun es0 => ex_intro _ es0 eq_refl))).
Defined.

Lemma essolve_no_observables_witness :
  Ref.essolve sigmaz ket0 [0; PI / 2; PI] None [] =
  Ok (mkOdedata "essolve" [0; PI / 2; PI] []).
Proof.
  destruct ode2es_ref_sigmaz as (es & Hes).
  exact (essolve_no_observables
           Ref.ket_dims Ref.oper_dims Ref.super_dims Ref.isherm
           Ref.eigenstates Ref.solve Ref.liouvillian Ref.estidy Ref.Qobj_default
           sigmaz ket0 sigmaz [0; PI / 2; PI] None es eq_refl Hes).
Defined.

Lemma ode2es_promotes_ket_witness :
  Ref.ode2es (Ref.commutator_super sigmaz) ket0 =
  (out <- ode2es_super Ref.eigenstates Ref.solve
                       (Ref.commutator_super sigmaz) (Qobj_outer ket0) ;;
   Ref.estidy out).
Proof.
  exact (proj1 (ode2es_promotes_ket
                  Ref.ket_dims Ref.oper_dims Ref.super_dims Ref.eigenstates
                  Ref.solve Ref.estidy (Ref.commutator_super sigmaz) ket0
                  eq_refl eq_refl)).
Defined.

Lemma ode2es_series_shape_witness :
  exists es out,
    Ref.ode2es (Ref.commutator_super sigmaz) ket0 = Ok es /\
    Ref.estidy out = Ok es /\
    length (series_of out) = 4%nat.
Proof.
  destruct ode2es_ref_commutator_sigmaz as (es & Hes).
  destruct (ode2es_series_shape _ _ _ _ _ _ _ _ _ Hes)
    as (out & w & vs & _ & Ht & _ & Hlen & _).
  exists es, out. split; [exact Hes |]. split; [exact Ht |]. exact Hlen.
Defined.

(** *** The one-level scenario

    The generator [[1]] and the ket [[2]] of a one-dimensional space. The
    density matrix of the ket is the 1 by 1 matrix [[4]], which the ket
    test accepts, so that the superoperator branch promotes it again. *)

Definition one_level : Qobj :=
  mkQobj (mkArr 1 1 (fun _ _ => C1)) (oper_of_dim 1) (1%nat, 1%nat).

Definition ket_two : Qobj :=
  mkQobj (mkArr 1 1 (fun _ _ => RtoC 2)) (ket_of_dim 1) (1%nat, 1%nat).

Lemma one_level_hermitian (i j : nat) :
  (i < nrows (data one_level))%nat -> (j < nrows (data one_level))%nat ->
  item (data one_level) i j = Cconj (item (data one_level) j i).
Proof. intros _ _. simpl. apply C_eq; simpl; ring. Qed.

Lemma ode2es_ref_one_level :
  exists es,
    Ref.ode2es one_level ket_two = Ok es /\
    forall t, expect1 Ref.ket_dims one_level
                      (esval1 Ref.Qobj_default es t) = RtoC 4.
Proof.
  unfold Ref.ode2es, ode2es, ode2es_build. simpl.
  unfold ode2es_oper, Ref.eigenstates. simpl.
  unfold Ref.solve at 1. unfold is_identity, all_below, delta; simpl.
  rewrite !Ceqb_refl. simpl. eexists. split; [reflexivity |].
  intros t. unfold expect1. simpl.
  pose proof (Cexp_phase_norm C1 t eq_refl) as P.
  destruct (Cexp (- Ci * C1 * RtoC t)) as [a b].
  assert (P1 : a * a + b * b = 1).
  { apply (f_equal fst) in P. simpl in P. lra. }
  clear P. apply C_eq; simpl; nra.
Qed.

Lemma ode2es_ref_one_level_outer :
  exists es,
    Ref.ode2es (Ref.commutator_super one_level) (Qobj_outer ket_two) = Ok es /\
    forall t, expect1 Ref.ket_dims one_level
                      (esval1 Ref.Qobj_default es t) = RtoC 256.
Proof.
  unfold Ref.ode2es, ode2es, ode2es_build.
  change (issuper Ref.super_dims (Ref.commutator_super one_level)) with true.
  change (isket Ref.ket_dims (Qobj_outer ket_two)) with true. cbv iota.
  unfold ode2es_super, Ref.eigenstates. simpl.
  unfold Ref.solve at 1. unfold is_identity, all_below, delta; simpl.
  rewrite !Ceqb_refl. simpl. eexists. split; [reflexivity |].
  intros t. unfold expect1. simpl.
  replace (- Ci * (C1 * C1 - C1 * C1) * RtoC t)%C with C0
    by (apply C_eq; simpl; ring).
  rewrite Cexp_0. apply C_eq; simpl; ring.
Qed.

(** The claim C6 as it is worded fails on a one-dimensional ket: every
    premise of the claim holds, the density matrix of the ket is again a
    ket for the test of line 124, and the two paths give the observable
    [[1]] the values 4 and 256 at every time. *)
Lemma unitary_and_density_paths_agree_counterexample :
  exists es1 es2,
    (forall i j, (i < nrows (data one_level))%nat ->
                 (j < nrows (data one_level))%nat ->
       item (data one_level) i j = Cconj (item (data one_level) j i)) /\
    nrows (data one_level) = ncols (data one_level) /\
    issuper Ref.super_dims one_level = false /\
    isket Ref.ket_dims ket_two = true /\
    Ref.liouvillian one_level None = Ok (Ref.commutator_super one_level) /\
    issuper Ref.super_dims (Ref.commutator_super one_level) = true /\
    isket Ref.ket_dims (Qobj_outer ket_two) = true /\
    Ref.ode2es one_level ket_two = Ok es1 /\
    Ref.ode2es (Ref.commutator_super one_level) (Qobj_outer ket_two) = Ok es2 /\
    forall t,
      expect1 Ref.ket_dims one_level (esval1 Ref.Qobj_default es1 t) = RtoC 4 /\
      expect1 Ref.ket_dims one_level (esval1 Ref.Qobj_default es2 t) = RtoC 256 /\
      expect1 Ref.ket_dims one_level (esval1 Ref.Qobj_default es2 t) <>
      expect1 Ref.ket_dims one_level (esval1 Ref.Qobj_default es1 t).
Proof.
  destruct ode2es_ref_one_level as (es1 & H1 & E1).
  destruct ode2es_ref_one_level_outer as (es2 & H2 & E2).
  exists es1, es2.
  split; [exact one_level_hermitian |].
  repeat (split; [reflexivity |]).
  split; [exact H1 |]. split; [exact H2 |].
  intros t. split; [apply E1 |]. split; [apply E2 |].
  rewrite E1, E2. intros E. apply (f_equal fst) in E. simpl in E. lra.
Qed.

(** *** Further properties at the two-level scenario *)

(** The generator [[0, 1], [1, 0]], which the reference eigen-solver
    refuses. *)
Definition sigmax : Qobj :=
  mkQobj (mkArr 2 2 (fun i j => if (i =? j)%nat then C0 else C1))
         (oper_of_dim 2) (2%nat, 2%nat).

Lemma Ceqb_C1_C0 : Ceqb C1 C0 = false.
Proof.
  destruct (Ceqb C1 C0) eqn:E; [| reflexivity].
  apply Ceqb_eq in E. inversion E. lra.
Qed.

Lemma eigenstates_ref_sigmax : Ref.eigenstates sigmax = Raise LinAlgError.
Proof.
  unfold Ref.eigenstates, is_diagonal, all_below; simpl.
  rewrite Ceqb_C1_C0. reflexivity.
Qed.

Lemma ode2es_build_ref_sigmaz :
  exists out,
    ode2es_build Ref.ket_dims Ref.oper_dims Ref.super_dims Ref.eigenstates
                 Ref.solve sigmaz ket0 = Ok out.
Proof.
  destruct ode2es_ref_sigmaz as (es & Hes).
  apply ode2es_inv in Hes as (out & Hb & _). exists out. exact Hb.
Qed.

Lemma ode2es_build_ref_commutator_sigmaz :
  exists out,
    ode2es_build Ref.ket_dims Ref.oper_dims Ref.super_dims Ref.eigenstates
                 Ref.solve (Ref.commutator_super sigmaz) ket0 = Ok out.
Proof.
  destruct ode2es_ref_commutator_sigmaz as (es & Hes).
  apply ode2es_inv in Hes as (out & Hb & _). exists out. exact Hb.
Qed.

Lemma essolve_result_shape_witness :
  exists res,
    Ref.essolve sigmaz ket0 [0; PI / 2; PI] None [sigmaz] = Ok res /\
    od_times res = [0; PI / 2; PI] /\
    length (od_expect res) = 1%nat /\
    forall s, In s (od_expect res) -> seq_length s = 3%nat.
Proof.
  destruct (essolve_ref_sigmaz [0; PI / 2; PI] [sigmaz]) as (res & Hres).
  exists res. split; [exact Hres |].
  exact (proj2 (essolve_result_shape
                  Ref.ket_dims Ref.oper_dims Ref.super_dims Ref.isherm
                  Ref.eigenstates Ref.solve Ref.liouvillian Ref.estidy
                  Ref.Qobj_default sigmaz ket0 [0; PI / 2; PI] None [sigmaz]
                  res Hres)).
Defined.

Lemma essolve_rejects_witness :
  Ref.essolve ket0 ket0 [0; PI / 2; PI] None [sigmaz] =
  Raise InvalidGeneratorError.
Proof.
  exact (proj1 (essolve_rejects
                  Ref.ket_dims Ref.oper_dims Ref.super_dims Ref.isherm
                  Ref.eigenstates Ref.solve Ref.liouvillian Ref.estidy
                  Ref.Qobj_default ket0 ket0 [0; PI / 2; PI] None [sigmaz])
               eq_refl eq_refl eq_refl eq_refl).
Defined.

Lemma ode2es_surfaces_failures_witness :
  Ref.ode2es sigmax ket0 = Raise LinAlgError.
Proof.
  exact (proj1 (ode2es_surfaces_failures
                  Ref.ket_dims Ref.oper_dims Ref.super_dims Ref.eigenstates
                  Ref.solve Ref.estidy sigmax ket0
                  (or_intror (conj eq_refl eq_refl)))
               LinAlgError eigenstates_ref_sigmax).
Defined.

Lemma ode2es_build_none_iff_empty_witness :
  exists out,
    ode2es_build Ref.ket_dims Ref.oper_dims Ref.super_dims Ref.eigenstates
                 Ref.solve sigmaz ket0 = Ok out /\
    out <> None.
Proof.
  destruct ode2es_build_ref_sigmaz as (out & Hb).
  exists out. split; [exact Hb |].
  intros E.
  pose proof (proj1 (ode2es_build_none_iff_empty _ _ _ _ _ _ _ _ Hb) E) as P.
  discriminate P.
Defined.

Lemma ode2es_sizes_fit_witness :
  exists out,
    ode2es_build Ref.ket_dims Ref.oper_dims Ref.super_dims Ref.eigenstates
                 Ref.solve (Ref.commutator_super sigmaz) ket0 = Ok out /\
    nrows (data (Ref.commutator_super sigmaz)) =
    prod_shape (working_state Ref.ket_dims Ref.super_dims
                              (Ref.commutator_super sigmaz) ket0).
Proof.
  destruct ode2es_build_ref_commutator_sigmaz as (out & Hb).
  exists out. split; [exact Hb |].
  exact (proj1 (ode2es_sizes_fit _ _ _ _ _ _ _ _
                  eigenstates_ref_contract solve_ref_exact Hb)).
Defined.

Lemma ode2es_terms_are_eigenvectors_witness :
  exists out w vs,
    ode2es_build Ref.ket_dims Ref.oper_dims Ref.super_dims Ref.eigenstates
                 Ref.solve sigmaz ket0 = Ok out /\
    Ref.eigenstates sigmaz = Ok (w, vs) /\
    forall k qo rate, nth_error (series_of out) k = Some (qo, rate) ->
      exists wk, nth_error w k = Some wk /\ rate = (- Ci * wk)%C /\
                 arr_eq (matmul (data sigmaz) (data qo))
                        (scale_arr wk (data qo)).
Proof.
  destruct ode2es_build_ref_sigmaz as (out & Hb).
  destruct (ode2es_terms_are_eigenvectors
              Ref.ket_dims Ref.oper_dims Ref.super_dims Ref.eigenstates
              Ref.solve sigmaz ket0 out
              eigenstates_ref_contract solve_ref_exact eq_refl Hb)
    as (w & vs & He & Hterms).
  exists out, w, vs. split; [exact Hb |]. split; [exact He |].
  exact Hterms.
Defined.

Lemma sigmaz_ket0_eigen (p : nat) :
  (p < nrows (data sigmaz))%nat ->
  item (matmul (data sigmaz)
               (solve_rhs Ref.ket_dims Ref.super_dims sigmaz ket0)) p 0 =
  (C1 * item (solve_rhs Ref.ket_dims Ref.super_dims sigmaz ket0) p 0)%C.
Proof.
  simpl. intros Hp.
  destruct p as [| [| p]]; try lia; unfold delta; simpl;
    apply C_eq; simpl; ring.
Qed.


Lemma ode2es_solves_equation_witness :
  exists es,
    Ref.ode2es sigmaz ket0 = Ok es /\
    forall i, (i < 2)%nat ->
      Cderiv (fun s => item (data (esval1 Ref.Qobj_default es s)) i 0)
             (PI / 2)
             (- Ci * item (matmul (data sigmaz)
                                  (data (esval1 Ref.Qobj_default es (PI / 2))))
                          i 0)%C.
Proof.
  destruct ode2es_ref_sigmaz as (es & Hes). exists es. split; [exact Hes |].
  exact (ode2es_solves_equation
           Ref.ket_dims Ref.oper_dims Ref.super_dims Ref.eigenstates Ref.solve
           Ref.estidy Ref.Qobj_default sigmaz ket0 es (PI / 2)
           eigenstates_ref_contract solve_ref_exact estidy_ref_keeps_value
           eq_refl Hes).
Defined.

Lemma ode2es_conserves_norm_witness :
  exists es,
    Ref.ode2es sigmaz ket0 = Ok es /\
    norm2 (data (esval1 Ref.Qobj_default es (PI / 2))) = norm2 (data ket0).
Proof.
  destruct ode2es_ref_sigmaz as (es & Hes). exists es. split; [exact Hes |].
  exact (ode2es_conserves_norm
           Ref.ket_dims Ref.oper_dims Ref.super_dims Ref.eigenstates Ref.solve
           Ref.estidy Ref.Qobj_default sigmaz ket0 es (PI / 2)
           eigenstates_ref_contract solve_ref_exact estidy_ref_keeps_value
           eq_refl eq_refl sigmaz_hermitian Hes).
Defined.

Lemma ode2es_eigenstate_evolution_witness :
  exists es,
    Ref.ode2es sigmaz ket0 = Ok es /\
    forall p, (p < 2)%nat ->
      item (data (esval1 Ref.Qobj_default es (PI / 2))) p 0 =
      (Cexp (- Ci * C1 * RtoC (PI / 2)) * item (data ket0) p 0)%C.
Proof.
  destruct ode2es_ref_sigmaz as (es & Hes). exists es. split; [exact Hes |].
  exact (ode2es_eigenstate_evolution
           Ref.ket_dims Ref.oper_dims Ref.super_dims Ref.eigenstates Ref.solve
           Ref.estidy Ref.Qobj_default sigmaz ket0 es C1 (PI / 2)
           eigenstates_ref_contract solve_ref_exact estidy_ref_keeps_value
           eq_refl sigmaz_ket0_eigen Hes).
Defined.

Lemma ode2es_conserves_trace_witness :
  exists es,
    Ref.ode2es (Ref.commutator_super sigmaz) (Qobj_outer ket0) = Ok es /\
    trace (data (esval1 Ref.Qobj_default es (PI / 2))) =
    trace (data (Qobj_outer ket0)).
Proof.
  destruct ode2es_ref_commutator_sigmaz_outer as (es & Hes).
  exists es. split; [exact Hes |].
  exact (ode2es_conserves_trace
           Ref.ket_dims Ref.oper_dims Ref.super_dims Ref.eigenstates Ref.solve
           Ref.liouvillian Ref.estidy Ref.Qobj_default
           sigmaz (Ref.commutator_super sigmaz) (Qobj_outer ket0) None es
           (PI / 2)
           eigenstates_ref_contract solve_ref_exact estidy_ref_keeps_value
           liouvillian_ref_contract eq_refl eq_refl eq_refl eq_refl Hes).
Defined.

Lemma ode2es_density_is_outer_product_witness :
  exists es1 es2,
    Ref.ode2es sigmaz ket0 = Ok es1 /\
    Ref.ode2es (Ref.commutator_super sigmaz) ket0 = Ok es2 /\
    arr_eq (data (esval1 Ref.Qobj_default es2 (PI / 2)))
           (data (Qobj_outer (esval1 Ref.Qobj_default es1 (PI / 2)))).
Proof.
  destruct ode2es_ref_sigmaz as (es1 & H1).
  destruct ode2es_ref_commutator_sigmaz as (es2 & H2).
  exists es1, es2. split; [exact H1 |]. split; [exact H2 |].
  exact (ode2es_density_is_outer_product
           Ref.ket_dims Ref.oper_dims Ref.super_dims Ref.eigenstates Ref.solve
           Ref.liouvillian Ref.estidy Ref.Qobj_default
           sigmaz ket0 (Ref.commutator_super sigmaz) ket0 None es1 es2
           (PI / 2)
           eigenstates_ref_contract solve_ref_exact estidy_ref_keeps_value
           liouvillian_ref_contract eq_refl sigmaz_hermitian
           eq_refl eq_refl eq_refl eq_refl eq_refl H1 H2).
Defined.


(** *** A second pair of routines

    An eigen-solver that returns the basis vectors scaled by 2, and the
    linear solve that accepts twice the identity matrix. *)

Definition scaled_ket (n k : nat) : Qobj :=
  mkQobj (mkArr n 1 (fun i _ => (RtoC 2 * delta i k)%C))
         (ket_of_dim n) (n, 1%nat).

Definition is_twice_identity (A : ndarray) : bool :=
  (nrows A =? ncols A)%nat &&
  all_below (nrows A) (fun i =>
    all_below (nrows A) (fun j =>
      Ceqb (item A i j) (RtoC 2 * delta i j)%C)).

Module Alt.

Definition eigenstates (L : Qobj) : result (list C * list Qobj) :=
  if is_diagonal (data L) then
    Ok (map (fun k => item (data L) k k) (seq 0 (nrows (data L))),
        map (scaled_ket (nrows (data L))) (seq 0 (nrows (data L))))
  else Raise LinAlgError.

Definition solve (a b : ndarray) : result ndarray :=
  if is_twice_identity a && (nrows b =? nrows a)%nat then
    Ok (mkArr (nrows b) (ncols b) (fun i j => (item b i j / RtoC 2)%C))
  else Raise LinAlgError.

End Alt.

Lemma RtoC_2_neq_0 : RtoC 2 <> C0.
Proof. intros E. inversion E. lra. Qed.

Lemma solve_alt_exact : solve_exact Alt.solve.
Proof.
  intros a b x. unfold Alt.solve.
  destruct (is_twice_identity a && (nrows b =? nrows a)%nat) eqn:E;
    [| discriminate].
  intros Hx; inversion Hx; subst x; clear Hx.
  apply andb_true_iff in E as (Hid & Hnb). apply Nat.eqb_eq in Hnb.
  unfold is_twice_identity in Hid. apply andb_true_iff in Hid as (Hsq & Hid).
  apply Nat.eqb_eq in Hsq.
  assert (Ha : forall i j, (i < nrows a)%nat -> (j < nrows a)%nat ->
                           item a i j = (RtoC 2 * delta i j)%C).
  { intros i j Hi Hj. apply Ceqb_eq.
    rewrite all_below_spec in Hid. specialize (Hid i Hi).
    rewrite all_below_spec in Hid. exact (Hid j Hj). }
  repeat split; simpl; try congruence.
  intros i j Hi Hj. rewrite (csum_single _ i).
  2: lia.
  2: { intros k Hk Hne. rewrite Ha by lia. unfold delta.
       destruct (i =? k)%nat eqn:Eik; [apply Nat.eqb_eq in Eik; lia | ring]. }
  rewrite Ha by lia. unfold delta. rewrite Nat.eqb_refl.
  field. exact RtoC_2_neq_0.
Qed.

Lemma eigenstates_alt_contract : eigen_contract Alt.eigenstates.
Proof.
  intros L w vs. unfold Alt.eigenstates.
  destruct (is_diagonal (data L)) eqn:Hd; [| discriminate].
  intros H; inversion H; subst w vs; clear H.
  apply is_diagonal_spec in Hd as (Hsq & Hoff).
  rewrite !length_map, length_seq. split; [reflexivity |]. split; [reflexivity |].
  intros k wk vk Hw Hv.
  apply nth_error_map_seq in Hw as (Hk & ->).
  apply nth_error_map_seq in Hv as (_ & ->).
  simpl. split; [reflexivity |]. split; [reflexivity |].
  intros i Hi. rewrite <- Hsq. rewrite (csum_single _ k).
  - unfold delta. rewrite Nat.eqb_refl.
    destruct (i =? k)%nat eqn:E.
    + apply Nat.eqb_eq in E. subst i. ring.
    + apply Nat.eqb_neq in E. rewrite Hoff by assumption. ring.
  - exact Hk.
  - intros j Hj Hne. unfold delta.
    destruct (j =? k)%nat eqn:E; [apply Nat.eqb_eq in E; contradiction | ring].
Qed.

Lemma ode2es_alt_sigmaz :
  exists es,
    ode2es Ref.ket_dims Ref.oper_dims Ref.super_dims Alt.eigenstates
           Alt.solve Ref.estidy sigmaz ket0 = Ok es.
Proof.
  unfold ode2es, ode2es_build. simpl.
  unfold ode2es_oper, Alt.eigenstates. rewrite is_diagonal_sigmaz. simpl.
  unfold Alt.solve at 1. unfold is_twice_identity, all_below, delta; simpl.
  rewrite !Ceqb_refl. simpl. eexists. reflexivity.
Qed.

Lemma ode2es_independent_of_routines_witness :
  exists es1 es2,
    Ref.ode2es sigmaz ket0 = Ok es1 /\
    ode2es Ref.ket_dims Ref.oper_dims Ref.super_dims Alt.eigenstates
           Alt.solve Ref.estidy sigmaz ket0 = Ok es2 /\
    qobj_eq (esval1 Ref.Qobj_default es1 (PI / 2))
            (esval1 Ref.Qobj_default es2 (PI / 2)).
Proof.
  destruct ode2es_ref_sigmaz as (es1 & H1).
  destruct ode2es_alt_sigmaz as (es2 & H2).
  exists es1, es2. split; [exact H1 |]. split; [exact H2 |].
  exact (ode2es_independent_of_routines
           Ref.ket_dims Ref.oper_dims Ref.super_dims
           Ref.eigenstates Alt.eigenstates Ref.solve Alt.solve
           Ref.estidy Ref.estidy Ref.Qobj_default sigmaz ket0 es1 es2 (PI / 2)
           eigenstates_ref_contract eigenstates_alt_contract
           solve_ref_exact solve_alt_exact
           estidy_ref_keeps_value estidy_ref_keeps_value
           eq_refl H1 H2).
Defined.
